(** * Cute Chess PGN codec: [PgnGame::readItem], the game builder and the writer

    A shallow embedding of [projects/lib/src/pgngame.cpp].  The scanner
    [readItem] is one loop over a character stream with a handful of
    mutable locals; it is embedded as a step function on a record of those
    locals ([body], one pass of the loop), iterated by [scanLoop] and
    followed by [interpret] (the code after the loop).  The builder
    [PgnGame::PgnGame(PgnFile&, int)] is [PgnGame_read], the writer is
    [write].

    What the file consumes and the sources do not hold is kept apart: the
    rules engine ([Chess::Board], [Chess::Variant]) is an interface, the
    type class [RulesEngine]; the stream [PgnFile] and the values of
    [Chess::Result] are modelled from the spec.  Qt's [QString] is a list
    of characters, [QChar] a character of one byte.

    The file has three parts: the code, the vocabulary of the statements,
    and the properties, each claim of the spec under its number, followed
    by further properties of the code, numbered X1 and up. *)

From Stdlib Require Import List Ascii String ZArith Bool Arith Lia.
From Stdlib Require Decimal DecimalString.
Import ListNotations.

(** ** Characters and strings (Qt's QChar and QString) *)

Definition QString := list ascii.

Definition qs (s : string) : QString := list_ascii_of_string s.

Definition NUL : ascii := "000"%char.
Definition LF : ascii := "010"%char.
Definition CR : ascii := "013"%char.
Definition DQUOTE : ascii := "034"%char.

(** [QChar::isNull]. *)
Definition isNull (c : ascii) : bool := Ascii.eqb c NUL.

(** [QChar::isDigit] on Latin-1: the decimal digits. *)
Definition isDigit (c : ascii) : bool :=
  let n := nat_of_ascii c in (48 <=? n) && (n <=? 57).

(** [QChar::isSpace] on Latin-1: tab, LF, VT, FF, CR, space and the
    no-break space. *)
Definition isSpace (c : ascii) : bool :=
  let n := nat_of_ascii c in
  ((9 <=? n) && (n <=? 13)) || (n =? 32) || (n =? 160).

Fixpoint QString_eqb (a b : QString) : bool :=
  match a, b with
  | [], [] => true
  | x :: a', y :: b' => Ascii.eqb x y && QString_eqb a' b'
  | _, _ => false
  end.

Fixpoint dropWhile (p : ascii -> bool) (l : QString) : QString :=
  match l with
  | [] => []
  | c :: l' => if p c then dropWhile p l' else l
  end.

Fixpoint takeWhile (p : ascii -> bool) (l : QString) : QString :=
  match l with
  | [] => []
  | c :: l' => if p c then c :: takeWhile p l' else []
  end.

(** [QString::trimmed]: white space removed from both ends. *)
Definition trimmed (s : QString) : QString :=
  rev (dropWhile isSpace (rev (dropWhile isSpace s))).

(** [QString::section(sep, 0, 0)]: the field before the first [sep]. *)
Definition section_first (sep : ascii) (s : QString) : QString :=
  takeWhile (fun c => negb (Ascii.eqb c sep)) s.

(** [QString::section(sep, 1)]: everything after the first [sep]. *)
Definition section_rest (sep : ascii) (s : QString) : QString :=
  match dropWhile (fun c => negb (Ascii.eqb c sep)) s with
  | [] => []
  | _ :: r => r
  end.

(** [QString::replace(ch, "")]: every occurrence of [ch] removed. *)
Definition remove_char (ch : ascii) (s : QString) : QString :=
  filter (fun c => negb (Ascii.eqb c ch)) s.

(** [QString::number(n)] for a non-negative [n]: its decimal digits. *)
Definition QString_number (n : nat) : QString :=
  qs (DecimalString.NilZero.string_of_uint (Nat.to_uint n)).

Definition digitValue (c : ascii) : Z := Z.of_nat (nat_of_ascii c) - 48.

Fixpoint parseDigits (acc : Z) (l : QString) : option Z :=
  match l with
  | [] => Some acc
  | c :: l' => if isDigit c then parseDigits (10 * acc + digitValue c) l' else None
  end.

Definition INT_MIN : Z := - 2 ^ 31.
Definition INT_MAX : Z := 2 ^ 31 - 1.

(** [QString::toInt(&ok)] in base 10: an optional sign and at least one
    digit, surrounding white space ignored, the value within [int];
    [None] is [ok == false]. *)
Definition toInt (s : QString) : option Z :=
  let body (neg : bool) (ds : QString) :=
    match ds with
    | [] => None
    | _ => match parseDigits 0 ds with
           | Some v => let v' := if neg then - v else v in
                       if (INT_MIN <=? v') && (v' <=? INT_MAX) then Some v' else None
           | None => None
           end
    end%Z in
  match trimmed s with
  | c :: ds => if Ascii.eqb c "-" then body true ds
               else if Ascii.eqb c "+" then body false ds
               else body false (c :: ds)
  | [] => None
  end.

(** ** Results ([Chess::Result]) *)

(** Modelled from the spec: [Chess::Result] (chessboard/result.h is not
    among the sources).  The spec gives the five values and the four
    terminator strings. *)
Inductive Result := WhiteWins | BlackWins | Draw | NoResult | ResultError.

Definition Result_eqb (a b : Result) : bool :=
  match a, b with
  | WhiteWins, WhiteWins | BlackWins, BlackWins | Draw, Draw
  | NoResult, NoResult | ResultError, ResultError => true
  | _, _ => false
  end.

(** Modelled from the spec: the constructor [Chess::Result(const QString&)]. *)
Definition Result_fromString (s : QString) : Result :=
  if QString_eqb s (qs "1-0") then WhiteWins
  else if QString_eqb s (qs "0-1") then BlackWins
  else if QString_eqb s (qs "1/2-1/2") then Draw
  else if QString_eqb s (qs "*") then NoResult
  else ResultError.

(** ** Items and log messages *)

Inductive PgnItem :=
  PgnMove | PgnMoveNumber | PgnTag | PgnComment | PgnNag | PgnResult | PgnEmpty | PgnError.

Definition PgnItem_eqb (a b : PgnItem) : bool :=
  match a, b with
  | PgnMove, PgnMove | PgnMoveNumber, PgnMoveNumber | PgnTag, PgnTag
  | PgnComment, PgnComment | PgnNag, PgnNag | PgnResult, PgnResult
  | PgnEmpty, PgnEmpty | PgnError, PgnError => true
  | _, _ => false
  end.

(** What the code sends to [qDebug()]; line numbers are left out. *)
Inductive LogMsg :=
| NoTerminationMarker
| MarkerDiffersFromTag
| InvalidResult (param : QString)
| InvalidVariant (param : QString)
| InvalidFen (fen : QString)
| NoTagsFound
| IllegalMove (text : QString)
| InvalidNag (text : QString)
| PgnErrorOnLine.

(** ** The rules engine *)

(** The interface [pgngame.cpp] consumes from [Chess::Board],
    [Chess::Variant] and [Chess::Result]; none of them is defined in the
    sources.  A board is a value, a mutating method returns the new board. *)
Class RulesEngine := {
  Board : Type;
  Move : Type;
  Variant : Type;
  Standard : Variant;
  Variant_eqb : Variant -> Variant -> bool;
  Variant_eqb_spec : forall a b, Variant_eqb a b = true <-> a = b;
  variantFromString : QString -> Variant;
  variantToString : Variant -> QString;
  isNone : Variant -> bool;
  isRandom : Variant -> bool;
  startingFen : Variant -> QString;
  newBoard : Variant -> Board;
  boardVariant : Board -> Variant;
  setVariant : Board -> Variant -> Board;
  setBoard : Board -> QString -> bool * Board;
  moveFromString : Board -> QString -> Move;
  isLegalMove : Board -> Move -> bool;
  makeMove : Board -> Move -> Board;
  moveString : Board -> Move -> QString;
  resultErrorString : QString
}.

Section Codec.

Context {E : RulesEngine}.

(** [Result::toSimpleString]: the terminator string of a result; the text
    of the error value is the engine's. *)
Definition toSimpleString (r : Result) : QString :=
  match r with
  | WhiteWins => qs "1-0"
  | BlackWins => qs "0-1"
  | Draw => qs "1/2-1/2"
  | NoResult => qs "*"
  | ResultError => resultErrorString
  end.

(** Modelled from the spec: [Result::toString], which the writer puts after
    the last move ("the terminator string for the result"). *)
Definition Result_toString (r : Result) : QString := toSimpleString r.

(** ** The stream ([PgnFile]) *)

Inductive Status := Ok | ReadPastEnd.

(** Modelled from the spec: [PgnFile] (pgnfile.cpp is not among the
    sources): a forward-only character stream with a one-character rewind,
    the board the games are replayed on and the variant the file was opened
    with.  [past] holds the characters read so far, the last one first. *)
Record PgnFile := mkPgnFile {
  past : QString;
  rest : QString;
  status : Status;
  board : Board;
  variant : Variant
}.

Definition set_board (f : PgnFile) (b : Board) : PgnFile :=
  mkPgnFile (past f) (rest f) (status f) b (variant f).

(** [PgnFile::readChar]: the next character; at the end of the data the
    null character, and the status leaves [Ok]. *)
Definition readChar (f : PgnFile) : ascii * PgnFile :=
  match rest f with
  | c :: r => (c, mkPgnFile (c :: past f) r (status f) (board f) (variant f))
  | [] => (NUL, mkPgnFile (past f) [] ReadPastEnd (board f) (variant f))
  end.

(** [PgnFile::rewindChar]: the last character read is read again next. *)
Definition rewindChar (f : PgnFile) : PgnFile :=
  match past f with
  | c :: p => mkPgnFile p (c :: rest f) (status f) (board f) (variant f)
  | [] => f
  end.

Fixpoint skipSpaces (p r : QString) : QString * QString :=
  match r with
  | c :: r' => if isSpace c then skipSpaces (c :: p) r' else (p, r)
  | [] => (p, r)
  end.

(** [PgnFile::skipWhiteSpace]: white space is read and discarded. *)
Definition skipWhiteSpace (f : PgnFile) : PgnFile :=
  let '(p, r) := skipSpaces (past f) (rest f) in
  mkPgnFile p r (status f) (board f) (variant f).

Fixpoint takeLine (p r : QString) : QString * (QString * QString) :=
  match r with
  | c :: r' =>
      if Ascii.eqb c LF then ([], (c :: p, r'))
      else let '(l, pr) := takeLine (c :: p) r' in (c :: l, pr)
  | [] => ([], (p, r))
  end.

Definition chopCR (l : QString) : QString :=
  match rev l with
  | c :: l' => if Ascii.eqb c CR then rev l' else l
  | [] => l
  end.

(** [PgnFile::readLine]: the text up to the next line feed, which is
    consumed and not returned (nor is a carriage return before it). *)
Definition readLine (f : PgnFile) : QString * PgnFile :=
  let '(l, (p, r)) := takeLine (past f) (rest f) in
  (chopCR l, mkPgnFile p r (status f) (board f) (variant f)).

(** ** The game record ([PgnGame]) *)

Record PgnGame := mkPgnGame {
  m_whitePlayer : QString;
  m_blackPlayer : QString;
  m_moves : list Move;
  m_fen : QString;
  m_variant : Variant;
  m_isRandomVariant : bool;
  m_result : Result;
  m_hasTags : bool;
  m_round : Z
}.

Definition set_whitePlayer (g : PgnGame) (s : QString) : PgnGame :=
  mkPgnGame s (m_blackPlayer g) (m_moves g) (m_fen g) (m_variant g)
            (m_isRandomVariant g) (m_result g) (m_hasTags g) (m_round g).

Definition set_blackPlayer (g : PgnGame) (s : QString) : PgnGame :=
  mkPgnGame (m_whitePlayer g) s (m_moves g) (m_fen g) (m_variant g)
            (m_isRandomVariant g) (m_result g) (m_hasTags g) (m_round g).

Definition set_moves (g : PgnGame) (ms : list Move) : PgnGame :=
  mkPgnGame (m_whitePlayer g) (m_blackPlayer g) ms (m_fen g) (m_variant g)
            (m_isRandomVariant g) (m_result g) (m_hasTags g) (m_round g).

Definition set_fen (g : PgnGame) (s : QString) : PgnGame :=
  mkPgnGame (m_whitePlayer g) (m_blackPlayer g) (m_moves g) s (m_variant g)
            (m_isRandomVariant g) (m_result g) (m_hasTags g) (m_round g).

Definition set_variant (g : PgnGame) (v : Variant) : PgnGame :=
  mkPgnGame (m_whitePlayer g) (m_blackPlayer g) (m_moves g) (m_fen g) v
            (m_isRandomVariant g) (m_result g) (m_hasTags g) (m_round g).

Definition set_result (g : PgnGame) (r : Result) : PgnGame :=
  mkPgnGame (m_whitePlayer g) (m_blackPlayer g) (m_moves g) (m_fen g) (m_variant g)
            (m_isRandomVariant g) r (m_hasTags g) (m_round g).

Definition set_hasTags (g : PgnGame) (t : bool) : PgnGame :=
  mkPgnGame (m_whitePlayer g) (m_blackPlayer g) (m_moves g) (m_fen g) (m_variant g)
            (m_isRandomVariant g) (m_result g) t (m_round g).

(** ** The scanner: the loop of [PgnGame::readItem] *)

(** The locals of [readItem] that live across iterations. *)
Record Scan := mkScan {
  itemType : PgnItem;
  openingBracket : ascii;
  closingBracket : ascii;
  bracketLevel : Z;
  str : QString
}.

Definition scanStart : Scan := mkScan PgnMove NUL NUL 0 [].

Definition set_itemType (s : Scan) (i : PgnItem) : Scan :=
  mkScan i (openingBracket s) (closingBracket s) (bracketLevel s) (str s).

Definition set_str (s : Scan) (t : QString) : Scan :=
  mkScan (itemType s) (openingBracket s) (closingBracket s) (bracketLevel s) t.

Definition set_level (s : Scan) (n : Z) : Scan :=
  mkScan (itemType s) (openingBracket s) (closingBracket s) n (str s).

Definition set_opening (s : Scan) (c : ascii) : Scan :=
  mkScan (itemType s) c (closingBracket s) (bracketLevel s) (str s).

(** [itemType = i; closingBracket = c;] *)
Definition set_bracket (s : Scan) (i : PgnItem) (c : ascii) : Scan :=
  mkScan i (openingBracket s) c (bracketLevel s) (str s).

(** How one pass through the loop body ends: [continue], [break],
    [return], or control reaches the next statement. *)
Inductive Flow :=
| Continue (s : Scan) (f : PgnFile)
| Break (s : Scan) (f : PgnFile)
| Return (i : PgnItem) (f : PgnFile) (lg : list LogMsg)
| Next (s : Scan) (f : PgnFile).

(** Lines 68-98: the tests made while [str] is still empty. *)
Definition leading (s : Scan) (c : ascii) (f : PgnFile) : Flow :=
  match str s with
  | [] =>
      if Ascii.eqb c ";" then
        let '(l, f') := readLine f in
        Break (set_str (set_itemType s PgnComment) l) f'
      else if Ascii.eqb c "%" then Continue s (snd (readLine f))
      else if Ascii.eqb c "." then Continue s (skipWhiteSpace f)
      else if Ascii.eqb c "$" then Continue (set_itemType s PgnNag) f
      else if isDigit c && PgnItem_eqb (itemType s) PgnMove
           then Next (set_itemType s PgnMoveNumber) f
           else Next s f
  | _ :: _ => Next s f
  end.

(** Lines 100-127: a bracket that opens a tag or a comment. *)
Definition opening (g : PgnGame) (s : Scan) (c : ascii) (f : PgnFile) : Flow :=
  let close (s' : Scan) :=
    if negb (isNull (closingBracket s')) then Next (set_opening s' c) f else Next s' f in
  if Ascii.eqb c "[" then
    match m_moves g with
    | _ :: _ => Return PgnError (rewindChar f) [NoTerminationMarker]
    | [] => close (set_bracket s PgnTag "]")
    end
  else if Ascii.eqb c "(" then close (set_bracket s PgnComment ")")
  else if Ascii.eqb c "{" then close (set_bracket s PgnComment "}")
  else close s.

(** Lines 129-145: bracket depth, the end of an unbracketed token, or one
    more character of text. *)
Definition track (s : Scan) (c : ascii) (f : PgnFile) : Flow :=
  if Ascii.eqb c (openingBracket s) then
    Continue (set_level s (bracketLevel s + 1)) f
  else if Ascii.eqb c (closingBracket s) then
    let s' := set_level s (bracketLevel s - 1) in
    if (bracketLevel s' <=? 0)%Z then Break s' f else Continue s' f
  else if PgnItem_eqb (itemType s) PgnMove && isSpace c then Break s f
  else if PgnItem_eqb (itemType s) PgnMoveNumber && (isSpace c || Ascii.eqb c ".")
       then Break s f
  else if PgnItem_eqb (itemType s) PgnNag && isSpace c then Break s f
  else Continue (set_str s (str s ++ [c])) f.

(** The loop body after [c = in.readChar()] (lines 61-145). *)
Definition body (g : PgnGame) (s : Scan) (c : ascii) (f : PgnFile) : Flow :=
  if negb (m_hasTags g) && negb (PgnItem_eqb (itemType s) PgnTag)
     && negb (Ascii.eqb c "[") then Continue s f
  else if (Ascii.eqb c LF || Ascii.eqb c CR)
          && negb (PgnItem_eqb (itemType s) PgnComment) then Break s f
  else if isNull (openingBracket s) then
    match leading s c f with
    | Next s1 f1 =>
        match opening g s1 c f1 with
        | Next s2 f2 => track s2 c f2
        | fl => fl
        end
    | fl => fl
    end
  else track s c f.

(** How the loop ends: by [break] or an exhausted stream, with the locals
    as they then are, or by the [return] inside it. *)
Inductive ScanEnd :=
| Broke (s : Scan) (f : PgnFile)
| Returned (i : PgnItem) (f : PgnFile) (lg : list LogMsg).

(** [while (in.status() == QTextStream::Ok) { c = in.readChar(); ... }];
    [None] only when [fuel] passes run out. *)
Fixpoint scanLoop (fuel : nat) (g : PgnGame) (s : Scan) (f : PgnFile) : option ScanEnd :=
  match fuel with
  | O => None
  | S k =>
      match status f with
      | ReadPastEnd => Some (Broke s f)
      | Ok =>
          let '(c, f1) := readChar f in
          match body g s c f1 with
          | Continue s' f' => scanLoop k g s' f'
          | Break s' f' => Some (Broke s' f')
          | Return i f' lg => Some (Returned i f' lg)
          | Next s' f' => scanLoop k g s' f'
          end
      end
  end.

(** ** After the loop: what the item means (lines 148-237) *)

Definition isTerminator (s : QString) : bool :=
  QString_eqb s (qs "*") || QString_eqb s (qs "1/2-1/2")
  || QString_eqb s (qs "1-0") || QString_eqb s (qs "0-1").

(** What a call of [readItem] leaves: the item returned, the record, the
    stream (with its board) and what was logged. *)
Definition ItemResult : Type := PgnItem * PgnGame * PgnFile * list LogMsg.

(** Lines 168-196: what a tag named [tag] with the value [param] does. *)
Definition applyTag (g : PgnGame) (f : PgnFile) (tag param : QString) : ItemResult :=
  if QString_eqb tag (qs "White") then (PgnTag, set_whitePlayer g param, f, [])
  else if QString_eqb tag (qs "Black") then (PgnTag, set_blackPlayer g param, f, [])
  else if QString_eqb tag (qs "Result") then
    let r := Result_fromString param in
    (PgnTag, set_result g r, f,
     if Result_eqb r ResultError then [InvalidResult param] else [])
  else if QString_eqb tag (qs "Variant") then
    let v := variantFromString param in
    if isNone v then (PgnError, set_variant g v, f, [InvalidVariant param])
    else (PgnTag, set_variant g v, set_board f (setVariant (board f) v), [])
  else if QString_eqb tag (qs "FEN") then
    let '(ok, b) := setBoard (board f) param in
    if ok then (PgnTag, set_fen g param, set_board f b, [])
    else (PgnError, set_fen g param, set_board f b, [InvalidFen param])
  else (PgnTag, g, f, []).

(** Lines 163-197: the text of a tag is split at its first space into the
    name and the value, the value without its double quotes. *)
Definition interpretTag (g : PgnGame) (f : PgnFile) (text : QString) : ItemResult :=
  applyTag g f (section_first " " text) (remove_char DQUOTE (section_rest " " text)).

(** Lines 208-212: the starting position set on the first move when no
    FEN tag has set it. *)
Definition lazyFen (g : PgnGame) (f : PgnFile) : PgnGame * PgnFile :=
  match m_fen g with
  | [] =>
      let fen := startingFen (boardVariant (board f)) in
      (set_fen g fen, set_board f (snd (setBoard (board f) fen)))
  | _ :: _ => (g, f)
  end.

(** Lines 198-225. *)
Definition interpretMove (g : PgnGame) (f : PgnFile) (text : QString) : ItemResult :=
  if negb (m_hasTags g) then (PgnError, g, f, [NoTagsFound])
  else
    let '(g1, f1) := lazyFen g f in
    let move := moveFromString (board f1) text in
    if isLegalMove (board f1) move
    then (PgnMove, set_moves g1 (m_moves g1 ++ [move]),
          set_board f1 (makeMove (board f1) move), [])
    else (PgnError, g1, f1, [IllegalMove text]).

(** Lines 226-235. *)
Definition interpretNag (g : PgnGame) (f : PgnFile) (text : QString) : ItemResult :=
  match toInt text with
  | Some nag =>
      if (nag <? 0)%Z || (255 <? nag)%Z then (PgnError, g, f, [InvalidNag text])
      else (PgnNag, g, f, [])
  | None => (PgnError, g, f, [InvalidNag text])
  end.

Definition interpret (g : PgnGame) (s : Scan) (f : PgnFile) : ItemResult :=
  let text := trimmed (str s) in
  match text with
  | [] => (PgnEmpty, g, f, [])
  | _ :: _ =>
      if (PgnItem_eqb (itemType s) PgnMove || PgnItem_eqb (itemType s) PgnMoveNumber)
         && isTerminator text
      then
        let result := Result_fromString text in
        (PgnResult, set_result g result, f,
         if Result_eqb result (m_result g) then [] else [MarkerDiffersFromTag])
      else
        match itemType s with
        | PgnTag => interpretTag g f text
        | PgnMove => interpretMove g f text
        | PgnNag => interpretNag g f text
        | i => (i, g, f, [])
        end
  end.

(** The loop of [readItem] from its first statement: white space skipped,
    then the loop with the locals as initialised.  The fuel is more than
    the loop can use (see [scan_total]). *)
Definition scan (g : PgnGame) (f : PgnFile) : option ScanEnd :=
  let f0 := skipWhiteSpace f in
  scanLoop (2 + List.length (rest f0)) g scanStart f0.

(** [PgnGame::readItem]. *)
Definition readItem (g : PgnGame) (f : PgnFile) : option ItemResult :=
  match scan g f with
  | Some (Broke s f') => Some (interpret g s f')
  | Some (Returned i f' lg) => Some (i, g, f', lg)
  | None => None
  end.

(** ** The game builder: [PgnGame::PgnGame(PgnFile&, int)] *)

Definition BuildResult : Type := PgnGame * PgnFile * list LogMsg.

(** The loop of lines 252-267; [None] only when [fuel] passes run out. *)
Fixpoint buildLoop (fuel : nat) (maxMoves : Z) (g : PgnGame) (f : PgnFile)
  (lg : list LogMsg) : option BuildResult :=
  match fuel with
  | O => None
  | S k =>
      match status f with
      | ReadPastEnd => Some (g, f, lg)
      | Ok =>
          if (Z.of_nat (List.length (m_moves g)) <? maxMoves)%Z then
            match readItem g f with
            | None => None
            | Some (item, g', f', l) =>
                match item with
                | PgnError => Some (g', f', lg ++ l ++ [PgnErrorOnLine])
                | PgnTag => buildLoop k maxMoves (set_hasTags g' true) f' (lg ++ l)
                | PgnResult => Some (g', f', lg ++ l)
                | PgnEmpty => Some (g', f', lg ++ l)
                | _ => buildLoop k maxMoves g' f' (lg ++ l)
                end
            end
          else Some (g, f, lg)
      end
  end.

(** Modelled from the spec: the default [Chess::Result] a fresh record
    holds ("Ongoing/unknown"). *)
Definition Result_default : Result := NoResult.

(** The record as the initialiser list and the members' default
    constructors leave it. *)
Definition emptyGame : PgnGame :=
  mkPgnGame [] [] [] [] Standard false Result_default false 0.

(** Lines 246-250. *)
Definition startGame (f : PgnFile) : PgnGame * PgnFile :=
  if negb (isNone (variant f)) then (set_variant emptyGame (variant f), f)
  else (emptyGame, set_board f (setVariant (board f) Standard)).

Definition PgnGame_read (f : PgnFile) (maxMoves : Z) : option BuildResult :=
  let '(g, f1) := startGame f in
  buildLoop (2 + List.length (rest f1)) maxMoves g f1 [].

(** ** The writer: [PgnGame::write] *)

(** The tags the writer emits, in order, each a name and a value
    (lines 282-289). *)
Definition writtenTags (g : PgnGame) (date : QString) : list (QString * QString) :=
  [ (qs "Date", date);
    (qs "White", m_whitePlayer g);
    (qs "Black", m_blackPlayer g);
    (qs "Result", toSimpleString (m_result g)) ]
  ++ (if negb (Variant_eqb (m_variant g) Standard)
      then [(qs "Variant", variantToString (m_variant g))] else [])
  ++ (if isRandom (m_variant g)
         || negb (QString_eqb (m_fen g) (startingFen (m_variant g)))
      then [(qs "FEN", m_fen g)] else []).

(** One tag as written: the name and, between double quotes, the value,
    in square brackets on a line of its own. *)
Definition tagLine (t : QString * QString) : QString :=
  qs "[" ++ fst t ++ qs " " ++ [DQUOTE] ++ snd t ++ [DQUOTE] ++ qs "]" ++ [LF].

(** The loop of lines 293-301 from index [i] on. *)
Fixpoint moveText (i : nat) (b : Board) (ms : list Move) : QString :=
  match ms with
  | [] => []
  | m :: ms' =>
      (if i mod 8 =? 0 then [LF] else [])
      ++ (if i mod 2 =? 0 then QString_number (i / 2 + 1) ++ qs ". " else [])
      ++ moveString b m ++ qs " "
      ++ moveText (S i) (makeMove b m) ms'
  end.

(** What one call of [write] sends to the stream [out]. *)
Definition pgnText (g : PgnGame) (date : QString) : QString :=
  List.concat (map tagLine (writtenTags g date))
  ++ moveText 0 (snd (setBoard (newBoard (m_variant g)) (m_fen g))) (m_moves g)
  ++ Result_toString (m_result g) ++ [LF; LF].

(** [PgnGame::write]: the content of the destination after the call;
    [date] is the current date as [QDate] formats it, [opens] whether the
    file could be opened for appending. *)
Definition write (g : PgnGame) (date : QString) (opens : bool) (dest : QString) : QString :=
  if negb (m_hasTags g) then dest
  else if opens then dest ++ pgnText g date
  else dest.

(** ** The accessors (lines 306-319) *)

(** [PgnGame::isEmpty]. *)
Definition isEmpty (g : PgnGame) : bool :=
  match m_moves g with
  | [] => true
  | _ :: _ => false
  end.

(** [PgnGame::startingFen]. *)
Definition PgnGame_startingFen (g : PgnGame) : QString := m_fen g.

(** [PgnGame::moves]. *)
Definition moves (g : PgnGame) : list Move := m_moves g.

(** ** The record of a game that was played: the constructor of [PgnGame]
    from a [ChessGame] *)

(** [ChessPlayer] (chessplayer.cpp) as the codec sees it: of its members
    the name alone is read, through [name()]. *)
Record ChessPlayer := mkChessPlayer { m_name : QString }.

(** [ChessPlayer::name]. *)
Definition ChessPlayer_name (p : ChessPlayer) : QString := m_name p.

(** [ChessPlayer::setName]. *)
Definition ChessPlayer_setName (p : ChessPlayer) (n : QString) : ChessPlayer :=
  mkChessPlayer n.

(** Modelled from the spec: what a [ChessGame] and its board give the
    constructor (chessgame.cpp is not among the sources): the two
    players, and of the board the moves made, the position they started
    from, the variant and whether it is a random one, and the result. *)
Record ChessGame := mkChessGame {
  game_white : ChessPlayer;
  game_black : ChessPlayer;
  game_moveHistory : list Move;
  game_startingFen : QString;
  game_variant : Variant;
  game_isRandomVariant : bool;
  game_result : Result
}.

(** Lines 29-44.  The constructor does not initialise [m_round]: [round]
    is whatever the member holds. *)
Definition PgnGame_ofGame (game : ChessGame) (round : Z) : PgnGame :=
  mkPgnGame (ChessPlayer_name (game_white game)) (ChessPlayer_name (game_black game))
            (game_moveHistory game) (game_startingFen game) (game_variant game)
            (game_isRandomVariant game) (game_result game) true round.

End Codec.

(** ** A small rules engine

    An instance of the interface on which the codec can be run: a position
    is a counter, a move adds one, two or three to it and is written as
    that many letters, and a move is illegal when it would bring the
    counter to a multiple of four.  A position string is valid when it is
    a non-empty row of the letter p, and stands for its length. *)
Module Toy.

Inductive variant_t := NoVariant | StandardV | RandomV.

Record board_t := mkBoard { b_variant : variant_t; b_pos : nat }.

Definition variant_eqb (a b : variant_t) : bool :=
  match a, b with
  | NoVariant, NoVariant | StandardV, StandardV | RandomV, RandomV => true
  | _, _ => false
  end.

Definition variant_eqb_spec (a b : variant_t) : variant_eqb a b = true <-> a = b.
Proof. destruct a, b; simpl; split; intro H; try reflexivity; discriminate H. Defined.

Definition fromString (s : QString) : variant_t :=
  if QString_eqb s (qs "standard") then StandardV
  else if QString_eqb s (qs "random") then RandomV
  else NoVariant.

Definition toString (v : variant_t) : QString :=
  match v with
  | StandardV => qs "standard"
  | RandomV => qs "random"
  | NoVariant => []
  end.

Definition startFen (v : variant_t) : QString :=
  match v with
  | StandardV => qs "pp"
  | RandomV => qs "ppp"
  | NoVariant => qs "p"
  end.

Definition validFen (s : QString) : bool :=
  match s with
  | [] => false
  | _ :: _ => forallb (Ascii.eqb "p") s
  end.

Definition set_board (b : board_t) (fen : QString) : bool * board_t :=
  if validFen fen then (true, mkBoard (b_variant b) (List.length fen)) else (false, b).

Definition legal (b : board_t) (m : nat) : bool :=
  (1 <=? m) && (m <=? 3) && negb ((b_pos b + m) mod 4 =? 0).

#[export] Instance engine : RulesEngine := {
  Board := board_t;
  Move := nat;
  Variant := variant_t;
  Standard := StandardV;
  Variant_eqb := variant_eqb;
  Variant_eqb_spec := variant_eqb_spec;
  variantFromString := fromString;
  variantToString := toString;
  isNone := fun v => variant_eqb v NoVariant;
  isRandom := fun v => variant_eqb v RandomV;
  startingFen := startFen;
  newBoard := fun v => mkBoard v 0;
  boardVariant := b_variant;
  setVariant := fun b v => mkBoard v (b_pos b);
  setBoard := set_board;
  moveFromString := fun _ s => List.length s;
  isLegalMove := legal;
  makeMove := fun b m => mkBoard (b_variant b) (b_pos b + m);
  moveString := fun _ m => repeat "a"%char m;
  resultErrorString := qs "?"
}.

(** A stream opened without a variant, [read] behind it (the last
    character first) and [text] ahead. *)
Definition position (read text : QString) : PgnFile :=
  @mkPgnFile engine read text Ok (mkBoard StandardV 0) NoVariant.

(** A stream over [text], nothing read yet. *)
Definition stream (text : QString) : PgnFile := position [] text.

(** A record that has seen a tag and holds the moves [ms]. *)
Definition tagged (ms : list nat) : PgnGame :=
  @mkPgnGame engine [] [] ms (qs "pp") StandardV false NoResult true 0.

(** A finished game of the random variant: ten moves from the position
    "ppp". *)
Definition randomGame : PgnGame :=
  @mkPgnGame engine (qs "Al") (qs "Bo") [2; 1; 1; 2; 1; 1; 2; 1; 1; 2] (qs "ppp")
             RandomV true WhiteWins true 7.

(** The random game as it was played. *)
Definition playedGame : ChessGame :=
  @mkChessGame engine (ChessPlayer_setName (mkChessPlayer []) (qs "Al"))
               (ChessPlayer_setName (mkChessPlayer []) (qs "Bo"))
               [2; 1; 1; 2; 1; 1; 2; 1; 1; 2] (qs "ppp") RandomV true WhiteWins.

(** A finished standard game whose white player has a double quote in the
    name. *)
Definition quotedGame : PgnGame :=
  @mkPgnGame engine (qs "a" ++ [DQUOTE] ++ qs "b") (qs "Bo") [1; 2; 1] (qs "pp")
             StandardV false Draw true 0.

End Toy.

(** The engine [Toy.engine] but for [setVariant]: the board whose variant
    is set is emptied. *)
Module Clearing.

Import Toy.

Definition engine : RulesEngine := {|
  Board := board_t;
  Move := nat;
  Variant := variant_t;
  Standard := StandardV;
  Variant_eqb := variant_eqb;
  Variant_eqb_spec := variant_eqb_spec;
  variantFromString := fromString;
  variantToString := toString;
  isNone := fun v => variant_eqb v NoVariant;
  isRandom := fun v => variant_eqb v RandomV;
  startingFen := startFen;
  newBoard := fun v => mkBoard v 0;
  boardVariant := b_variant;
  setVariant := fun _ v => mkBoard v 0;
  setBoard := set_board;
  moveFromString := fun _ s => List.length s;
  isLegalMove := legal;
  makeMove := fun b m => mkBoard (b_variant b) (b_pos b + m);
  moveString := fun _ m => repeat "a"%char m;
  resultErrorString := qs "?"
|}.

(** A stream over [text], opened without a variant, nothing read yet. *)
Definition stream (text : QString) : @PgnFile engine :=
  @mkPgnFile engine [] text Ok (mkBoard StandardV 0) NoVariant.

End Clearing.


(** ** Vocabulary of the statements *)

Section Vocabulary.

Context {E : RulesEngine}.

(** What is left to read, counting the end-of-data read as one more. *)
Definition remaining (f : PgnFile) : nat :=
  List.length (rest f) + match status f with Ok => 1 | ReadPastEnd => 0 end.

(** [f'] is [f] read further: the same device, [pre] consumed. *)
Definition advances (f f' : PgnFile) : Prop :=
  exists pre, rest f = pre ++ rest f' /\ past f' = rev pre ++ past f
              /\ status f' = status f /\ board f' = board f /\ variant f' = variant f.

(** The board after the moves [ms] are made on [b] one after the other. *)
Fixpoint playMoves (b : Board) (ms : list Move) : Board :=
  match ms with
  | [] => b
  | m :: ms' => playMoves (makeMove b m) ms'
  end.

(** Every move of [ms] is legal on the board it is made on. *)
Fixpoint legalFrom (b : Board) (ms : list Move) : bool :=
  match ms with
  | [] => true
  | m :: ms' => isLegalMove b m && legalFrom (makeMove b m) ms'
  end.

(** [b] is a board on which the position string [fen] was loaded with
    [setBoard], with nothing done to it since but changes of variant. *)
Inductive installed (fen : QString) : Board -> Prop :=
| installed_set (b : Board) : installed fen (snd (setBoard b fen))
| installed_variant (b : Board) (v : Variant) :
    installed fen b -> installed fen (setVariant b v).

(** One pass of the loop of [readItem] that goes round again. *)
Definition passes (g : PgnGame) (s : Scan) (f : PgnFile) (s' : Scan) (f' : PgnFile) : Prop :=
  status f = Ok /\
  (body g s (fst (readChar f)) (snd (readChar f)) = Continue s' f'
   \/ body g s (fst (readChar f)) (snd (readChar f)) = Next s' f').

(** The loop, started with locals [s] at [f], comes to the head of a pass
    with locals [s'] at [f']. *)
Inductive reaches (g : PgnGame) (s : Scan) (f : PgnFile) : Scan -> PgnFile -> Prop :=
| reaches_here : reaches g s f s f
| reaches_pass s1 f1 s' f' :
    reaches g s f s1 f1 -> passes g s1 f1 s' f' -> reaches g s f s' f'.

(** The scanner of [readItem g f] comes to the head of a pass with locals
    [s] at [f']: a stream position the scanner observes. *)
Definition observes (g : PgnGame) (f : PgnFile) (s : Scan) (f' : PgnFile) : Prop :=
  reaches g scanStart (skipWhiteSpace f) s f'.

(** The four terminator strings and the result each one stands for. *)
Definition terminatorValue (text : QString) : option Result :=
  if QString_eqb text (qs "*") then Some NoResult
  else if QString_eqb text (qs "1/2-1/2") then Some Draw
  else if QString_eqb text (qs "1-0") then Some WhiteWins
  else if QString_eqb text (qs "0-1") then Some BlackWins
  else None.

(** The locals while no tag has been seen: nothing classified and no text
    yet, or inside the bracket of a tag. *)
Definition awaitingTag (s : Scan) : Prop :=
  (itemType s = PgnMove /\ str s = [] /\ openingBracket s = NUL)
  \/ (itemType s = PgnTag /\ openingBracket s = "["%char).

(** How the text after an opening bracket ends, in the spec's words: one
    bracket pair with a depth counter.  [Closed text r]: the depth came to
    zero, [text] is what lies between the brackets without the pair's own
    characters and [r] what follows the closing bracket; [CutAt text r]: a
    character on which the item stops came first; [Exhausted]: neither
    before the end of the data. *)
Inductive BracketEnd :=
| Closed (text r : QString)
| CutAt (text r : QString)
| Exhausted.

Definition withText (c : ascii) (e : BracketEnd) : BracketEnd :=
  match e with
  | Closed t r => Closed (c :: t) r
  | CutAt t r => CutAt (c :: t) r
  | Exhausted => Exhausted
  end.

Fixpoint bracketEnd (stop : ascii -> bool) (o cl : ascii) (depth : nat) (l : QString)
  : BracketEnd :=
  match l with
  | [] => Exhausted
  | c :: l' =>
      if stop c then CutAt [] l'
      else if Ascii.eqb c o then bracketEnd stop o cl (S depth) l'
      else if Ascii.eqb c cl then
        match depth with
        | S (S d) => bracketEnd stop o cl (S d) l'
        | _ => Closed [] l'
        end
      else withText c (bracketEnd stop o cl depth l')
  end.

Definition isNewline (c : ascii) : bool := Ascii.eqb c LF || Ascii.eqb c CR.

(** What stops a bracketed item short of its closing bracket: a line break
    for a tag, nothing for a comment. *)
Definition stopsItem (i : PgnItem) (c : ascii) : bool :=
  isNewline c && negb (PgnItem_eqb i PgnComment).

(** The record and the board agree: no position has been set and no move
    made, or the record's starting position was installed on some board
    [b0], the record's moves are legal from it one after the other, and
    playing them from [b0] gives the board [b]. *)
Definition replayed (g : PgnGame) (b : Board) : Prop :=
  (m_moves g = [] /\ m_fen g = [])
  \/ (m_fen g <> []
      /\ exists b0, installed (m_fen g) b0
                    /\ legalFrom b0 (m_moves g) = true
                    /\ b = playMoves b0 (m_moves g)).

(** A tag is only being read while the record holds no move. *)
Definition tagBeforeMoves (g : PgnGame) (s : Scan) : Prop :=
  itemType s = PgnTag -> m_moves g = [].

(** ** Text the scanner reads back as written *)

Definition opensBracket (c : ascii) : bool :=
  Ascii.eqb c "[" || Ascii.eqb c "(" || Ascii.eqb c "{".

(** A character that the loop appends to the text of a Move ([it] is
    [PgnMove]) or Move-Number item. *)
Definition plainChar (it : PgnItem) (c : ascii) : bool :=
  negb (isNull c) && negb (opensBracket c) && negb (isSpace c)
  && negb (PgnItem_eqb it PgnMoveNumber && Ascii.eqb c ".").

(** A character with which such an item can start. *)
Definition startsToken (it : PgnItem) (c : ascii) : bool :=
  plainChar it c
  && negb (Ascii.eqb c ";" || Ascii.eqb c "%" || Ascii.eqb c "." || Ascii.eqb c "$")
  && Bool.eqb (isDigit c) (PgnItem_eqb it PgnMoveNumber).

(** A character at which it ends. *)
Definition endsToken (it : PgnItem) (e : ascii) : bool :=
  isSpace e || (PgnItem_eqb it PgnMoveNumber && Ascii.eqb e ".").

(** Text that [readItem] takes for a move: it starts like one, holds no
    white space, null character or opening bracket, and is no terminator. *)
Definition moveToken (t : QString) : bool :=
  match t with
  | [] => false
  | c :: t' =>
      startsToken PgnMove c && forallb (plainChar PgnMove) t' && negb (isTerminator t)
  end.

(** A value that stays on the line of its tag and inside its brackets. *)
Definition lineSafe (v : QString) : bool :=
  forallb (fun c => negb (Ascii.eqb c "[" || Ascii.eqb c "]" || isNewline c)) v.

(** A value that a tag gives back: line-safe and without double quotes. *)
Definition tagSafe (v : QString) : bool :=
  lineSafe v && forallb (fun c => negb (Ascii.eqb c DQUOTE)) v.

(** What stands between the brackets of a written tag. *)
Definition tagBody (name value : QString) : QString :=
  name ++ " "%char :: DQUOTE :: value ++ [DQUOTE].

(** The builder's loop, with fuel enough, ends with the record [g'] and
    the log [lg']. *)
Definition builds (maxMoves : Z) (g : PgnGame) (f : PgnFile) (lg : list LogMsg)
  (g' : PgnGame) (lg' : list LogMsg) : Prop :=
  exists n f', buildLoop n maxMoves g f lg = Some (g', f', lg').

(** The board on which the writer replays the moves of [g]. *)
Definition startBoard (g : PgnGame) : Board :=
  snd (setBoard (newBoard (m_variant g)) (m_fen g)).

(** The engine writes every legal move as a move token that it reads back
    as that move. *)
Definition notationReadsBack : Prop :=
  forall (b : Board) (m : Move),
    isLegalMove b m = true ->
    moveToken (moveString b m) = true /\ moveFromString b (moveString b m) = m.

(** A record the text of which says all there is to it: names and
    position that keep to their tags, a result that is known, a variant
    whose name the engine reads back, a starting position that the engine
    loads on any board of the variant, moves that are legal from it, and a
    position that is written or set again by the first move. *)
Record faithful (g : PgnGame) : Prop := {
  white_safe : tagSafe (m_whitePlayer g) = true;
  black_safe : tagSafe (m_blackPlayer g) = true;
  result_known : m_result g <> ResultError;
  variant_named :
    m_variant g <> Standard ->
    tagSafe (variantToString (m_variant g)) = true
    /\ variantFromString (variantToString (m_variant g)) = m_variant g
    /\ isNone (m_variant g) = false;
  fen_safe : tagSafe (m_fen g) = true;
  fen_nonempty : m_fen g <> [];
  fen_loads :
    forall b, boardVariant b = m_variant g ->
              setBoard b (m_fen g) = (true, startBoard g);
  moves_legal : legalFrom (startBoard g) (m_moves g) = true;
  fen_recovered :
    m_moves g <> [] \/ isRandom (m_variant g) = true
    \/ m_fen g <> startingFen (m_variant g)
}.

(** The record a parse of the written text is to give: [g] itself but for
    the random-variant flag and the round, which the parser never sets. *)
Definition readBack (g : PgnGame) : PgnGame :=
  mkPgnGame (m_whitePlayer g) (m_blackPlayer g) (m_moves g) (m_fen g) (m_variant g)
            false (m_result g) true 0.

(** The record while the text of [g0] is read back: the moves [acc] so
    far, the position [fenP] so far. *)
Definition partial (g0 : PgnGame) (acc : list Move) (fenP : QString) : PgnGame :=
  mkPgnGame (m_whitePlayer g0) (m_blackPlayer g0) acc fenP (m_variant g0)
            false (m_result g0) true 0.

(** The text of [g0] after its tags, and what follows it in the stream. *)
Definition moveSection (g0 : PgnGame) (more : QString) : QString :=
  moveText 0 (startBoard g0) (m_moves g0)
  ++ Result_toString (m_result g0) ++ LF :: LF :: more.

(** ** The record's moves and its starting position *)

(** What the codec takes for granted of the rules engine.  The standard
    starting position of a variant is not the empty string, and a board
    of the variant loads it.  A board has the variant it was last set to,
    and a position that loads leaves the variant as it was.  A position
    that loads on a board loads on a fresh board of the same variant, and
    the board it gives is the same.  A board on which a position was
    loaded, once set to another variant, is the board which that position
    gives when it is loaded on a fresh board of the other variant. *)
Record lawful : Prop := {
  start_named : forall v : Variant, startingFen v <> [];
  start_loads :
    forall b : Board, fst (setBoard b (startingFen (boardVariant b))) = true;
  variant_set :
    forall (b : Board) (v : Variant), boardVariant (setVariant b v) = v;
  load_keeps_variant :
    forall (b b' : Board) (fen : QString),
      setBoard b fen = (true, b') -> boardVariant b' = boardVariant b;
  load_fresh :
    forall (b b' : Board) (fen : QString),
      setBoard b fen = (true, b') ->
      setBoard (newBoard (boardVariant b)) fen = (true, b');
  variant_after_load :
    forall (v v' : Variant) (fen : QString) (b : Board),
      setBoard (newBoard v) fen = (true, b) ->
      setBoard (newBoard v') fen = (true, setVariant b v')
}.

(** A stream that was opened with a variant has its board in that
    variant. *)
Definition boardOfVariant (f : PgnFile) : Prop :=
  isNone (variant f) = false -> boardVariant (board f) = variant f.

(** The record's starting position loads on a fresh board of the record's
    variant, the record's moves are legal from the board that gives, one
    after the other, and [b] is the board they lead to. *)
Definition playedFromStart (g : PgnGame) (b : Board) : Prop :=
  setBoard (newBoard (m_variant g)) (m_fen g) = (true, startBoard g)
  /\ legalFrom (startBoard g) (m_moves g) = true
  /\ b = playMoves (startBoard g) (m_moves g).

(** The record and the board while the tags are read: the board has the
    record's variant, and the record's starting position, once it has
    one, is loaded on it. *)
Definition tagsApplied (g : PgnGame) (b : Board) : Prop :=
  m_moves g = [] /\ boardVariant b = m_variant g
  /\ (m_fen g = [] \/ playedFromStart g b).

(** The record and the board once there are moves. *)
Definition movesApplied (g : PgnGame) (b : Board) : Prop :=
  m_moves g <> [] /\ m_fen g <> [] /\ playedFromStart g b.

(** The record and the board while a game is read. *)
Definition applied (g : PgnGame) (b : Board) : Prop :=
  tagsApplied g b \/ movesApplied g b.

(** ** Vocabulary of the further properties *)

(** [f'] is [f] read on: the same text and device, [pre] more of it
    consumed; the status and the board may differ. *)
Definition readOn (f f' : PgnFile) : Prop :=
  exists pre, rest f = pre ++ rest f' /\ past f' = rev pre ++ past f
              /\ variant f' = variant f.

(** The stream as the loop of [readItem] leaves it. *)
Definition streamOf (r : ScanEnd) : PgnFile :=
  match r with
  | Broke _ f' => f'
  | Returned _ f' _ => f'
  end.

(** The classifications the loop of [readItem] gives an item. *)
Definition scanType (i : PgnItem) : bool :=
  match i with
  | PgnMove | PgnMoveNumber | PgnTag | PgnComment | PgnNag => true
  | _ => false
  end.

(** The items that say nothing about the game. *)
Definition discarded (i : PgnItem) : bool :=
  match i with
  | PgnMoveNumber | PgnComment | PgnNag | PgnEmpty => true
  | _ => false
  end.

(** The messages logged where [readItem] returns an Error. *)
Definition fatal (m : LogMsg) : bool :=
  match m with
  | NoTerminationMarker | InvalidVariant _ | InvalidFen _ | NoTagsFound
  | IllegalMove _ | InvalidNag _ => true
  | _ => false
  end.

(** The messages logged where it goes on. *)
Definition warning (m : LogMsg) : bool :=
  match m with
  | MarkerDiffersFromTag | InvalidResult _ => true
  | _ => false
  end.

(** The names of the tags that [readItem] acts on. *)
Definition knownTag (name : QString) : bool :=
  QString_eqb name (qs "White") || QString_eqb name (qs "Black")
  || QString_eqb name (qs "Result") || QString_eqb name (qs "Variant")
  || QString_eqb name (qs "FEN").

(** The stream [f] with [pre] more of its text read and [r] ahead. *)
Definition readPast (f : PgnFile) (pre r : QString) : PgnFile :=
  mkPgnFile (rev pre ++ past f) r (status f) (board f) (variant f).

(** The pairs of brackets that hold a comment. *)
Definition commentPair (o cl : ascii) : Prop :=
  (o = "("%char /\ cl = ")"%char) \/ (o = "{"%char /\ cl = "}"%char).

(** The builder's loop, with fuel enough, ends with the record [g'], the
    log [lg'] and a stream of which [P] holds. *)
Definition buildsTo (maxMoves : Z) (g : PgnGame) (f : PgnFile) (lg : list LogMsg)
  (g' : PgnGame) (lg' : list LogMsg) (P : PgnFile -> Prop) : Prop :=
  exists n f', buildLoop n maxMoves g f lg = Some (g', f', lg') /\ P f'.

End Vocabulary.

(** * Properties *)

Set Implicit Arguments.

Section Properties.

Context {E : RulesEngine}.

(** ** Characters and strings *)

Lemma QString_eqb_eq (a b : QString) : QString_eqb a b = true <-> a = b.
Proof.
  revert b; induction a as [|x a IH]; intros [|y b]; simpl; split; intro H;
    try reflexivity; try discriminate.
  - apply andb_true_iff in H as [H1 H2]. apply Ascii.eqb_eq in H1.
    apply IH in H2. congruence.
  - injection H as -> ->. rewrite Ascii.eqb_refl. simpl. now apply IH.
Qed.

Lemma QString_eqb_refl (a : QString) : QString_eqb a a = true.
Proof. now apply QString_eqb_eq. Qed.

Lemma QString_eqb_neq (a b : QString) : QString_eqb a b = false <-> a <> b.
Proof.
  split; intro H.
  - intro Heq. apply QString_eqb_eq in Heq. congruence.
  - destruct (QString_eqb a b) eqn:Hab; [|reflexivity].
    apply QString_eqb_eq in Hab. contradiction.
Qed.

(** ** The stream *)

Lemma advances_refl (f : PgnFile) : advances f f.
Proof. exists []. repeat split. Qed.

Lemma advances_trans (f1 f2 f3 : PgnFile) :
  advances f1 f2 -> advances f2 f3 -> advances f1 f3.
Proof.
  intros (p1 & R1 & P1 & S1 & B1 & V1) (p2 & R2 & P2 & S2 & B2 & V2).
  exists (p1 ++ p2). repeat split; try congruence.
  - rewrite R1, R2. now rewrite app_assoc.
  - rewrite P2, P1, rev_app_distr. now rewrite app_assoc.
Qed.

Lemma advances_length (f f' : PgnFile) :
  advances f f' -> List.length (rest f') <= List.length (rest f).
Proof. intros (p & R & _). rewrite R, length_app. lia. Qed.

Lemma advances_remaining (f f' : PgnFile) :
  advances f f' -> remaining f' <= remaining f.
Proof.
  intros H. pose proof (advances_length H) as L.
  destruct H as (p & _ & _ & S & _). unfold remaining. rewrite S. lia.
Qed.

Lemma skipSpaces_spec (p r : QString) :
  exists pre, r = pre ++ snd (skipSpaces p r) /\ fst (skipSpaces p r) = rev pre ++ p
              /\ Forall (fun c => isSpace c = true) pre.
Proof.
  revert p; induction r as [|c r IH]; intro p; simpl.
  - exists []. repeat split. constructor.
  - destruct (isSpace c) eqn:Hc.
    + destruct (IH (c :: p)) as (pre & H1 & H2 & H3).
      exists (c :: pre). repeat split.
      * simpl. congruence.
      * rewrite H2. simpl. now rewrite <- app_assoc.
      * now constructor.
    + exists []. repeat split. constructor.
Qed.

Lemma skipWhiteSpace_advances (f : PgnFile) : advances f (skipWhiteSpace f).
Proof.
  unfold skipWhiteSpace. destruct (skipSpaces_spec (past f) (rest f)) as (pre & H1 & H2 & _).
  destruct (skipSpaces (past f) (rest f)) as [p r]. simpl in *.
  exists pre. repeat split; assumption.
Qed.

Lemma takeLine_spec (p r : QString) :
  exists pre, r = pre ++ snd (snd (takeLine p r))
              /\ fst (snd (takeLine p r)) = rev pre ++ p.
Proof.
  revert p; induction r as [|c r IH]; intro p; simpl.
  - exists []. now split.
  - destruct (Ascii.eqb c LF).
    + exists [c]. now split.
    + destruct (IH (c :: p)) as (pre & H1 & H2).
      destruct (takeLine (c :: p) r) as [l [p' r']]. simpl in *.
      exists (c :: pre). split.
      * simpl. congruence.
      * rewrite H2. simpl. now rewrite <- app_assoc.
Qed.

Lemma readLine_advances (f : PgnFile) : advances f (snd (readLine f)).
Proof.
  unfold readLine. destruct (takeLine_spec (past f) (rest f)) as (pre & H1 & H2).
  destruct (takeLine (past f) (rest f)) as [l [p r]]. simpl in *.
  exists pre. repeat split; assumption.
Qed.

Lemma readChar_remaining (f : PgnFile) :
  status f = Ok -> S (remaining (snd (readChar f))) = remaining f.
Proof.
  intro H. unfold readChar, remaining. rewrite H.
  destruct (rest f) as [|c r]; simpl; lia.
Qed.


Lemma readChar_board (f : PgnFile) :
  board (snd (readChar f)) = board f /\ variant (snd (readChar f)) = variant f.
Proof. unfold readChar. destruct (rest f); simpl; split; reflexivity. Qed.

Lemma readChar_cons (f : PgnFile) (c : ascii) (r : QString) :
  rest f = c :: r ->
  readChar f = (c, mkPgnFile (c :: past f) r (status f) (board f) (variant f)).
Proof. intro H. unfold readChar. now rewrite H. Qed.

Lemma rewind_readChar (f : PgnFile) (c : ascii) (r : QString) :
  rest f = c :: r -> rewindChar (snd (readChar f)) = f.
Proof.
  intro H. rewrite (readChar_cons f H). unfold rewindChar. simpl.
  destruct f; simpl in *. now subst.
Qed.

(** ** One pass of the loop *)

Ltac split_ifs :=
  repeat match goal with
         | |- context [if ?b then _ else _] => destruct b eqn:?
         | |- context [match m_moves ?g with _ => _ end] => destruct (m_moves g) eqn:?
         | |- context [match str ?s with _ => _ end] => destruct (str s) eqn:?
         | |- context [let '(_, _) := readLine ?f in _] =>
             pose proof (readLine_advances f); destruct (readLine f) eqn:?
         end.

(** Whatever way a pass ends, the stream has only moved forward on the same
    device; the only [return] is the one that rewinds at a [[]. *)
Lemma body_flow (g : PgnGame) (s : Scan) (c : ascii) (f : PgnFile) :
  match body g s c f with
  | Continue _ f' | Next _ f' | Break _ f' => advances f f'
  | Return i f' lg =>
      i = PgnError /\ f' = rewindChar f /\ lg = [NoTerminationMarker]
      /\ m_moves g <> [] /\ c = "["%char /\ isNull (openingBracket s) = true
  end.
Proof.
  unfold body, leading, opening, track.
  split_ifs; simpl in *;
    try apply advances_refl; try assumption;
    try apply skipWhiteSpace_advances; try apply readLine_advances.
  all: repeat split; try congruence; try (now apply Ascii.eqb_eq).
Qed.

(** ** The loop ends *)

Lemma scanLoop_total (fuel : nat) (g : PgnGame) (s : Scan) (f : PgnFile) :
  remaining f < fuel -> exists r, scanLoop fuel g s f = Some r.
Proof.
  revert s f; induction fuel as [|k IH]; intros s f Hlt; [lia|].
  simpl. destruct (status f) eqn:Hst; [|eauto].
  pose proof (readChar_remaining f Hst) as Hrc.
  destruct (readChar f) as [c f1]; simpl in Hrc.
  pose proof (body_flow g s c f1) as Hb.
  destruct (body g s c f1) as [s' f'|s' f'|i f' lg|s' f']; eauto;
    apply IH; apply advances_remaining in Hb; lia.
Qed.

Lemma scanLoop_more (n m : nat) (g : PgnGame) (s : Scan) (f : PgnFile) (r : ScanEnd) :
  scanLoop n g s f = Some r -> n <= m -> scanLoop m g s f = Some r.
Proof.
  revert m s f; induction n as [|k IH]; intros m s f H Hle; [discriminate|].
  destruct m as [|m]; [lia|]. simpl in *.
  destruct (status f); [|assumption].
  destruct (readChar f) as [c f1].
  destruct (body g s c f1); try assumption; apply IH; (assumption || lia).
Qed.

(** What the loop leaves: the board untouched, and, unless it returned from
    the rewind, strictly less to read. *)
Lemma scanLoop_end (fuel : nat) (g : PgnGame) (s : Scan) (f : PgnFile) (r : ScanEnd) :
  scanLoop fuel g s f = Some r ->
  match r with
  | Broke _ f' =>
      board f' = board f /\ variant f' = variant f
      /\ remaining f' <= remaining f
      /\ (status f = Ok -> remaining f' < remaining f)
  | Returned i f' lg =>
      i = PgnError /\ lg = [NoTerminationMarker] /\ m_moves g <> []
      /\ board f' = board f /\ variant f' = variant f
  end.
Proof.
  revert s f; induction fuel as [|k IH]; intros s f H; [discriminate|].
  simpl in H. destruct (status f) eqn:Hst.
  2:{ injection H as <-. repeat split; [lia | discriminate]. }
  pose proof (readChar_remaining f Hst) as Hrc.
  pose proof (readChar_board f) as [Hb Hv].
  destruct (readChar f) as [c f1] eqn:Hrd; simpl in *.
  pose proof (body_flow g s c f1) as Hfl.
  assert (Hgo : forall s' f', advances f1 f' -> scanLoop k g s' f' = Some r ->
    match r with
    | Broke _ f2 =>
        board f2 = board f /\ variant f2 = variant f
        /\ remaining f2 <= remaining f /\ (Ok = Ok -> remaining f2 < remaining f)
    | Returned i f2 lg =>
        i = PgnError /\ lg = [NoTerminationMarker] /\ m_moves g <> []
        /\ board f2 = board f /\ variant f2 = variant f
    end).
  { intros s' f' Ha H'. apply IH in H'. pose proof (advances_remaining Ha) as Hr.
    destruct Ha as (p & _ & _ & S' & B' & V').
    destruct r as [s2 f2|i f2 lg].
    - destruct H' as (H1 & H2 & H3 & H4). repeat split; try congruence; lia.
    - destruct H' as (H1 & H2 & H3 & H4 & H5). repeat split; congruence. }
  destruct (body g s c f1) as [s' f'|s' f'|i f' lg|s' f'].
  - eapply Hgo; eassumption.
  - injection H as <-. pose proof (advances_remaining Hfl) as Hr.
    destruct Hfl as (p & _ & _ & S' & B' & V').
    repeat split; try congruence; lia.
  - injection H as <-. destruct Hfl as (-> & -> & -> & Hm & -> & Hn).
    repeat split; try assumption;
      unfold rewindChar; destruct (past f1); simpl; congruence.
  - eapply Hgo; eassumption.
Qed.


Lemma scan_total (g : PgnGame) (f : PgnFile) : exists r, scan g f = Some r.
Proof.
  unfold scan. apply scanLoop_total. unfold remaining.
  destruct (status (skipWhiteSpace f)); lia.
Qed.

(** ** The item after the loop *)

Ltac split_interpret :=
  unfold interpret, interpretTag, applyTag, interpretMove, interpretNag, lazyFen;
  repeat match goal with
         | |- context [if ?b then _ else _] => destruct b eqn:?
         | |- context [match trimmed ?s with _ => _ end] => destruct (trimmed s) eqn:?
         | |- context [match itemType ?s with _ => _ end] => destruct (itemType s) eqn:?
         | |- context [match m_fen ?g with _ => _ end] => destruct (m_fen g) eqn:?
         | |- context [match toInt ?s with _ => _ end] => destruct (toInt s) eqn:?
         | |- context [let '(_, _) := setBoard ?b ?p in _] => destruct (setBoard b p) eqn:?
         end.

(** [interpret] reads nothing: only the board of the stream can change. *)
Lemma interpret_stream (g : PgnGame) (s : Scan) (f : PgnFile) :
  let '(_, _, f', _) := interpret g s f in
  rest f' = rest f /\ past f' = past f /\ status f' = status f /\ variant f' = variant f.
Proof. split_interpret; simpl; repeat split. Qed.

Lemma interpret_remaining (g : PgnGame) (s : Scan) (f : PgnFile) :
  remaining (snd (fst (interpret g s f))) = remaining f.
Proof.
  pose proof (interpret_stream g s f) as H.
  destruct (interpret g s f) as [[[i g'] f'] lg]. simpl.
  destruct H as (H1 & _ & H2 & _). unfold remaining. now rewrite H1, H2.
Qed.

(** ** [readItem] returns, and an item that is not an error has consumed
    something *)

Lemma readItem_total (g : PgnGame) (f : PgnFile) : exists r, readItem g f = Some r.
Proof.
  unfold readItem. destruct (scan_total g f) as [[s f'|i f' lg] ->]; eauto.
Qed.

Lemma readItem_progress (g : PgnGame) (f : PgnFile) (i : PgnItem) (g' : PgnGame)
  (f' : PgnFile) (lg : list LogMsg) :
  readItem g f = Some (i, g', f', lg) -> status f = Ok -> i <> PgnError ->
  remaining f' < remaining f.
Proof.
  unfold readItem, scan. intros H Hst Hi.
  destruct (scanLoop _ g scanStart (skipWhiteSpace f)) as [[s f1|i1 f1 lg1]|] eqn:Hs;
    [| |discriminate].
  - apply scanLoop_end in Hs. destruct Hs as (_ & _ & _ & Hs).
    pose proof (skipWhiteSpace_advances f) as Ha.
    pose proof (advances_remaining Ha) as Hr.
    destruct Ha as (_ & _ & _ & S' & _).
    pose proof (interpret_remaining g s f1) as Hi'.
    injection H as H. rewrite H in Hi'. simpl in Hi'.
    rewrite S', Hst in Hs. specialize (Hs eq_refl). lia.
  - apply scanLoop_end in Hs. destruct Hs as (-> & _).
    injection H as <- _ _ _. contradiction.
Qed.

(** ** The builder returns *)

Lemma buildLoop_total (fuel : nat) (maxMoves : Z) (g : PgnGame) (f : PgnFile)
  (lg : list LogMsg) :
  remaining f < fuel -> exists r, buildLoop fuel maxMoves g f lg = Some r.
Proof.
  revert g f lg; induction fuel as [|k IH]; intros g f lg Hlt; [lia|].
  simpl. destruct (status f) eqn:Hst; [|eauto].
  destruct (Z.of_nat (List.length (m_moves g)) <? maxMoves)%Z; [|eauto].
  destruct (readItem_total g f) as [[[[i g'] f'] l] Hr]. rewrite Hr.
  destruct i; eauto; apply IH;
    (assert (remaining f' < remaining f)
      by (eapply readItem_progress; [eassumption | assumption | discriminate]));
    unfold remaining in *; simpl; lia.
Qed.

Lemma PgnGame_read_total (f : PgnFile) (maxMoves : Z) :
  exists r, PgnGame_read f maxMoves = Some r.
Proof.
  unfold PgnGame_read, startGame.
  destruct (negb (isNone (variant f))); apply buildLoop_total;
    unfold remaining; simpl; destruct (status f); lia.
Qed.


(** ** The writer *)

(** C7.  A record whose [hasTags] flag is false is not written: the writer
    sends nothing to the destination, whose content stays as it was,
    whether or not it could have been opened. *)
Theorem write_untagged_is_noop (g : PgnGame) (date : QString) (opens : bool)
  (dest : QString) :
  m_hasTags g = false -> write g date opens dest = dest.
Proof. intro H. unfold write. now rewrite H. Qed.

Lemma write_tagged (g : PgnGame) (date dest : QString) :
  m_hasTags g = true -> write g date true dest = dest ++ pgnText g date.
Proof. intro H. unfold write. now rewrite H. Qed.

Lemma Variant_eqb_false (a b : Variant) : Variant_eqb a b = false <-> a <> b.
Proof.
  split; intro H.
  - intro Heq. apply Variant_eqb_spec in Heq. congruence.
  - destruct (Variant_eqb a b) eqn:Hab; [|reflexivity].
    apply Variant_eqb_spec in Hab. contradiction.
Qed.

Lemma write_text (g : PgnGame) (date dest : QString) :
  m_hasTags g = true ->
  write g date true dest
  = dest ++ tagLine (qs "Date", date) ++ tagLine (qs "White", m_whitePlayer g)
         ++ tagLine (qs "Black", m_blackPlayer g)
         ++ tagLine (qs "Result", toSimpleString (m_result g))
         ++ (if negb (Variant_eqb (m_variant g) Standard)
             then tagLine (qs "Variant", variantToString (m_variant g)) else [])
         ++ (if isRandom (m_variant g)
                || negb (QString_eqb (m_fen g) (startingFen (m_variant g)))
             then tagLine (qs "FEN", m_fen g) else [])
         ++ moveText 0 (startBoard g) (m_moves g)
         ++ Result_toString (m_result g) ++ [LF; LF].
Proof.
  intro Ht. rewrite (write_tagged g date dest Ht).
  unfold pgnText, writtenTags, startBoard. f_equal.
  rewrite !map_app, !concat_app.
  destruct (negb (Variant_eqb (m_variant g) Standard));
    destruct (isRandom (m_variant g)
              || negb (QString_eqb (m_fen g) (startingFen (m_variant g))));
    cbn [map List.concat]; rewrite ?app_nil_r; rewrite <- ?app_assoc; reflexivity.
Qed.

Lemma written_tag_names (g : PgnGame) (date : QString) :
  let names := map fst (writtenTags g date) in
  (In (qs "Variant") names <-> m_variant g <> Standard)
  /\ (In (qs "FEN") names <->
      (isRandom (m_variant g) = true \/ m_fen g <> startingFen (m_variant g)))
  /\ (isRandom (m_variant g) = true -> In (qs "FEN") names)
  /\ (isRandom Standard = false -> m_variant g = Standard ->
      m_fen g = startingFen Standard ->
      names = [qs "Date"; qs "White"; qs "Black"; qs "Result"]).
Proof.
  assert (Hnames : map fst (writtenTags g date)
                   = [qs "Date"; qs "White"; qs "Black"; qs "Result"]
                     ++ (if negb (Variant_eqb (m_variant g) Standard)
                         then [qs "Variant"] else [])
                     ++ (if isRandom (m_variant g)
                            || negb (QString_eqb (m_fen g) (startingFen (m_variant g)))
                         then [qs "FEN"] else [])).
  { unfold writtenTags. rewrite !map_app.
    destruct (negb (Variant_eqb (m_variant g) Standard));
      destruct (isRandom (m_variant g)
                || negb (QString_eqb (m_fen g) (startingFen (m_variant g))));
      reflexivity. }
  cbn zeta. rewrite Hnames. clear Hnames.
  assert (Hv : negb (Variant_eqb (m_variant g) Standard) = true <-> m_variant g <> Standard).
  { rewrite negb_true_iff. apply Variant_eqb_false. }
  assert (Hf : isRandom (m_variant g)
               || negb (QString_eqb (m_fen g) (startingFen (m_variant g))) = true
               <-> (isRandom (m_variant g) = true
                    \/ m_fen g <> startingFen (m_variant g))).
  { rewrite orb_true_iff, negb_true_iff, QString_eqb_neq. reflexivity. }
  destruct (negb (Variant_eqb (m_variant g) Standard)) eqn:Bv;
    destruct (isRandom (m_variant g)
              || negb (QString_eqb (m_fen g) (startingFen (m_variant g)))) eqn:Bf;
    cbn [app In].
  all: repeat apply conj.
  all: try (intro H; repeat (destruct H as [H|H]; try discriminate H);
            try contradiction; tauto).
  all: try (intro H; try (apply Hv in H; discriminate H);
            try (apply Hf in H; discriminate H); tauto).
  all: try (intros Hr; assert (Hx : false = true) by (apply Hf; now left);
            discriminate Hx).
  all: try (intros _ Hs _; exfalso; now apply Hv).
  all: try (intros Hr Hs He; exfalso;
            assert (Hx : isRandom (m_variant g) = true
                         \/ m_fen g <> startingFen (m_variant g)) by (now apply Hf);
            rewrite Hs in Hx; destruct Hx as [Hx|Hx]; [congruence | contradiction]).
  all: try (intros; reflexivity).
Qed.

(** C8.  What a record that has tags is written as: the lines of the
    [Date], [White], [Black] and [Result] tags, then the line
    [[Variant DQUOTE name DQUOTE]] exactly when the variant is not the
    standard one and nothing in its place otherwise, then the line
    [[FEN DQUOTE position DQUOTE]] exactly when the variant is random or
    the starting position is not the variant's own and nothing in its
    place otherwise, then the moves and the result.  So a random variant
    always has its [FEN] line, and a standard record at the standard
    position (the standard variant not being random) has neither line.
    The same holds of the names of the tags the writer goes through. *)
Theorem write_optional_tags (g : PgnGame) (date dest : QString) :
  let line := fun name value : QString =>
                qs "[" ++ name ++ qs " " ++ [DQUOTE] ++ value ++ [DQUOTE] ++ qs "]" ++ [LF] in
  let names := map fst (writtenTags g date) in
  (m_hasTags g = true ->
   exists variantTag fenTag : QString,
     write g date true dest
     = dest ++ line (qs "Date") date ++ line (qs "White") (m_whitePlayer g)
            ++ line (qs "Black") (m_blackPlayer g)
            ++ line (qs "Result") (toSimpleString (m_result g))
            ++ variantTag ++ fenTag
            ++ moveText 0 (startBoard g) (m_moves g)
            ++ Result_toString (m_result g) ++ [LF; LF]
     /\ (m_variant g <> Standard ->
         variantTag = line (qs "Variant") (variantToString (m_variant g)))
     /\ (m_variant g = Standard -> variantTag = [])
     /\ (isRandom (m_variant g) = true \/ m_fen g <> startingFen (m_variant g) ->
         fenTag = line (qs "FEN") (m_fen g))
     /\ (isRandom (m_variant g) = false -> m_fen g = startingFen (m_variant g) ->
         fenTag = [])
     /\ (isRandom Standard = false -> m_variant g = Standard ->
         m_fen g = startingFen Standard -> variantTag = [] /\ fenTag = []))
  /\ (In (qs "Variant") names <-> m_variant g <> Standard)
  /\ (In (qs "FEN") names <->
      (isRandom (m_variant g) = true \/ m_fen g <> startingFen (m_variant g)))
  /\ (isRandom (m_variant g) = true -> In (qs "FEN") names)
  /\ (isRandom Standard = false -> m_variant g = Standard ->
      m_fen g = startingFen Standard ->
      names = [qs "Date"; qs "White"; qs "Black"; qs "Result"]).
Proof.
  cbn zeta. split; [|exact (written_tag_names g date)].
  intro Ht. rewrite (write_text g date dest Ht).
  assert (Hv : negb (Variant_eqb (m_variant g) Standard) = true <-> m_variant g <> Standard).
  { rewrite negb_true_iff. apply Variant_eqb_false. }
  assert (Hf : isRandom (m_variant g)
               || negb (QString_eqb (m_fen g) (startingFen (m_variant g))) = true
               <-> (isRandom (m_variant g) = true
                    \/ m_fen g <> startingFen (m_variant g))).
  { rewrite orb_true_iff, negb_true_iff, QString_eqb_neq. reflexivity. }
  unfold tagLine. cbn [fst snd].
  eexists _, _. split; [reflexivity|].
  destruct (negb (Variant_eqb (m_variant g) Standard)) eqn:Bv;
      destruct (isRandom (m_variant g)
                || negb (QString_eqb (m_fen g) (startingFen (m_variant g)))) eqn:Bf.
    all: repeat apply conj; try (intros; reflexivity); try (intros; now split).
    all: try (intro H; exfalso; apply Hv in H; discriminate H).
    all: try (intro H; exfalso; apply Hf in H; discriminate H).
    all: try (intro H; exfalso; now apply Hv).
    all: try (intros Hr He; exfalso;
              assert (Hx : isRandom (m_variant g) = true
                           \/ m_fen g <> startingFen (m_variant g)) by (now apply Hf);
              destruct Hx as [Hx|Hx]; [congruence | contradiction]).
    all: try (intros _ Hs _; exfalso; now apply Hv).
    all: try (intros Hr Hs He; exfalso;
              assert (Hx : isRandom (m_variant g) = true
                           \/ m_fen g <> startingFen (m_variant g)) by (now apply Hf);
              rewrite Hs in Hx; destruct Hx as [Hx|Hx]; [congruence | contradiction]).
Qed.

(** ** Terminators *)

Lemma terminatorValue_some (text : QString) (r : Result) :
  terminatorValue text = Some r ->
  isTerminator text = true /\ Result_fromString text = r /\ text <> [].
Proof.
  unfold terminatorValue, isTerminator, Result_fromString.
  destruct (QString_eqb text (qs "*")) eqn:H1.
  { apply QString_eqb_eq in H1. subst. intro H. injection H as <-. now repeat split. }
  destruct (QString_eqb text (qs "1/2-1/2")) eqn:H2.
  { apply QString_eqb_eq in H2. subst. intro H. injection H as <-. now repeat split. }
  destruct (QString_eqb text (qs "1-0")) eqn:H3.
  { apply QString_eqb_eq in H3. subst. intro H. injection H as <-. now repeat split. }
  destruct (QString_eqb text (qs "0-1")) eqn:H4.
  { apply QString_eqb_eq in H4. subst. intro H. injection H as <-. now repeat split. }
  discriminate.
Qed.

(** C4.  When the loop of [readItem] ends on a Move or Move-Number item
    whose trimmed text is one of the four terminator strings, the item
    returned is a Result, and the record's result becomes the value the
    string stands for, whatever a Result tag had set before; a difference
    from the earlier value is logged and is no error: the builder ends the
    game there with that result. *)
Theorem terminator_sets_result (g : PgnGame) (f f1 : PgnFile) (s : Scan) (r : Result) :
  scan g f = Some (Broke s f1) ->
  itemType s = PgnMove \/ itemType s = PgnMoveNumber ->
  terminatorValue (trimmed (str s)) = Some r ->
  let lg := if Result_eqb r (m_result g) then [] else [MarkerDiffersFromTag] in
  readItem g f = Some (PgnResult, set_result g r, f1, lg)
  /\ m_result (set_result g r) = r
  /\ (forall k maxMoves lg0,
        status f = Ok -> (Z.of_nat (List.length (m_moves g)) < maxMoves)%Z ->
        buildLoop (S k) maxMoves g f lg0 = Some (set_result g r, f1, lg0 ++ lg)).
Proof.
  intros Hs Hi Ht. apply terminatorValue_some in Ht as (Hterm & Hr & Hne).
  assert (Hread : readItem g f
                  = Some (PgnResult, set_result g r, f1,
                          if Result_eqb r (m_result g) then [] else [MarkerDiffersFromTag])).
  { unfold readItem. rewrite Hs. unfold interpret.
    destruct (trimmed (str s)) as [|c t] eqn:Htx; [contradiction|].
    assert (Hm : PgnItem_eqb (itemType s) PgnMove || PgnItem_eqb (itemType s) PgnMoveNumber
                 = true) by (destruct Hi as [-> | ->]; reflexivity).
    rewrite Hm, Hterm. simpl. now rewrite Hr. }
  cbn zeta. repeat split; [exact Hread|].
  intros k maxMoves lg0 Hst Hlt. simpl. rewrite Hst.
  apply Z.ltb_lt in Hlt. rewrite Hlt, Hread. reflexivity.
Qed.

(** ** Numeric annotation glyphs *)


(** ** Before the first tag *)

Lemma body_untagged (g : PgnGame) (s : Scan) (c : ascii) (f : PgnFile) :
  m_hasTags g = false -> awaitingTag s ->
  match body g s c f with
  | Continue s' _ | Break s' _ | Next s' _ => awaitingTag s'
  | Return _ _ _ => True
  end.
Proof.
  intros Hg [(Hi & Hs & Ho) | (Hi & Ho)]; unfold body, leading, opening, track;
    rewrite Hg, Hi, Ho; try rewrite Hs; cbn [negb andb PgnItem_eqb isNull].
  - destruct (Ascii.eqb c "[") eqn:Hc.
    + apply Ascii.eqb_eq in Hc. subst c. cbn.
      destruct (m_moves g); [|exact I]. cbn. right. split; reflexivity.
    + cbn. left. repeat split; assumption.
  - change (Ascii.eqb "[" NUL) with false. cbn [orb andb negb].
    rewrite !andb_false_r. cbn.
    repeat match goal with
           | |- context [if ?b then _ else _] => destruct b eqn:?
           end; right; split; assumption.
Qed.

Lemma scanLoop_untagged (fuel : nat) (g : PgnGame) (s : Scan) (f : PgnFile)
  (s' : Scan) (f' : PgnFile) :
  m_hasTags g = false -> awaitingTag s ->
  scanLoop fuel g s f = Some (Broke s' f') -> awaitingTag s'.
Proof.
  intro Hg. revert s f; induction fuel as [|k IH]; intros s f Hs H; [discriminate|].
  simpl in H. destruct (status f); [|now injection H as <- _].
  destruct (readChar f) as [c f1].
  pose proof (body_untagged g c f1 Hg Hs) as Hb.
  destruct (body g s c f1); try discriminate; eauto.
  now injection H as <- _.
Qed.

Lemma interpret_untagged (g : PgnGame) (s : Scan) (f : PgnFile) :
  awaitingTag s ->
  let '(i, _, _, lg) := interpret g s f in
  (i = PgnTag \/ i = PgnEmpty \/ i = PgnError)
  /\ ~ In NoTagsFound lg
  /\ (i = PgnError -> (exists p, lg = [InvalidVariant p]) \/ (exists p, lg = [InvalidFen p])).
Proof.
  intros [(Hi & Hs & Ho) | (Hi & Ho)].
  - unfold interpret. rewrite Hs. cbn. repeat split; auto. discriminate.
  - unfold interpret, interpretTag, applyTag. rewrite Hi. cbn [PgnItem_eqb orb andb].
    repeat match goal with
           | |- context [if ?b then _ else _] => destruct b eqn:?
           | |- context [match trimmed ?s with _ => _ end] => destruct (trimmed s) eqn:?
           | |- context [let '(_, _) := setBoard ?b ?p in _] => destruct (setBoard b p) eqn:?
           end; cbn; repeat split; auto; try discriminate;
      try (intros [H|H]; [discriminate H | exact H]); eauto.
Qed.

Lemma interpret_tagged_log (g : PgnGame) (s : Scan) (f : PgnFile) :
  m_hasTags g = true -> ~ In NoTagsFound (snd (interpret g s f)).
Proof.
  intro Hg. unfold interpret, interpretTag, applyTag, interpretMove, interpretNag. rewrite Hg.
  cbn [negb].
  repeat match goal with
         | |- context [if ?b then _ else _] => destruct b eqn:?
         | |- context [match trimmed ?s with _ => _ end] => destruct (trimmed s) eqn:?
         | |- context [match itemType ?s with _ => _ end] => destruct (itemType s) eqn:?
         | |- context [match toInt ?s with _ => _ end] => destruct (toInt s) eqn:?
         | |- context [let '(_, _) := setBoard ?b ?p in _] => destruct (setBoard b p) eqn:?
         | |- context [let '(_, _) := lazyFen ?g ?f in _] => destruct (lazyFen g f) eqn:?
         end; cbn; intuition discriminate.
Qed.

(** C10.  While [hasTags] is false a character other than [[] is skipped
    with the locals as they were, unless a tag is being read; so
    [readItem] returns a Tag, an Empty or an Error item, the error being
    the rewind at a [[] or a bad Variant or FEN tag, never a Move.  And
    whatever the record, no call of [readItem] logs "No tags found":
    that branch of the move handler is never taken. *)
Theorem no_move_before_first_tag :
  (forall g s c f, m_hasTags g = false -> itemType s <> PgnTag -> c <> "["%char ->
     body g s c f = Continue s f)
  /\ (forall g f, m_hasTags g = false ->
        exists i g' f' lg, readItem g f = Some (i, g', f', lg)
          /\ (i = PgnTag \/ i = PgnEmpty \/ i = PgnError)
          /\ (i = PgnError -> lg = [NoTerminationMarker]
                              \/ (exists p, lg = [InvalidVariant p])
                              \/ (exists p, lg = [InvalidFen p])))
  /\ (forall g f i g' f' lg, readItem g f = Some (i, g', f', lg) -> ~ In NoTagsFound lg).
Proof.
  assert (Hun : forall g f, m_hasTags g = false ->
        exists i g' f' lg, readItem g f = Some (i, g', f', lg)
          /\ (i = PgnTag \/ i = PgnEmpty \/ i = PgnError)
          /\ ~ In NoTagsFound lg
          /\ (i = PgnError -> lg = [NoTerminationMarker]
                              \/ (exists p, lg = [InvalidVariant p])
                              \/ (exists p, lg = [InvalidFen p]))).
  { intros g f Hg. unfold readItem.
    destruct (scan_total g f) as [[s f1|i f1 lg] Hs]; rewrite Hs.
    - unfold scan in Hs.
      assert (Ha : awaitingTag s).
      { eapply scanLoop_untagged; [exact Hg | | exact Hs]. left. now repeat split. }
      pose proof (interpret_untagged g f1 Ha) as Hi.
      destruct (interpret g s f1) as [[[i g'] f'] lg].
      destruct Hi as (H1 & H2 & H3). exists i, g', f', lg. repeat split; auto.
    - unfold scan in Hs. apply scanLoop_end in Hs as (-> & -> & _).
      exists PgnError, g, f1, [NoTerminationMarker]. repeat split; auto.
      intros [H|[]]. discriminate H. }
  split; [|split].
  - intros g s c f Hg Hi Hc. unfold body. rewrite Hg.
    destruct (PgnItem_eqb (itemType s) PgnTag) eqn:Ht.
    { destruct (itemType s); try discriminate Ht. contradiction. }
    destruct (Ascii.eqb c "[") eqn:Hb; [apply Ascii.eqb_eq in Hb; contradiction|].
    reflexivity.
  - intros g f Hg. destruct (Hun g f Hg) as (i & g' & f' & lg & H1 & H2 & _ & H3).
    exists i, g', f', lg. auto.
  - intros g f i g' f' lg Hr. destruct (m_hasTags g) eqn:Hg.
    + unfold readItem in Hr.
      destruct (scan g f) as [[s f1|i1 f1 lg1]|] eqn:Hs; [| |discriminate].
      * pose proof (interpret_tagged_log g s f1 Hg) as Hl.
        injection Hr as Hr. rewrite Hr in Hl. exact Hl.
      * unfold scan in Hs. apply scanLoop_end in Hs as (_ & -> & _).
        injection Hr as _ _ _ <-. intros [H|[]]. discriminate H.
    + destruct (Hun g f Hg) as (i0 & g0 & f0 & lg0 & H1 & _ & H2 & _).
      rewrite H1 in Hr. injection Hr as _ _ _ <-. exact H2.
Qed.

(** ** Stream positions the scanner comes to *)

Lemma reaches_scanLoop (g : PgnGame) (s : Scan) (f : PgnFile) (s1 : Scan) (f1 : PgnFile)
  (n : nat) (r : ScanEnd) :
  reaches g s f s1 f1 -> scanLoop n g s f = Some r ->
  exists m, scanLoop m g s1 f1 = Some r.
Proof.
  induction 1 as [|s1 f1 s2 f2 _ IH [Hst Hb]]; intro Hn; [eauto|].
  destruct (IH Hn) as [[|m] Hm]; [discriminate|].
  exists m. simpl in Hm. rewrite Hst in Hm.
  destruct (readChar f1) as [c f1']. simpl in Hb.
  destruct Hb as [Hb|Hb]; rewrite Hb in Hm; exact Hm.
Qed.

Lemma reaches_front (g : PgnGame) (s : Scan) (f : PgnFile) (s1 : Scan) (f1 : PgnFile)
  (s' : Scan) (f' : PgnFile) :
  passes g s f s1 f1 -> reaches g s1 f1 s' f' -> reaches g s f s' f'.
Proof.
  intros Hp Hr. induction Hr as [|s2 f2 s3 f3 _ IH Hp'].
  - eapply reaches_pass; [apply reaches_here | exact Hp].
  - eapply reaches_pass; [exact IH | exact Hp'].
Qed.

(** The scan of [readItem g f] ends as the loop continued from any
    position it comes to ends. *)
Lemma observes_scan (g : PgnGame) (f : PgnFile) (s : Scan) (f1 : PgnFile) (k : nat)
  (r : ScanEnd) :
  observes g f s f1 -> scanLoop (S k) g s f1 = Some r -> scan g f = Some r.
Proof.
  intros Hobs Hk. destruct (scan_total g f) as [r' Hr'].
  unfold scan in *. destruct (@reaches_scanLoop _ _ _ _ _ _ _ Hobs Hr') as [m Hm].
  destruct (Nat.le_ge_cases m (S k)) as [Hle|Hle].
  - pose proof (@scanLoop_more _ _ _ _ _ _ Hm Hle) as H'. congruence.
  - pose proof (@scanLoop_more _ _ _ _ _ _ Hk Hle) as H'. congruence.
Qed.

(** C3 (as amended).  Wherever the scanner reads a [[] with no bracket
    open while the record holds a move, it rewinds the stream by the one
    character just read, so that the stream is where it was before the
    [[], and [readItem] returns an Error with the record untouched; the
    builder stops the game there. *)
Theorem tag_after_moves_rewinds (g : PgnGame) (f f1 : PgnFile) (s : Scan) (r : QString) :
  m_moves g <> [] ->
  observes g f s f1 -> status f1 = Ok -> rest f1 = "["%char :: r ->
  isNull (openingBracket s) = true ->
  readItem g f = Some (PgnError, g, rewindChar (snd (readChar f1)), [NoTerminationMarker])
  /\ rewindChar (snd (readChar f1)) = f1
  /\ forall k maxMoves lg,
       status f = Ok -> (Z.of_nat (List.length (m_moves g)) < maxMoves)%Z ->
       buildLoop (S k) maxMoves g f lg
       = Some (g, f1, lg ++ [NoTerminationMarker; PgnErrorOnLine]).
Proof.
  intros Hm Hobs Hst Hrest Hnull.
  assert (Hone : scanLoop 1 g s f1
                 = Some (Returned PgnError (rewindChar (snd (readChar f1)))
                                  [NoTerminationMarker])).
  { simpl. rewrite Hst, (readChar_cons _ Hrest). cbn [snd].
    unfold body. rewrite Hnull. cbn [Ascii.eqb].
    change (Ascii.eqb "[" "[") with true. change (Ascii.eqb "[" LF) with false.
    change (Ascii.eqb "[" CR) with false. rewrite andb_false_r. cbn [orb andb].
    unfold leading. destruct (str s) as [|c0 t].
    - cbn. unfold opening. cbn. destruct (m_moves g); [contradiction|]. reflexivity.
    - unfold opening. cbn. destruct (m_moves g); [contradiction|]. reflexivity. }
  assert (Hread : readItem g f
                  = Some (PgnError, g, rewindChar (snd (readChar f1)), [NoTerminationMarker])).
  { unfold readItem. rewrite (observes_scan 0 Hobs Hone). reflexivity. }
  pose proof (rewind_readChar _ Hrest) as Hrw.
  repeat split; [exact Hread | exact Hrw |].
  intros k maxMoves lg Hf Hlt. simpl. rewrite Hf.
  apply Z.ltb_lt in Hlt. rewrite Hlt, Hread, Hrw. reflexivity.
Qed.

(** ** Bracketed items *)

(** The loop inside a bracket does what [bracketEnd] says: the depth goes
    up at the opening character and down at the closing one, the loop
    breaks where it comes to zero, and every other character is text. *)
Lemma scanLoop_bracket (g : PgnGame) (it : PgnItem) (o cl : ascii) (l : QString) :
  it = PgnComment /\ m_hasTags g = true \/ it = PgnTag ->
  Ascii.eqb o cl = false -> isNull o = false -> isNull cl = false ->
  forall (depth : nat) (t0 : QString) (f : PgnFile) (fuel : nat),
    rest f = l -> status f = Ok -> List.length l + 2 <= fuel ->
    exists s' f',
      scanLoop fuel g (mkScan it o cl (Z.of_nat (S depth)) t0) f = Some (Broke s' f')
      /\ itemType s' = it
      /\ match bracketEnd (stopsItem it) o cl (S depth) l with
         | Closed text r => str s' = t0 ++ text /\ rest f' = r /\ status f' = Ok
         | CutAt text r => str s' = t0 ++ text /\ rest f' = r /\ status f' = Ok
         | Exhausted => rest f' = [] /\ status f' = ReadPastEnd
         end.
Proof.
  intros Hit Hocl Ho Hcl.
  assert (H61 : forall c, negb (m_hasTags g) && negb (PgnItem_eqb it PgnTag)
                          && negb (Ascii.eqb c "[") = false).
  { intro c. destruct Hit as [[-> ->] | ->]; [reflexivity|]. cbn.
    now rewrite andb_false_r. }
  assert (Hnot : PgnItem_eqb it PgnMove = false /\ PgnItem_eqb it PgnMoveNumber = false
                 /\ PgnItem_eqb it PgnNag = false).
  { destruct Hit as [[-> _] | ->]; now repeat split. }
  destruct Hnot as (Hn1 & Hn2 & Hn3).
  induction l as [|c l IH]; intros depth t0 f fuel Hrest Hst Hfuel.
  - destruct fuel as [|[|fuel]]; simpl in Hfuel; try lia.
    cbn [scanLoop]. rewrite Hst. unfold readChar. rewrite Hrest.
    unfold body. cbn [itemType openingBracket closingBracket]. rewrite H61.
    change (Ascii.eqb NUL LF) with false. change (Ascii.eqb NUL CR) with false.
    cbn [orb andb]. rewrite Ho. unfold track.
    cbn [itemType openingBracket closingBracket bracketLevel str].
    replace (Ascii.eqb NUL o) with false
      by (symmetry; rewrite Ascii.eqb_sym; exact Ho).
    replace (Ascii.eqb NUL cl) with false
      by (symmetry; rewrite Ascii.eqb_sym; exact Hcl).
    rewrite Hn1, Hn2, Hn3. cbn [andb].
    eexists _, _. split; [reflexivity|]. cbn. repeat split.
  - destruct fuel as [|fuel]; simpl in Hfuel; try lia.
    cbn [scanLoop]. rewrite Hst, (readChar_cons _ Hrest).
    unfold body. cbn [itemType openingBracket closingBracket]. rewrite H61, Ho.
    cbn [bracketEnd]. unfold stopsItem at 1, isNewline.
    destruct ((Ascii.eqb c LF || Ascii.eqb c CR) && negb (PgnItem_eqb it PgnComment))
      eqn:Hstop.
    { eexists _, _. split; [reflexivity|]. cbn. rewrite app_nil_r. now repeat split. }
    unfold track. cbn [itemType openingBracket closingBracket bracketLevel str].
    set (f1 := mkPgnFile (c :: past f) l (status f) (board f) (variant f)).
    assert (Hf1 : rest f1 = l /\ status f1 = Ok) by (split; [reflexivity | exact Hst]).
    destruct Hf1 as [Hr1 Hs1].
    destruct (Ascii.eqb c o) eqn:Hco.
    { unfold set_level. cbn [itemType openingBracket closingBracket bracketLevel str].
      replace (Z.of_nat (S depth) + 1)%Z with (Z.of_nat (S (S depth))) by lia.
      apply IH; [exact Hr1 | exact Hs1 | lia]. }
    destruct (Ascii.eqb c cl) eqn:Hccl.
    { unfold set_level. cbn [itemType openingBracket closingBracket bracketLevel str].
      destruct depth as [|d].
      - cbn [Z.of_nat]. change (Z.pos (Pos.of_succ_nat 0) - 1 <=? 0)%Z with true.
        cbn iota. eexists _, _. split; [reflexivity|]. cbn.
        rewrite app_nil_r. now repeat split.
      - replace (Z.of_nat (S (S d)) - 1)%Z with (Z.of_nat (S d)) by lia.
        destruct (Z.leb_spec (Z.of_nat (S d)) 0); [lia|].
        apply IH; [exact Hr1 | exact Hs1 | lia]. }
    rewrite Hn1, Hn2, Hn3. cbn [andb].
    unfold set_str. cbn [itemType openingBracket closingBracket bracketLevel str].
    destruct (IH depth (t0 ++ [c]) f1 fuel Hr1 Hs1 ltac:(lia)) as (s' & f' & H1 & H2 & H3).
    exists s', f'. split; [exact H1|]. split; [exact H2|].
    destruct (bracketEnd (stopsItem it) o cl (S depth) l); cbn [withText];
      try rewrite <- app_assoc in H3; exact H3.
Qed.

Lemma bracketEnd_ext (stop1 stop2 : ascii -> bool) (o cl : ascii) (l : QString) :
  (forall c, stop1 c = stop2 c) ->
  forall d, bracketEnd stop1 o cl d l = bracketEnd stop2 o cl d l.
Proof.
  intro H. induction l as [|c l IH]; intro d; [reflexivity|].
  cbn [bracketEnd]. rewrite H.
  destruct (stop2 c); [reflexivity|].
  destruct (Ascii.eqb c o); [apply IH|].
  destruct (Ascii.eqb c cl); [destruct d as [|[|d]]; try reflexivity; apply IH|].
  now rewrite IH.
Qed.

Lemma bracketEnd_never_cut (o cl : ascii) (l : QString) (d : nat) (t r : QString) :
  bracketEnd (fun _ => false) o cl d l <> CutAt t r.
Proof.
  revert d t r. induction l as [|c l IH]; intros d t r Hb; [discriminate|].
  cbn [bracketEnd] in Hb.
  destruct (Ascii.eqb c o); [eapply IH; eassumption|].
  destruct (Ascii.eqb c cl).
  - destruct d as [|[|d]]; try discriminate; eapply IH; eassumption.
  - destruct (bracketEnd (fun _ => false) o cl d l) eqn:Hd; try discriminate.
    eapply IH; eassumption.
Qed.

(** The first pass at an opening bracket: the item is classified and the
    depth is one. *)
Lemma scan_opens_bracket (g : PgnGame) (f : PgnFile) (it : PgnItem) (o cl : ascii)
  (l : QString) :
  (it = PgnComment /\ m_hasTags g = true
   /\ (o = "("%char /\ cl = ")"%char \/ o = "{"%char /\ cl = "}"%char))
  \/ (it = PgnTag /\ m_moves g = [] /\ o = "["%char /\ cl = "]"%char) ->
  status f = Ok -> rest (skipWhiteSpace f) = o :: l ->
  scan g f
  = scanLoop (2 + List.length l) g (mkScan it o cl 1 [])
      (snd (readChar (skipWhiteSpace f))).
Proof.
  intros Hit Hst Hrest. unfold scan. rewrite Hrest.
  pose proof (skipWhiteSpace_advances f) as (_ & _ & _ & Hs & _).
  cbn [List.length Nat.add scanLoop]. rewrite Hs, Hst.
  rewrite (readChar_cons _ Hrest). cbn [snd].
  destruct Hit as [(-> & Hg & [[-> ->] | [-> ->]]) | (-> & Hm & -> & ->)];
    unfold body; cbn; try rewrite Hg; try rewrite Hm; cbn;
    try rewrite andb_false_r; reflexivity.
Qed.

(** C5 (as amended).  A bracketed item tracks one bracket pair with a depth
    counter, as [bracketEnd] does.  For a comment, opened by a round or a
    curly bracket once a tag has been seen, the loop ends where the depth
    comes to zero, with the text between the brackets, or else only when
    the stream is exhausted.  A tag, opened by a square bracket before any
    move, ends likewise where the depth comes to zero, unless a line break
    comes first and cuts it.  So "(a(b)c)" is one Comment item, with
    nothing left in the stream. *)
Theorem bracket_depth_tracked :
  (forall g f o cl l,
     m_hasTags g = true -> status f = Ok ->
     (o = "("%char /\ cl = ")"%char \/ o = "{"%char /\ cl = "}"%char) ->
     rest (skipWhiteSpace f) = o :: l ->
     exists s f', scan g f = Some (Broke s f') /\ itemType s = PgnComment
       /\ match bracketEnd (fun _ => false) o cl 1 l with
          | Closed text r => str s = text /\ rest f' = r /\ status f' = Ok
          | CutAt _ _ => False
          | Exhausted => rest f' = [] /\ status f' = ReadPastEnd
          end)
  /\ (forall g f l,
        m_moves g = [] -> status f = Ok -> rest (skipWhiteSpace f) = "["%char :: l ->
        exists s f', scan g f = Some (Broke s f') /\ itemType s = PgnTag
          /\ match bracketEnd isNewline "[" "]" 1 l with
             | Closed text r => str s = text /\ rest f' = r /\ status f' = Ok
             | CutAt text r => str s = text /\ rest f' = r /\ status f' = Ok
             | Exhausted => rest f' = [] /\ status f' = ReadPastEnd
             end)
  /\ (forall g f,
        m_hasTags g = true -> status f = Ok -> rest f = qs "(a(b)c)" ->
        exists f', readItem g f = Some (PgnComment, g, f', [])
                   /\ rest f' = [] /\ status f' = Ok).
Proof.
  assert (Hcomment : forall g f o cl l,
     m_hasTags g = true -> status f = Ok ->
     (o = "("%char /\ cl = ")"%char \/ o = "{"%char /\ cl = "}"%char) ->
     rest (skipWhiteSpace f) = o :: l ->
     exists s f', scan g f = Some (Broke s f') /\ itemType s = PgnComment
       /\ match bracketEnd (fun _ => false) o cl 1 l with
          | Closed text r => str s = text /\ rest f' = r /\ status f' = Ok
          | CutAt _ _ => False
          | Exhausted => rest f' = [] /\ status f' = ReadPastEnd
          end).
  { intros g f o cl l Hg Hst Hpair Hrest.
    rewrite (@scan_opens_bracket g f PgnComment o cl l);
      [| left; now repeat split | assumption | assumption].
    pose proof (skipWhiteSpace_advances f) as (_ & _ & _ & Hs & _).
    assert (Hext : forall d l', bracketEnd (stopsItem PgnComment) o cl d l'
                                = bracketEnd (fun _ => false) o cl d l').
    { intros d l'. apply bracketEnd_ext. intro c. unfold stopsItem.
      apply andb_false_r. }
    destruct (@scanLoop_bracket g PgnComment o cl l) with (depth := 0) (t0 := @nil ascii)
      (f := snd (readChar (skipWhiteSpace f))) (fuel := 2 + List.length l)
      as (s' & f' & H1 & H2 & H3).
    - left. now split.
    - destruct Hpair as [[-> ->] | [-> ->]]; reflexivity.
    - destruct Hpair as [[-> ->] | [-> ->]]; reflexivity.
    - destruct Hpair as [[-> ->] | [-> ->]]; reflexivity.
    - now rewrite (readChar_cons _ Hrest).
    - rewrite (readChar_cons _ Hrest). cbn. congruence.
    - lia.
    - exists s', f'. split; [exact H1|]. split; [exact H2|].
      rewrite Hext in H3. cbn [app] in H3.
      destruct (bracketEnd (fun _ => false) o cl 1 l) eqn:Hb; try exact H3.
      exfalso. eapply bracketEnd_never_cut; eassumption. }
  split; [exact Hcomment|]. split.
  - intros g f l Hm Hst Hrest.
    rewrite (@scan_opens_bracket g f PgnTag "[" "]" l);
      [| right; now repeat split | assumption | assumption].
    assert (Hext : forall d l', bracketEnd (stopsItem PgnTag) "[" "]" d l'
                                = bracketEnd isNewline "[" "]" d l').
    { intros d l'. apply bracketEnd_ext. intro c. unfold stopsItem.
      apply andb_true_r. }
    pose proof (skipWhiteSpace_advances f) as (_ & _ & _ & Hs & _).
    destruct (@scanLoop_bracket g PgnTag "[" "]" l) with (depth := 0) (t0 := @nil ascii)
      (f := snd (readChar (skipWhiteSpace f))) (fuel := 2 + List.length l)
      as (s' & f' & H1 & H2 & H3); try reflexivity.
    + now right.
    + now rewrite (readChar_cons _ Hrest).
    + rewrite (readChar_cons _ Hrest). cbn. congruence.
    + lia.
    + exists s', f'. split; [exact H1|]. split; [exact H2|].
      rewrite Hext in H3. exact H3.
  - intros g f Hg Hst Hrest.
    destruct (Hcomment g f "("%char ")"%char (qs "a(b)c)") Hg Hst)
      as (s & f' & H1 & H2 & H3).
    + now left.
    + unfold skipWhiteSpace. rewrite Hrest. reflexivity.
    + cbn in H3. destruct H3 as (H3 & H4 & H5).
      unfold readItem. rewrite H1. unfold interpret. rewrite H3, H2. cbn.
      exists f'. now repeat split.
Qed.

(** ** Line breaks *)

Lemma bracketEnd_cut (body r : QString) (c : ascii) :
  lineSafe body = true -> isNewline c = true ->
  bracketEnd isNewline "[" "]" 1 (body ++ c :: r) = CutAt body r.
Proof.
  unfold lineSafe. intros H Hc. induction body as [|x body IH].
  - cbn [app bracketEnd]. now rewrite Hc.
  - simpl in H. apply andb_true_iff in H as [Hx H].
    apply negb_true_iff in Hx. apply orb_false_iff in Hx as [Hx Hn].
    apply orb_false_iff in Hx as [Ho Hcl].
    cbn [app bracketEnd]. rewrite Hn, Ho, Hcl, (IH H). reflexivity.
Qed.

(** C9 (as amended).  Wherever the loop of the scanner reads a carriage
    return or a line feed that the skipping of text before the first tag
    does not discard (a tag has been seen, or a tag is being read), and
    the item is not a comment, the loop ends there: the item is what the
    locals held before the line break, the stream stands just after it.
    So a tag whose text, free of brackets, runs into a line break is cut
    there: its text is what stood before the line break, and the closing
    bracket is still to be read. *)
Theorem newline_ends_item :
  (forall (g : PgnGame) (f f1 : PgnFile) (s : Scan) (c : ascii) (r : QString),
     observes g f s f1 -> status f1 = Ok -> rest f1 = c :: r ->
     c = LF \/ c = CR ->
     itemType s <> PgnComment ->
     m_hasTags g = true \/ itemType s = PgnTag ->
     scan g f = Some (Broke s (snd (readChar f1)))
     /\ readItem g f = Some (interpret g s (snd (readChar f1)))
     /\ rest (snd (readChar f1)) = r)
  /\ (forall (g : PgnGame) (f : PgnFile) (body : QString) (c : ascii) (r : QString),
        m_moves g = [] -> status f = Ok ->
        rest (skipWhiteSpace f) = "["%char :: body ++ c :: r ->
        lineSafe body = true -> c = LF \/ c = CR ->
        exists s f',
          scan g f = Some (Broke s f')
          /\ itemType s = PgnTag /\ str s = body /\ rest f' = r).
Proof.
  split.
  - intros g f f1 s c r Hobs Hst Hrest Hc Hi Hskip.
    assert (Hone : scanLoop 1 g s f1 = Some (Broke s (snd (readChar f1)))).
    { simpl. rewrite Hst, (readChar_cons _ Hrest). cbn [snd].
      unfold body.
      assert (H61 : negb (m_hasTags g) && negb (PgnItem_eqb (itemType s) PgnTag)
                    && negb (Ascii.eqb c "[") = false).
      { destruct Hskip as [-> | ->]; [reflexivity|]. cbn. now rewrite andb_false_r. }
      rewrite H61.
      assert (H63 : (Ascii.eqb c LF || Ascii.eqb c CR)
                    && negb (PgnItem_eqb (itemType s) PgnComment) = true).
      { apply andb_true_iff. split.
        - destruct Hc as [-> | ->]; reflexivity.
        - destruct (itemType s); try reflexivity. contradiction. }
      rewrite H63. reflexivity. }
    pose proof (observes_scan 0 Hobs Hone) as Hscan.
    repeat split; [exact Hscan | | now rewrite (readChar_cons _ Hrest)].
    unfold readItem. now rewrite Hscan.
  - intros g f body c r Hm Hst Hrest Hbody Hc.
    assert (Hnl : isNewline c = true) by (destruct Hc as [-> | ->]; reflexivity).
    rewrite (@scan_opens_bracket g f PgnTag "[" "]" (body ++ c :: r));
      [| right; now repeat split | assumption | assumption].
    pose proof (skipWhiteSpace_advances f) as (_ & _ & _ & Hs & _).
    destruct (@scanLoop_bracket g PgnTag "[" "]" (body ++ c :: r))
      with (depth := 0) (t0 := @nil ascii)
           (f := snd (readChar (skipWhiteSpace f)))
           (fuel := 2 + List.length (body ++ c :: r))
      as (s' & f' & H1 & H2 & H3); try reflexivity.
    + now right.
    + now rewrite (readChar_cons _ Hrest).
    + rewrite (readChar_cons _ Hrest). cbn. congruence.
    + lia.
    + rewrite bracketEnd_ext with (stop2 := isNewline) in H3
        by (intro x; unfold stopsItem; apply andb_true_r).
      rewrite (@bracketEnd_cut body r c Hbody Hnl) in H3.
      destruct H3 as (H3 & H4 & H5).
      exists s', f'. repeat split; assumption.
Qed.

(** ** The moves of a parsed record *)

Lemma playMoves_app (b : Board) (ms ms' : list Move) :
  playMoves b (ms ++ ms') = playMoves (playMoves b ms) ms'.
Proof. revert b; induction ms as [|m ms IH]; intro b; simpl; [reflexivity | apply IH]. Qed.

Lemma legalFrom_app (b : Board) (ms ms' : list Move) :
  legalFrom b (ms ++ ms') = legalFrom b ms && legalFrom (playMoves b ms) ms'.
Proof.
  revert b; induction ms as [|m ms IH]; intro b; simpl; [reflexivity|].
  now rewrite IH, andb_assoc.
Qed.

Lemma legalFrom_prefix (b : Board) (p q : list Move) (m : Move) :
  legalFrom b (p ++ m :: q) = true -> isLegalMove (playMoves b p) m = true.
Proof.
  rewrite legalFrom_app. simpl. intro H.
  apply andb_true_iff in H as [_ H]. now apply andb_true_iff in H as [H _].
Qed.

Lemma body_tagBeforeMoves (g : PgnGame) (s : Scan) (c : ascii) (f : PgnFile) :
  tagBeforeMoves g s ->
  match body g s c f with
  | Continue s' _ | Break s' _ | Next s' _ => tagBeforeMoves g s'
  | Return _ _ _ => True
  end.
Proof.
  intro H. unfold body, leading, opening, track.
  repeat match goal with
         | |- context [if ?b then _ else _] => destruct b eqn:?
         | |- context [match m_moves ?g with _ => _ end] => destruct (m_moves g) eqn:?
         | |- context [match str ?s with _ => _ end] => destruct (str s) eqn:?
         | |- context [let '(_, _) := readLine ?f in _] => destruct (readLine f) eqn:?
         end;
    try exact I; try exact H; unfold tagBeforeMoves in *; cbn;
    try (intro; discriminate); try (intros _; assumption); try assumption.
Qed.

Lemma scanLoop_tagBeforeMoves (fuel : nat) (g : PgnGame) (s : Scan) (f : PgnFile)
  (s' : Scan) (f' : PgnFile) :
  tagBeforeMoves g s -> scanLoop fuel g s f = Some (Broke s' f') -> tagBeforeMoves g s'.
Proof.
  revert s f; induction fuel as [|k IH]; intros s f Hs H; [discriminate|].
  simpl in H. destruct (status f); [|now injection H as <- _].
  destruct (readChar f) as [c f1].
  pose proof (@body_tagBeforeMoves g s c f1 Hs) as Hb.
  destruct (body g s c f1); try discriminate; eauto.
  now injection H as <- _.
Qed.

Section Replay.

(** The engine's standard starting position is never the empty string. *)
Hypothesis startingFen_nonempty : forall b : Board, startingFen (boardVariant b) <> [].

Lemma interpret_replayed (g : PgnGame) (s : Scan) (f : PgnFile) :
  tagBeforeMoves g s -> replayed g (board f) ->
  let '(_, g', f', _) := interpret g s f in replayed g' (board f').
Proof.
  intros Htag Hrep. unfold interpret.
  destruct (trimmed (str s)) as [|c0 t] eqn:Htx; [exact Hrep|].
  destruct ((PgnItem_eqb (itemType s) PgnMove || PgnItem_eqb (itemType s) PgnMoveNumber)
            && isTerminator (c0 :: t)); [exact Hrep|].
  destruct (itemType s) eqn:Hit; try exact Hrep.
  - (* a move *)
    unfold interpretMove. destruct (negb (m_hasTags g)); [exact Hrep|].
    unfold lazyFen. destruct (m_fen g) as [|c1 fen] eqn:Hfen.
    + destruct Hrep as [[Hm _] | [Hne _]]; [|congruence].
      cbn [board set_board m_moves set_fen].
      set (b0 := snd (setBoard (board f) (startingFen (boardVariant (board f))))).
      destruct (isLegalMove b0 (moveFromString b0 (c0 :: t))) eqn:Hleg;
        right; cbn; (split; [apply startingFen_nonempty|]);
        exists b0; (split; [apply installed_set|]); rewrite Hm; cbn;
        [rewrite Hleg|]; now split.
    + destruct Hrep as [[_ Hf] | [Hne (b0 & Hin & Hleg & Hb)]]; [congruence|].
      destruct (isLegalMove (board f) (moveFromString (board f) (c0 :: t))) eqn:Hl.
      * right. cbn. rewrite Hfen. split; [discriminate|].
        exists b0. rewrite Hfen in Hin. split; [exact Hin|].
        rewrite legalFrom_app, playMoves_app, Hleg, <- Hb. cbn. rewrite Hl.
        now split.
      * right. rewrite Hfen. split; [discriminate|].
        exists b0. rewrite <- Hfen. now repeat split.
  - (* a tag: the record holds no move *)
    specialize (Htag Hit). unfold interpretTag, applyTag.
    repeat match goal with
           | |- context [if ?b then _ else _] => destruct b eqn:?
           end; try exact Hrep.
    + (* Variant *)
      destruct Hrep as [Hrep | [Hne (b0 & Hin & Hleg & Hb)]]; [left; exact Hrep|].
      right. cbn. split; [exact Hne|].
      exists (setVariant (board f) (variantFromString
                (remove_char DQUOTE (section_rest " " (c0 :: t))))).
      rewrite Htag in *. cbn in Hb. rewrite Hb. split; [|now split].
      now apply installed_variant.
    + (* FEN *)
      destruct (setBoard (board f) (remove_char DQUOTE (section_rest " " (c0 :: t))))
        as [ok b] eqn:Hsb.
      assert (Hgo : replayed (set_fen g (remove_char DQUOTE (section_rest " " (c0 :: t)))) b).
      { destruct (remove_char DQUOTE (section_rest " " (c0 :: t))) as [|c1 p] eqn:Hp.
        - left. now split.
        - right. cbn. split; [discriminate|]. exists b. rewrite Htag. cbn.
          split; [|now split].
          replace b with (snd (setBoard (board f) (c1 :: p))) by now rewrite Hsb.
          apply installed_set. }
      destruct ok; exact Hgo.
  - (* a glyph *)
    unfold interpretNag. destruct (toInt (c0 :: t)); [|exact Hrep].
    destruct ((z <? 0)%Z || (255 <? z)%Z); exact Hrep.
Qed.

Lemma readItem_replayed (g : PgnGame) (f : PgnFile) (i : PgnItem) (g' : PgnGame)
  (f' : PgnFile) (lg : list LogMsg) :
  readItem g f = Some (i, g', f', lg) -> replayed g (board f) -> replayed g' (board f').
Proof.
  unfold readItem, scan. intros H Hrep.
  pose proof (skipWhiteSpace_advances f) as (_ & _ & _ & _ & Hb & _).
  destruct (scanLoop _ g scanStart (skipWhiteSpace f)) as [[s f1|i1 f1 lg1]|] eqn:Hs;
    [| |discriminate].
  - pose proof (scanLoop_end _ _ _ _ Hs) as (Hb1 & _).
    assert (Htag : tagBeforeMoves g s).
    { eapply scanLoop_tagBeforeMoves; [|exact Hs]. intro Hx. discriminate Hx. }
    assert (Hrep1 : replayed g (board f1)) by (rewrite Hb1, Hb; exact Hrep).
    pose proof (@interpret_replayed g s f1 Htag Hrep1) as Hi.
    injection H as H. rewrite H in Hi. exact Hi.
  - pose proof (scanLoop_end _ _ _ _ Hs) as (_ & _ & _ & Hb1 & _).
    injection H as _ <- <- _. rewrite Hb1, Hb. exact Hrep.
Qed.

Lemma buildLoop_replayed (fuel : nat) (maxMoves : Z) (g : PgnGame) (f : PgnFile)
  (lg : list LogMsg) (g' : PgnGame) (f' : PgnFile) (lg' : list LogMsg) :
  buildLoop fuel maxMoves g f lg = Some (g', f', lg') ->
  replayed g (board f) -> replayed g' (board f').
Proof.
  revert g f lg; induction fuel as [|k IH]; intros g f lg H Hrep; [discriminate|].
  simpl in H. destruct (status f); [|now injection H as <- <- _].
  destruct (Z.of_nat (List.length (m_moves g)) <? maxMoves)%Z;
    [|now injection H as <- <- _].
  destruct (readItem g f) as [[[[i g1] f1] l]|] eqn:Hr; [|discriminate].
  pose proof (@readItem_replayed _ _ _ _ _ _ Hr Hrep) as Hrep1.
  destruct i; try (eapply IH; eassumption); try (now injection H as <- <- _).
Qed.

End Replay.

Section FromStart.

Hypothesis laws : lawful.

Lemma applied_moves (g : PgnGame) (b : Board) :
  applied g b -> m_moves g <> [] -> movesApplied g b.
Proof. intros [(Hm & _) | H] Hne; [contradiction | exact H]. Qed.

Lemma applied_played (g : PgnGame) (b : Board) :
  applied g b -> m_fen g <> [] -> playedFromStart g b.
Proof.
  intros [(_ & _ & [Hf | H]) | (_ & _ & H)] Hne; [contradiction | exact H | exact H].
Qed.

(** One more legal move on a board that the moves so far lead to. *)
Lemma playedFromStart_move (g : PgnGame) (b : Board) (m : Move) :
  playedFromStart g b -> isLegalMove b m = true ->
  playedFromStart (set_moves g (m_moves g ++ [m])) (makeMove b m).
Proof.
  intros (Hload & Hleg & Hb) Hm. unfold playedFromStart, startBoard in *. cbn.
  split; [exact Hload|].
  rewrite legalFrom_app, playMoves_app, Hleg, <- Hb. cbn. rewrite Hm. now split.
Qed.

Lemma interpret_applied (g : PgnGame) (s : Scan) (f : PgnFile) :
  tagBeforeMoves g s -> applied g (board f) ->
  let '(i, g', f', _) := interpret g s f in
  (i <> PgnError -> applied g' (board f'))
  /\ (m_moves g' <> [] -> movesApplied g' (board f')).
Proof.
  intros Htag Hap.
  assert (Hsame : forall i : PgnItem,
             (i <> PgnError -> applied g (board f))
             /\ (m_moves g <> [] -> movesApplied g (board f))).
  { intro i. split; [intros _; exact Hap | apply applied_moves; exact Hap]. }
  unfold interpret.
  destruct (trimmed (str s)) as [|c0 t] eqn:Htx; [apply Hsame|].
  destruct ((PgnItem_eqb (itemType s) PgnMove || PgnItem_eqb (itemType s) PgnMoveNumber)
            && isTerminator (c0 :: t)); [apply (Hsame PgnResult)|].
  destruct (itemType s) eqn:Hit; try apply Hsame.
  - (* a move *)
    unfold interpretMove. destruct (negb (m_hasTags g)); [apply Hsame|].
    unfold lazyFen. destruct (m_fen g) as [|c1 fen] eqn:Hfen.
    + (* the first move, no position yet *)
      destruct Hap as [(Hm & Hv & _) | (_ & Hne & _)]; [|congruence].
      cbn [board set_board].
      pose proof (start_loads laws (board f)) as Hok. rewrite Hv in Hok |- *.
      destruct (setBoard (board f) (startingFen (m_variant g))) as [ok b1] eqn:Hsb.
      cbn [fst snd] in *. subst ok.
      assert (Hplayed : playedFromStart (set_fen g (startingFen (m_variant g))) b1).
      { pose proof (load_fresh laws _ _ _ Hsb) as Hfr. rewrite Hv in Hfr.
        unfold playedFromStart, startBoard. cbn. rewrite Hfr, Hm. cbn. now repeat split. }
      destruct (isLegalMove b1 (moveFromString b1 (c0 :: t))) eqn:Hleg.
      * assert (Hgo : movesApplied
                        (set_moves (set_fen g (startingFen (m_variant g)))
                           (m_moves (set_fen g (startingFen (m_variant g)))
                            ++ [moveFromString b1 (c0 :: t)]))
                        (makeMove b1 (moveFromString b1 (c0 :: t)))).
        { split; [cbn; intro Hx; now apply app_eq_nil in Hx as [_ Hx]|].
          split; [cbn; apply (start_named laws)|].
          apply playedFromStart_move; assumption. }
        split; [intros _; right; exact Hgo | intros _; exact Hgo].
      * split; [intro Hx; now elim Hx|]. cbn. intro Hx. now elim Hx.
    + (* the position is there *)
      assert (Hplayed : playedFromStart g (board f)).
      { apply applied_played; [exact Hap | rewrite Hfen; discriminate]. }
      destruct (isLegalMove (board f) (moveFromString (board f) (c0 :: t))) eqn:Hleg.
      * assert (Hgo : movesApplied
                        (set_moves g (m_moves g ++ [moveFromString (board f) (c0 :: t)]))
                        (makeMove (board f) (moveFromString (board f) (c0 :: t)))).
        { split; [cbn; intro Hx; now apply app_eq_nil in Hx as [_ Hx]|].
          split; [cbn; rewrite Hfen; discriminate|].
          apply playedFromStart_move; assumption. }
        split; [intros _; right; exact Hgo | intros _; exact Hgo].
      * apply Hsame.
  - (* a tag: the record holds no move *)
    specialize (Htag Hit).
    assert (Hnone : forall (i : PgnItem) (g' : PgnGame) (b : Board),
               m_moves g' = m_moves g ->
               (i <> PgnError -> applied g' b)
               -> (i <> PgnError -> applied g' b)
                  /\ (m_moves g' <> [] -> movesApplied g' b)).
    { intros i g' b Hm H. split; [exact H|]. rewrite Hm, Htag. intro Hx. now elim Hx. }
    destruct Hap as [(_ & Hv & Hf) | (Hne & _)]; [|contradiction].
    unfold interpretTag, applyTag.
    repeat match goal with
           | |- context [if ?b then _ else _] => destruct b eqn:?
           end;
      try (apply Hnone; [reflexivity | intros _; left; now repeat split]);
      try (apply Hnone; [reflexivity | intro Hx; now elim Hx]).
    + (* Variant *)
      apply Hnone; [reflexivity|]. intros _. left. unfold tagsApplied. cbn.
      split; [exact Htag|]. split; [apply (variant_set laws)|].
      destruct Hf as [Hf | (Hload & _ & Hb)]; [left; exact Hf|]. right.
      rewrite Htag in Hb. cbn in Hb.
      pose proof (variant_after_load laws _
                    (variantFromString (remove_char DQUOTE (section_rest " " (c0 :: t))))
                    _ _ Hload) as Hnew.
      unfold playedFromStart, startBoard. cbn. rewrite Hnew, Htag. cbn.
      rewrite Hb. now repeat split.
    + (* FEN *)
      destruct (setBoard (board f) (remove_char DQUOTE (section_rest " " (c0 :: t))))
        as [ok b] eqn:Hsb.
      destruct ok; (apply Hnone; [reflexivity|]); [|intro Hx; now elim Hx].
      intros _. left. unfold tagsApplied. cbn.
      split; [exact Htag|].
      split; [rewrite <- Hv; exact (load_keeps_variant laws _ _ _ Hsb)|].
      right. pose proof (load_fresh laws _ _ _ Hsb) as Hfr. rewrite Hv in Hfr.
      unfold playedFromStart, startBoard. cbn. rewrite Hfr, Htag. cbn. now repeat split.
  - (* a glyph *)
    unfold interpretNag. destruct (toInt (c0 :: t)); [|apply Hsame].
    destruct ((z <? 0)%Z || (255 <? z)%Z); apply Hsame.
Qed.

Lemma readItem_applied (g : PgnGame) (f : PgnFile) (i : PgnItem) (g' : PgnGame)
  (f' : PgnFile) (lg : list LogMsg) :
  readItem g f = Some (i, g', f', lg) -> applied g (board f) ->
  (i <> PgnError -> applied g' (board f'))
  /\ (m_moves g' <> [] -> movesApplied g' (board f')).
Proof.
  unfold readItem, scan. intros H Hap.
  pose proof (skipWhiteSpace_advances f) as (_ & _ & _ & _ & Hb & _).
  destruct (scanLoop _ g scanStart (skipWhiteSpace f)) as [[s f1|i1 f1 lg1]|] eqn:Hs;
    [| |discriminate].
  - pose proof (scanLoop_end _ _ _ _ Hs) as (Hb1 & _).
    assert (Htag : tagBeforeMoves g s).
    { eapply scanLoop_tagBeforeMoves; [|exact Hs]. intro Hx. discriminate Hx. }
    assert (Hap1 : applied g (board f1)) by (rewrite Hb1, Hb; exact Hap).
    pose proof (@interpret_applied g s f1 Htag Hap1) as Hi.
    injection H as H. rewrite H in Hi. exact Hi.
  - pose proof (scanLoop_end _ _ _ _ Hs) as (_ & _ & _ & Hb1 & _).
    injection H as _ <- <- _. rewrite Hb1, Hb.
    split; [intros _; exact Hap | apply applied_moves; exact Hap].
Qed.

Lemma buildLoop_applied (fuel : nat) (maxMoves : Z) (g : PgnGame) (f : PgnFile)
  (lg : list LogMsg) (g' : PgnGame) (f' : PgnFile) (lg' : list LogMsg) :
  buildLoop fuel maxMoves g f lg = Some (g', f', lg') ->
  applied g (board f) -> m_moves g' <> [] -> movesApplied g' (board f').
Proof.
  revert g f lg; induction fuel as [|k IH]; intros g f lg H Hap; [discriminate|].
  simpl in H. destruct (status f);
    [|injection H as <- <- _; apply applied_moves; exact Hap].
  destruct (Z.of_nat (List.length (m_moves g)) <? maxMoves)%Z;
    [|injection H as <- <- _; apply applied_moves; exact Hap].
  destruct (readItem g f) as [[[[i g1] f1] l]|] eqn:Hr; [|discriminate].
  destruct (@readItem_applied _ _ _ _ _ _ Hr Hap) as [Hgo Hend].
  destruct i; try (now injection H as <- <- _);
    (eapply IH; [exact H|]; apply Hgo; discriminate).
Qed.

Lemma startGame_applied (f : PgnFile) :
  boardOfVariant f -> applied (fst (startGame f)) (board (snd (startGame f))).
Proof.
  intro Hf. unfold startGame. left.
  destruct (isNone (variant f)) eqn:Hn; cbn.
  - split; [reflexivity|]. split; [apply (variant_set laws) | now left].
  - split; [reflexivity|]. split; [exact (Hf Hn) | now left].
Qed.

End FromStart.


(** ** Reading tokens *)

Ltac ascii_cases c := destruct c as [[] [] [] [] [] [] [] []].

Lemma notSpace_notNewline (c : ascii) : isSpace c = false -> isNewline c = false.
Proof. ascii_cases c; cbv; congruence. Qed.

Lemma digit_starts (c : ascii) :
  isDigit c = true ->
  startsToken PgnMoveNumber c = true /\ plainChar PgnMoveNumber c = true
  /\ isSpace c = false.
Proof. ascii_cases c; cbv; intro H; try discriminate H; now repeat split. Qed.

Lemma startsToken_plain (it : PgnItem) (c : ascii) :
  startsToken it c = true -> plainChar it c = true.
Proof.
  unfold startsToken. intro H. apply andb_true_iff in H as [H _].
  now apply andb_true_iff in H as [H _].
Qed.

Lemma plainChar_notSpace (it : PgnItem) (c : ascii) :
  plainChar it c = true -> isSpace c = false.
Proof.
  unfold plainChar. intro H. apply andb_true_iff in H as [H _].
  apply andb_true_iff in H as [_ H]. now apply negb_true_iff in H.
Qed.

Lemma skipSpaces_at (ws : QString) (c : ascii) (r p : QString) :
  forallb isSpace ws = true -> isSpace c = false ->
  skipSpaces p (ws ++ c :: r) = (rev ws ++ p, c :: r).
Proof.
  revert p; induction ws as [|w ws IH]; intros p Hws Hc; simpl.
  - now rewrite Hc.
  - simpl in Hws. apply andb_true_iff in Hws as [Hw Hws]. rewrite Hw.
    rewrite IH by assumption. now rewrite <- app_assoc.
Qed.

(** White space skipped up to the character [c]. *)
Lemma skipWhiteSpace_at (f : PgnFile) (ws : QString) (c : ascii) (r : QString) :
  rest f = ws ++ c :: r -> forallb isSpace ws = true -> isSpace c = false ->
  rest (skipWhiteSpace f) = c :: r
  /\ status (skipWhiteSpace f) = status f
  /\ board (skipWhiteSpace f) = board f
  /\ variant (skipWhiteSpace f) = variant f.
Proof.
  intros Hr Hws Hc. unfold skipWhiteSpace. rewrite Hr, skipSpaces_at by assumption.
  now repeat split.
Qed.

(** The loop of [readItem] from its start ends as it does with any fuel
    that is enough. *)
Lemma scan_by_fuel (g : PgnGame) (f : PgnFile) (k : nat) (r : ScanEnd) :
  scanLoop k g scanStart (skipWhiteSpace f) = Some r -> scan g f = Some r.
Proof.
  intro Hk. destruct (scan_total g f) as [r' Hr']. unfold scan in *.
  destruct (Nat.le_ge_cases k (2 + List.length (rest (skipWhiteSpace f)))) as [Hle|Hle].
  - pose proof (@scanLoop_more _ _ _ _ _ _ Hk Hle) as H'. congruence.
  - pose proof (@scanLoop_more _ _ _ _ _ _ Hr' Hle) as H'. congruence.
Qed.

Lemma body_starts (g : PgnGame) (it : PgnItem) (c : ascii) (f : PgnFile) :
  m_hasTags g = true -> it = PgnMove \/ it = PgnMoveNumber ->
  startsToken it c = true ->
  body g scanStart c f = Continue (mkScan it NUL NUL 0 [c]) f.
Proof.
  intros Hg Hit Hc. unfold body. rewrite Hg. cbn [negb andb].
  destruct Hit as [-> | ->]; ascii_cases c; cbv in Hc; try discriminate Hc; reflexivity.
Qed.

Lemma body_plain (g : PgnGame) (it : PgnItem) (c c0 : ascii) (t0 : QString) (lvl : Z)
  (f : PgnFile) :
  m_hasTags g = true -> it = PgnMove \/ it = PgnMoveNumber ->
  plainChar it c = true ->
  body g (mkScan it NUL NUL lvl (c0 :: t0)) c f
  = Continue (mkScan it NUL NUL lvl ((c0 :: t0) ++ [c])) f.
Proof.
  intros Hg Hit Hc. unfold body. rewrite Hg. cbn [negb andb].
  destruct Hit as [-> | ->]; ascii_cases c; cbv in Hc; try discriminate Hc; reflexivity.
Qed.

Lemma body_ends (g : PgnGame) (it : PgnItem) (e c0 : ascii) (t0 : QString) (lvl : Z)
  (f : PgnFile) :
  m_hasTags g = true -> it = PgnMove \/ it = PgnMoveNumber ->
  endsToken it e = true ->
  body g (mkScan it NUL NUL lvl (c0 :: t0)) e f
  = Break (mkScan it NUL NUL lvl (c0 :: t0)) f.
Proof.
  intros Hg Hit Hc. unfold body. rewrite Hg. cbn [negb andb].
  destruct Hit as [-> | ->]; ascii_cases e; cbv in Hc; try discriminate Hc; reflexivity.
Qed.

(** The loop over the rest of a token: plain characters are appended, the
    end character is consumed and ends the item. *)
Lemma scanLoop_token (g : PgnGame) (it : PgnItem) (t : QString) :
  m_hasTags g = true -> it = PgnMove \/ it = PgnMoveNumber ->
  forallb (plainChar it) t = true ->
  forall (e : ascii) (more : QString) (c0 : ascii) (t0 : QString) (lvl : Z)
         (f : PgnFile) (fuel : nat),
    endsToken it e = true -> rest f = t ++ e :: more -> status f = Ok ->
    List.length t + 1 <= fuel ->
    exists f',
      scanLoop fuel g (mkScan it NUL NUL lvl (c0 :: t0)) f
      = Some (Broke (mkScan it NUL NUL lvl ((c0 :: t0) ++ t)) f')
      /\ rest f' = more /\ status f' = Ok /\ board f' = board f.
Proof.
  intros Hg Hit. induction t as [|c t IH]; intros Ht e more c0 t0 lvl f fuel He Hr Hs Hf.
  - destruct fuel as [|fuel]; [simpl in Hf; lia|].
    cbn [scanLoop]. rewrite Hs, (readChar_cons _ Hr), body_ends by assumption.
    eexists. split; [now rewrite app_nil_r|]. now repeat split.
  - destruct fuel as [|fuel]; [simpl in Hf; lia|].
    simpl in Ht. apply andb_true_iff in Ht as [Hc Ht].
    cbn [scanLoop]. rewrite Hs, (readChar_cons _ Hr), body_plain by assumption.
    destruct (IH Ht e more c0 (t0 ++ [c]) lvl
                (mkPgnFile (c :: past f) (t ++ e :: more) (status f) (board f) (variant f))
                fuel He eq_refl Hs ltac:(simpl in Hf; lia)) as (f' & H1 & H2 & H3 & H4).
    exists f'. split; [|now repeat split].
    cbn [app] in *. rewrite <- app_assoc in H1. exact H1.
Qed.

(** A token read from the start of an item: white space, the token, the
    character that ends it. *)
Lemma scan_token (g : PgnGame) (it : PgnItem) (f : PgnFile) (ws : QString) (c : ascii)
  (t : QString) (e : ascii) (more : QString) :
  m_hasTags g = true -> it = PgnMove \/ it = PgnMoveNumber ->
  status f = Ok -> rest f = ws ++ c :: t ++ e :: more ->
  forallb isSpace ws = true ->
  startsToken it c = true -> forallb (plainChar it) t = true -> endsToken it e = true ->
  exists f',
    scan g f = Some (Broke (mkScan it NUL NUL 0 (c :: t)) f')
    /\ rest f' = more /\ status f' = Ok /\ board f' = board f.
Proof.
  intros Hg Hit Hs Hr Hws Hc Ht He.
  assert (Hsp : isSpace c = false)
    by (eapply plainChar_notSpace, startsToken_plain; eassumption).
  destruct (@skipWhiteSpace_at f _ _ _ Hr Hws Hsp) as (Hr0 & Hs0 & Hb0 & _).
  destruct (@scanLoop_token g it t Hg Hit Ht e more c [] 0%Z
              (snd (readChar (skipWhiteSpace f))) (List.length t + 1) He)
    as (f' & H1 & H2 & H3 & H4).
  - now rewrite (readChar_cons _ Hr0).
  - rewrite (readChar_cons _ Hr0). cbn. congruence.
  - lia.
  - rewrite (readChar_cons _ Hr0) in H1, H4. cbn [snd] in H1, H4.
    exists f'. split; [|repeat split; try assumption].
    + apply scan_by_fuel with (k := S (List.length t + 1)).
      cbn [scanLoop]. rewrite Hs0, Hs, (readChar_cons _ Hr0).
      rewrite (@body_starts g it c _ Hg Hit Hc). exact H1.
    + rewrite H4. cbn. exact Hb0.
Qed.

(** ** Reading a written tag *)

Lemma bracketEnd_lineSafe (body more : QString) :
  lineSafe body = true ->
  bracketEnd isNewline "[" "]" 1 (body ++ "]"%char :: more) = Closed body more.
Proof.
  unfold lineSafe. induction body as [|c body IH]; intro H; [reflexivity|].
  simpl in H. apply andb_true_iff in H as [Hc H].
  apply negb_true_iff in Hc. apply orb_false_iff in Hc as [Hc Hn].
  apply orb_false_iff in Hc as [Ho Hcl].
  cbn [app bracketEnd]. rewrite Hn, Ho, Hcl, (IH H). reflexivity.
Qed.

(** A tag read from the start of an item, before any move: white space,
    the brackets and, between them, a body that is line-safe. *)
Lemma scan_tag (g : PgnGame) (f : PgnFile) (ws body more : QString) :
  m_moves g = [] -> status f = Ok ->
  rest f = ws ++ "["%char :: body ++ "]"%char :: more ->
  forallb isSpace ws = true -> lineSafe body = true ->
  exists s f',
    scan g f = Some (Broke s f')
    /\ itemType s = PgnTag /\ str s = body
    /\ rest f' = more /\ status f' = Ok /\ board f' = board f.
Proof.
  intros Hm Hs Hr Hws Hbody.
  destruct (@skipWhiteSpace_at f _ _ _ Hr Hws eq_refl) as (Hr0 & Hs0 & Hb0 & _).
  rewrite (@scan_opens_bracket g f PgnTag "[" "]" (body ++ "]"%char :: more));
    [| right; now repeat split | assumption | assumption].
  destruct (@scanLoop_bracket g PgnTag "[" "]" (body ++ "]"%char :: more))
    with (depth := 0) (t0 := @nil ascii)
         (f := snd (readChar (skipWhiteSpace f)))
         (fuel := 2 + List.length (body ++ "]"%char :: more))
    as (s' & f' & H1 & H2 & H3); try reflexivity.
  - now right.
  - now rewrite (readChar_cons _ Hr0).
  - rewrite (readChar_cons _ Hr0). cbn. congruence.
  - lia.
  - rewrite bracketEnd_ext with (stop2 := isNewline) in H3
      by (intro c; unfold stopsItem; apply andb_true_r).
    rewrite (@bracketEnd_lineSafe body more Hbody) in H3. destruct H3 as (H3 & H4 & H5).
    exists s', f'. repeat split; try assumption.
    pose proof (scanLoop_end _ _ _ _ H1) as (Hb & _).
    rewrite Hb, (readChar_cons _ Hr0). cbn. exact Hb0.
Qed.

Lemma dropWhile_keep (p : ascii -> bool) (c : ascii) (l : QString) :
  p c = false -> dropWhile p (c :: l) = c :: l.
Proof. intro H. simpl. now rewrite H. Qed.

(** Text that neither starts nor ends with white space is its own
    trimmed text. *)
Lemma trimmed_ends (c d : ascii) (l l' : QString) :
  c :: l = l' ++ [d] -> isSpace c = false -> isSpace d = false ->
  trimmed (c :: l) = c :: l.
Proof.
  intros Heq Hc Hd. unfold trimmed. rewrite (@dropWhile_keep _ _ _ Hc), Heq.
  rewrite rev_app_distr. cbn [rev app]. rewrite (@dropWhile_keep _ _ _ Hd).
  change (d :: rev l') with (rev [d] ++ rev l'). now rewrite <- rev_app_distr, rev_involutive.
Qed.

Lemma trimmed_nospace (s : QString) :
  forallb (fun c => negb (isSpace c)) s = true -> trimmed s = s.
Proof.
  intro H. destruct s as [|c l]; [reflexivity|].
  destruct (exists_last (l := c :: l)) as (l' & d & Heq); [discriminate|].
  assert (Hall : forall x, In x (c :: l) -> isSpace x = false).
  { intros x Hx. rewrite forallb_forall in H. apply H in Hx.
    now apply negb_true_iff in Hx. }
  apply (@trimmed_ends _ _ _ _ Heq).
  - apply Hall. now left.
  - apply Hall. rewrite Heq. apply in_or_app. right. now left.
Qed.

Lemma section_first_at (name r : QString) :
  forallb (fun c => negb (Ascii.eqb c " ")) name = true ->
  section_first " " (name ++ " "%char :: r) = name.
Proof.
  unfold section_first. induction name as [|c name IH]; intro H; [reflexivity|].
  simpl in H. apply andb_true_iff in H as [Hc H]. cbn [app takeWhile].
  rewrite Hc, (IH H). reflexivity.
Qed.

Lemma section_rest_at (name r : QString) :
  forallb (fun c => negb (Ascii.eqb c " ")) name = true ->
  section_rest " " (name ++ " "%char :: r) = r.
Proof.
  unfold section_rest. induction name as [|c name IH]; intro H; [reflexivity|].
  simpl in H. apply andb_true_iff in H as [Hc H]. cbn [app dropWhile].
  rewrite Hc. exact (IH H).
Qed.

Lemma remove_char_absent (ch : ascii) (s : QString) :
  forallb (fun c => negb (Ascii.eqb c ch)) s = true -> remove_char ch s = s.
Proof.
  unfold remove_char. induction s as [|c s IH]; intro H; [reflexivity|].
  simpl in H. apply andb_true_iff in H as [Hc H]. simpl. rewrite Hc, (IH H). reflexivity.
Qed.

Lemma remove_char_quoted (value : QString) :
  forallb (fun c => negb (Ascii.eqb c DQUOTE)) value = true ->
  remove_char DQUOTE (DQUOTE :: value ++ [DQUOTE]) = value.
Proof.
  intro H. unfold remove_char. cbn [filter]. change (Ascii.eqb DQUOTE DQUOTE) with true.
  cbn [negb]. rewrite filter_app. cbn [filter]. change (Ascii.eqb DQUOTE DQUOTE) with true.
  cbn [negb]. rewrite app_nil_r. exact (@remove_char_absent _ _ H).
Qed.

Lemma lineSafe_app (a b : QString) : lineSafe (a ++ b) = lineSafe a && lineSafe b.
Proof. unfold lineSafe. apply forallb_app. Qed.

Lemma tagSafe_lineSafe (v : QString) : tagSafe v = true -> lineSafe v = true.
Proof. unfold tagSafe. intro H. now apply andb_true_iff in H as [H _]. Qed.

Lemma tagSafe_noQuote (v : QString) :
  tagSafe v = true -> forallb (fun c => negb (Ascii.eqb c DQUOTE)) v = true.
Proof. unfold tagSafe. intro H. now apply andb_true_iff in H as [_ H]. Qed.

(** The item of a written tag: its body comes back as name and value. *)
Lemma readItem_tag (g : PgnGame) (f : PgnFile) (ws name value more : QString)
  (n0 : ascii) (name' : QString) :
  m_moves g = [] -> status f = Ok ->
  rest f = ws ++ tagLine (name, value) ++ more ->
  forallb isSpace ws = true ->
  name = n0 :: name' -> isSpace n0 = false -> lineSafe name = true ->
  lineSafe value = true ->
  exists f1,
    readItem g f = Some (interpretTag g f1 (tagBody name value))
    /\ rest f1 = LF :: more /\ status f1 = Ok /\ board f1 = board f.
Proof.
  intros Hm Hs Hr Hws Hname Hn0 Hsafe Hval.
  assert (Hbody : lineSafe (tagBody name value) = true).
  { unfold tagBody. rewrite lineSafe_app, Hsafe. cbn [andb].
    change (" "%char :: DQUOTE :: value ++ [DQUOTE])
      with ([" "%char; DQUOTE] ++ value ++ [DQUOTE]).
    rewrite !lineSafe_app, Hval. reflexivity. }
  assert (Hr' : rest f = ws ++ "["%char :: tagBody name value ++ "]"%char :: LF :: more).
  { rewrite Hr. unfold tagLine, tagBody. cbn [fst snd qs list_ascii_of_string app].
    f_equal. f_equal. rewrite <- !app_assoc. cbn [app]. rewrite <- !app_assoc. reflexivity. }
  destruct (@scan_tag g f _ _ _ Hm Hs Hr' Hws Hbody) as (s & f1 & H1 & H2 & H3 & H4 & H5 & H6).
  exists f1. split; [|now repeat split].
  unfold readItem. rewrite H1. unfold interpret. rewrite H2, H3.
  assert (Htrim : trimmed (tagBody name value) = tagBody name value).
  { unfold tagBody. rewrite Hname. cbn [app].
    apply trimmed_ends with (d := DQUOTE) (l' := (n0 :: name') ++ " "%char :: DQUOTE :: value);
      [|exact Hn0 | reflexivity].
    cbn [app]. rewrite <- app_assoc. reflexivity. }
  rewrite Htrim. unfold tagBody at 1. rewrite Hname. cbn [app PgnItem_eqb orb andb].
  rewrite <- Hname. reflexivity.
Qed.

(** ** Move numbers and terminators as written *)

Lemma string_of_uint_digits (d : Decimal.uint) :
  forallb isDigit (qs (DecimalString.NilEmpty.string_of_uint d)) = true.
Proof. induction d; simpl; try reflexivity; exact IHd. Qed.

(** A written number is a digit followed by digits. *)
Lemma QString_number_digits (n : nat) :
  exists c t, QString_number n = c :: t /\ isDigit c = true /\ forallb isDigit t = true.
Proof.
  unfold QString_number, DecimalString.NilZero.string_of_uint.
  pose proof (string_of_uint_digits (Nat.to_uint n)) as H.
  destruct (Nat.to_uint n) as [|d|d|d|d|d|d|d|d|d|d];
    [exists "0"%char, []; now repeat split | ..];
    cbn in H |- *; eexists _, _; (split; [reflexivity|]); split; try reflexivity; exact H.
Qed.

Lemma digits_not_terminator (s : QString) :
  forallb isDigit s = true -> isTerminator s = false.
Proof.
  intro H. unfold isTerminator.
  destruct (QString_eqb s (qs "*")) eqn:H1;
    [apply QString_eqb_eq in H1; subst s; discriminate H|].
  destruct (QString_eqb s (qs "1/2-1/2")) eqn:H2;
    [apply QString_eqb_eq in H2; subst s; discriminate H|].
  destruct (QString_eqb s (qs "1-0")) eqn:H3;
    [apply QString_eqb_eq in H3; subst s; discriminate H|].
  destruct (QString_eqb s (qs "0-1")) eqn:H4;
    [apply QString_eqb_eq in H4; subst s; discriminate H|].
  reflexivity.
Qed.

Lemma digits_plain (t : QString) :
  forallb isDigit t = true -> forallb (plainChar PgnMoveNumber) t = true.
Proof.
  induction t as [|c t IH]; intro H; [reflexivity|].
  simpl in H. apply andb_true_iff in H as [Hc H]. simpl.
  destruct (digit_starts c Hc) as (_ & -> & _). exact (IH H).
Qed.

Lemma digits_nospace (t : QString) :
  forallb isDigit t = true -> forallb (fun c => negb (isSpace c)) t = true.
Proof.
  induction t as [|c t IH]; intro H; [reflexivity|].
  simpl in H. apply andb_true_iff in H as [Hc H]. simpl.
  destruct (digit_starts c Hc) as (_ & _ & ->). exact (IH H).
Qed.

Lemma plain_nospace (it : PgnItem) (t : QString) :
  forallb (plainChar it) t = true -> forallb (fun c => negb (isSpace c)) t = true.
Proof.
  induction t as [|c t IH]; intro H; [reflexivity|].
  simpl in H. apply andb_true_iff in H as [Hc H]. simpl.
  rewrite (plainChar_notSpace _ _ Hc). exact (IH H).
Qed.

(** A written move number, the period after it included, is an item that
    changes nothing. *)
Lemma readItem_moveNumber (g : PgnGame) (f : PgnFile) (ws : QString) (n : nat)
  (more : QString) :
  m_hasTags g = true -> status f = Ok ->
  rest f = ws ++ QString_number n ++ "."%char :: more ->
  forallb isSpace ws = true ->
  exists f',
    readItem g f = Some (PgnMoveNumber, g, f', [])
    /\ rest f' = more /\ status f' = Ok /\ board f' = board f.
Proof.
  intros Hg Hs Hr Hws.
  destruct (QString_number_digits n) as (c & t & Hn & Hc & Ht).
  rewrite Hn in Hr. cbn [app] in Hr.
  destruct (digit_starts c Hc) as (Hst & _ & Hsp).
  destruct (@scan_token g PgnMoveNumber f ws c t "."%char more Hg (or_intror eq_refl)
              Hs Hr Hws Hst (digits_plain _ Ht) eq_refl) as (f' & H1 & H2).
  exists f'. split; [|exact H2].
  unfold readItem. rewrite H1. unfold interpret. cbn [str itemType].
  rewrite trimmed_nospace by (simpl; rewrite Hsp; exact (digits_nospace _ Ht)).
  rewrite digits_not_terminator by (simpl; rewrite Hc; exact Ht).
  reflexivity.
Qed.

Lemma interpret_terminator (g : PgnGame) (s : Scan) (f : PgnFile) (r : Result) :
  itemType s = PgnMove \/ itemType s = PgnMoveNumber ->
  terminatorValue (trimmed (str s)) = Some r ->
  interpret g s f
  = (PgnResult, set_result g r, f,
     if Result_eqb r (m_result g) then [] else [MarkerDiffersFromTag]).
Proof.
  intros Hi Ht. apply terminatorValue_some in Ht as (Hterm & Hr & Hne).
  unfold interpret. destruct (trimmed (str s)) as [|c t] eqn:Htx; [contradiction|].
  assert (Hm : PgnItem_eqb (itemType s) PgnMove || PgnItem_eqb (itemType s) PgnMoveNumber
               = true) by (destruct Hi as [-> | ->]; reflexivity).
  rewrite Hm, Hterm. simpl. now rewrite Hr.
Qed.

(** The written terminator of a known result, the line feed after it
    included, is a Result item with that result. *)
Lemma readItem_terminator (g : PgnGame) (f : PgnFile) (ws : QString) (r : Result)
  (more : QString) :
  m_hasTags g = true -> status f = Ok -> r <> ResultError ->
  rest f = ws ++ Result_toString r ++ LF :: more ->
  forallb isSpace ws = true ->
  exists f',
    readItem g f
    = Some (PgnResult, set_result g r, f',
            if Result_eqb r (m_result g) then [] else [MarkerDiffersFromTag])
    /\ rest f' = more /\ status f' = Ok /\ board f' = board f.
Proof.
  intros Hg Hs Hr Hrest Hws.
  assert (Hex : exists it c t,
             (it = PgnMove \/ it = PgnMoveNumber)
             /\ Result_toString r = c :: t
             /\ startsToken it c = true /\ forallb (plainChar it) t = true
             /\ terminatorValue (trimmed (c :: t)) = Some r).
  { destruct r; try contradiction.
    - exists PgnMoveNumber, "1"%char, (qs "-0"). now repeat split; auto.
    - exists PgnMoveNumber, "0"%char, (qs "-1"). now repeat split; auto.
    - exists PgnMoveNumber, "1"%char, (qs "/2-1/2"). now repeat split; auto.
    - exists PgnMove, "*"%char, []. now repeat split; auto. }
  destruct Hex as (it & c & t & Hit & Heq & Hc & Ht & Hv).
  rewrite Heq in Hrest. cbn [app] in Hrest.
  assert (He : endsToken it LF = true) by (destruct Hit as [-> | ->]; reflexivity).
  destruct (@scan_token g it f ws c t LF more Hg Hit Hs Hrest Hws Hc Ht He)
    as (f' & H1 & H2).
  exists f'. split; [|exact H2].
  unfold readItem. rewrite H1. rewrite (@interpret_terminator g _ f' r); [reflexivity| |].
  - exact Hit.
  - exact Hv.
Qed.

(** ** Steps of the builder *)

Lemma buildLoop_more (n m : nat) (maxMoves : Z) (g : PgnGame) (f : PgnFile)
  (lg : list LogMsg) (r : BuildResult) :
  buildLoop n maxMoves g f lg = Some r -> n <= m -> buildLoop m maxMoves g f lg = Some r.
Proof.
  revert m g f lg; induction n as [|k IH]; intros m g f lg H Hle; [discriminate|].
  destruct m as [|m]; [lia|]. simpl in *.
  destruct (status f); [|assumption].
  destruct (Z.of_nat (List.length (m_moves g)) <? maxMoves)%Z; [|assumption].
  destruct (readItem g f) as [[[[i g'] f'] l]|]; [|discriminate].
  destruct i; try assumption; apply IH; (assumption || lia).
Qed.

Lemma builds_read (f : PgnFile) (maxMoves : Z) (g' : PgnGame) (lg' : list LogMsg) :
  builds maxMoves (fst (startGame f)) (snd (startGame f)) [] g' lg' ->
  exists f', PgnGame_read f maxMoves = Some (g', f', lg').
Proof.
  intros (n & f' & Hn). exists f'.
  destruct (PgnGame_read_total f maxMoves) as [r' Hr'].
  unfold PgnGame_read in *. destruct (startGame f) as [g f1]. cbn [fst snd] in Hn.
  destruct (Nat.le_ge_cases n (2 + List.length (rest f1))) as [Hle|Hle].
  - pose proof (@buildLoop_more _ _ _ _ _ _ _ Hn Hle) as H'. exact H'.
  - pose proof (@buildLoop_more _ _ _ _ _ _ _ Hr' Hle) as H'.
    rewrite Hn in H'. rewrite Hr'. symmetry. exact H'.
Qed.

(** The builder at the cap of moves stops. *)
Lemma builds_capped (maxMoves : Z) (g : PgnGame) (f : PgnFile) (lg : list LogMsg) :
  (maxMoves <= Z.of_nat (List.length (m_moves g)))%Z ->
  builds maxMoves g f lg g lg.
Proof.
  intro H. exists 1, f. simpl. destruct (status f); [|reflexivity].
  destruct (Z.ltb_spec (Z.of_nat (List.length (m_moves g))) maxMoves); [lia|reflexivity].
Qed.

(** The builder after an item it goes on from. *)
Lemma builds_next (maxMoves : Z) (g : PgnGame) (f : PgnFile) (lg : list LogMsg)
  (i : PgnItem) (g1 : PgnGame) (f1 : PgnFile) (g' : PgnGame) (lg' : list LogMsg) :
  status f = Ok -> (Z.of_nat (List.length (m_moves g)) < maxMoves)%Z ->
  readItem g f = Some (i, g1, f1, []) ->
  i = PgnMove \/ i = PgnMoveNumber \/ i = PgnTag ->
  builds maxMoves (if PgnItem_eqb i PgnTag then set_hasTags g1 true else g1) f1 lg g' lg' ->
  builds maxMoves g f lg g' lg'.
Proof.
  intros Hs Hlt Hr Hi (n & f' & Hn). exists (S n), f'. simpl. rewrite Hs.
  apply Z.ltb_lt in Hlt. rewrite Hlt, Hr, app_nil_r.
  destruct Hi as [-> | [-> | ->]]; exact Hn.
Qed.

(** The builder at the terminator. *)
Lemma builds_result (maxMoves : Z) (g : PgnGame) (f : PgnFile) (lg l : list LogMsg)
  (g1 : PgnGame) (f1 : PgnFile) :
  status f = Ok -> (Z.of_nat (List.length (m_moves g)) < maxMoves)%Z ->
  readItem g f = Some (PgnResult, g1, f1, l) ->
  builds maxMoves g f lg g1 (lg ++ l).
Proof.
  intros Hs Hlt Hr. exists 1, f1. simpl. rewrite Hs.
  apply Z.ltb_lt in Hlt. now rewrite Hlt, Hr.
Qed.

(** ** Reading the written moves *)

(** A written move, the space after it included, is an item handled as a
    move. *)
Lemma readItem_move (g : PgnGame) (f : PgnFile) (ws token more : QString) :
  m_hasTags g = true -> status f = Ok ->
  rest f = ws ++ token ++ " "%char :: more ->
  forallb isSpace ws = true -> moveToken token = true ->
  exists f1,
    readItem g f = Some (interpretMove g f1 token)
    /\ rest f1 = more /\ status f1 = Ok /\ board f1 = board f.
Proof.
  intros Hg Hs Hr Hws Htok. destruct token as [|c t]; [discriminate|].
  unfold moveToken in Htok. apply andb_true_iff in Htok as [Htok Hterm].
  apply andb_true_iff in Htok as [Hc Ht]. apply negb_true_iff in Hterm.
  cbn [app] in Hr.
  destruct (@scan_token g PgnMove f ws c t " "%char more Hg (or_introl eq_refl)
              Hs Hr Hws Hc Ht eq_refl) as (f1 & H1 & H2).
  exists f1. split; [|exact H2].
  unfold readItem. rewrite H1. unfold interpret. cbn [str itemType].
  rewrite trimmed_nospace.
  - rewrite Hterm, andb_false_r. reflexivity.
  - simpl. rewrite (plainChar_notSpace _ _ (startsToken_plain _ _ Hc)).
    exact (plain_nospace _ _ Ht).
Qed.

Lemma lazyFen_set (g : PgnGame) (f : PgnFile) : m_fen g <> [] -> lazyFen g f = (g, f).
Proof. unfold lazyFen. destruct (m_fen g); [intro H; now elim H | reflexivity]. Qed.

Section ReadBack.

(** The record that was written, and the cap of the parse. *)
Variable g0 : PgnGame.
Variable maxMoves : Z.

Hypothesis g0_faithful : faithful g0.
Hypothesis notation : notationReadsBack.

Lemma moves_read_back (tail : QString) (lg : list LogMsg) (G : PgnGame)
  (L : list LogMsg) :
  forall (ms : list Move) (i : nat) (bw : Board) (acc : list Move) (fenP : QString)
         (f : PgnFile) (ws : QString),
    status f = Ok -> rest f = ws ++ moveText i bw ms ++ tail ->
    forallb isSpace ws = true ->
    legalFrom bw ms = true ->
    (Z.of_nat (List.length acc + List.length ms) <= maxMoves)%Z ->
    (fenP = m_fen g0 /\ board f = bw)
    \/ (fenP = [] /\ acc = [] /\ ms <> []
        /\ startingFen (boardVariant (board f)) = m_fen g0
        /\ snd (setBoard (board f) (m_fen g0)) = bw) ->
    (forall f' ws', status f' = Ok -> rest f' = ws' ++ tail ->
                    forallb isSpace ws' = true -> board f' = playMoves bw ms ->
                    builds maxMoves (partial g0 (acc ++ ms) (m_fen g0)) f' lg G L) ->
    builds maxMoves (partial g0 acc fenP) f lg G L.
Proof.
  induction ms as [|m ms IH]; intros i bw acc fenP f ws Hs Hr Hws Hleg Hcap Hpos Hk.
  - destruct Hpos as [[-> Hb] | (_ & _ & Hne & _)]; [|now elim Hne].
    rewrite <- (app_nil_r acc). apply (Hk f ws); assumption.
  - cbn [legalFrom] in Hleg. apply andb_true_iff in Hleg as [Hm Hleg].
    destruct (notation bw m Hm) as [Htok Hback].
    assert (Hsize : (Z.of_nat (List.length (m_moves (partial g0 acc fenP))) < maxMoves)%Z).
    { cbn [partial m_moves]. cbn [List.length] in Hcap. lia. }
    (* the item of the move itself *)
    assert (Hmove : forall f2 ws2,
               status f2 = Ok -> board f2 = board f -> forallb isSpace ws2 = true ->
               rest f2 = ws2 ++ moveString bw m ++ " "%char
                             :: (moveText (S i) (makeMove bw m) ms ++ tail) ->
               builds maxMoves (partial g0 acc fenP) f2 lg G L).
    { intros f2 ws2 Hs2 Hb2 Hws2 Hr2.
      destruct (@readItem_move (partial g0 acc fenP) f2 ws2 (moveString bw m) _ eq_refl
                  Hs2 Hr2 Hws2 Htok) as (f3 & Hread & Hr3 & Hs3 & Hb3).
      assert (Hstep : exists f4,
                 interpretMove (partial g0 acc fenP) f3 (moveString bw m)
                 = (PgnMove, partial g0 (acc ++ [m]) (m_fen g0), f4, [])
                 /\ rest f4 = rest f3 /\ status f4 = status f3
                 /\ board f4 = makeMove bw m).
      { unfold interpretMove. cbn [partial m_hasTags negb].
        destruct Hpos as [[-> Hb] | (-> & -> & _ & Hsf & Hsb)].
        - rewrite lazyFen_set by (exact (fen_nonempty _ g0_faithful)).
          rewrite Hb3, Hb2, Hb, Hback, Hm. eexists. split; [reflexivity|].
          now repeat split.
        - unfold lazyFen, partial. cbn [m_fen board set_board].
          rewrite Hb3, Hb2, Hsf, Hsb, Hback, Hm.
          eexists. split; [reflexivity|]. now repeat split. }
      destruct Hstep as (f4 & Hint & Hr4 & Hs4 & Hb4).
      rewrite Hint in Hread.
      apply (@builds_next maxMoves (partial g0 acc fenP) f2 lg PgnMove
               (partial g0 (acc ++ [m]) (m_fen g0)) f4 G L Hs2 Hsize Hread);
        [now left|].
      cbn [PgnItem_eqb].
      apply (IH (S i) (makeMove bw m) (acc ++ [m]) (m_fen g0) f4 []).
      - congruence.
      - rewrite Hr4, Hr3. reflexivity.
      - reflexivity.
      - exact Hleg.
      - rewrite length_app. cbn [List.length] in *. lia.
      - left. split; [reflexivity | exact Hb4].
      - intros f' ws' Hs' Hr' Hws' Hb'. rewrite <- app_assoc. cbn [app].
        apply (Hk f' ws'); assumption. }
    (* the text before it: a line break every eighth move, a number every second *)
    cbn [moveText] in Hr.
    assert (Hws1 : forallb isSpace (ws ++ (if i mod 8 =? 0 then [LF] else [])) = true).
    { rewrite forallb_app, Hws. destruct (i mod 8 =? 0); reflexivity. }
    revert Hr. destruct (i mod 2 =? 0); intro Hr.
    + destruct (@readItem_moveNumber (partial g0 acc fenP) f
                  (ws ++ (if i mod 8 =? 0 then [LF] else [])) (i / 2 + 1)
                  (" "%char :: moveString bw m ++ " "%char
                     :: (moveText (S i) (makeMove bw m) ms ++ tail)) eq_refl Hs)
        as (f1 & Hread & Hr1 & Hs1 & Hb1).
      * rewrite Hr. rewrite <- ?app_assoc. cbn [qs list_ascii_of_string app].
        rewrite <- ?app_assoc. reflexivity.
      * exact Hws1.
      * apply (@builds_next maxMoves (partial g0 acc fenP) f lg PgnMoveNumber
                 (partial g0 acc fenP) f1 G L Hs Hsize Hread); [right; now left|].
        cbn [PgnItem_eqb]. apply (Hmove f1 [" "%char]); try assumption; reflexivity.
    + apply (Hmove f (ws ++ (if i mod 8 =? 0 then [LF] else []))); try assumption;
        try reflexivity.
      rewrite Hr. rewrite <- ?app_assoc. cbn [qs list_ascii_of_string app].
      rewrite <- ?app_assoc. reflexivity.
Qed.


Lemma Result_fromString_toSimpleString (r : Result) :
  r <> ResultError -> Result_fromString (toSimpleString r) = r.
Proof. destruct r; intro H; try reflexivity. now elim H. Qed.

Lemma interpretTag_body (g : PgnGame) (f : PgnFile) (name value : QString) :
  forallb (fun c => negb (Ascii.eqb c " ")) name = true ->
  interpretTag g f (tagBody name value)
  = applyTag g f name (remove_char DQUOTE (DQUOTE :: value ++ [DQUOTE])).
Proof.
  intro H. unfold interpretTag, tagBody.
  now rewrite (section_first_at _ _ H), (section_rest_at _ _ H).
Qed.

(** The builder over one written tag. *)
Lemma tag_read_back (g : PgnGame) (f : PgnFile) (ws name value tail : QString)
  (lg : list LogMsg) (G : PgnGame) (L : list LogMsg) :
  m_moves g = [] -> (0 < maxMoves)%Z -> status f = Ok ->
  rest f = ws ++ tagLine (name, value) ++ tail ->
  forallb isSpace ws = true ->
  match name with [] => False | n0 :: _ => isSpace n0 = false end ->
  lineSafe name = true -> forallb (fun c => negb (Ascii.eqb c " ")) name = true ->
  lineSafe value = true ->
  (forall f1, status f1 = Ok -> rest f1 = [LF] ++ tail -> board f1 = board f ->
     exists g1 f2,
       applyTag g f1 name (remove_char DQUOTE (DQUOTE :: value ++ [DQUOTE]))
       = (PgnTag, g1, f2, [])
       /\ builds maxMoves (set_hasTags g1 true) f2 lg G L) ->
  builds maxMoves g f lg G L.
Proof.
  intros Hm Hcap Hs Hr Hws Hn0 Hname Hsp Hval Hk.
  destruct name as [|n0 name'] eqn:Hn; [contradiction|]. rewrite <- Hn in *.
  destruct (@readItem_tag g f ws name value tail n0 name' Hm Hs Hr Hws Hn Hn0 Hname Hval)
    as (f1 & Hread & Hr1 & Hs1 & Hb1).
  destruct (Hk f1 Hs1 Hr1 Hb1) as (g1 & f2 & Happ & Hb).
  rewrite (interpretTag_body _ _ _ _ Hsp), Happ in Hread.
  apply (@builds_next maxMoves g f lg PgnTag g1 f2 G L Hs); try assumption.
  - rewrite Hm. exact Hcap.
  - right. now right.
Qed.

Variable date : QString.
Variable more : QString.

Hypothesis date_safe : lineSafe date = true.
Hypothesis setVariant_sets : forall (b : Board) (v : Variant), boardVariant (setVariant b v) = v.
Hypothesis cap_positive : (1 <= maxMoves)%Z.
Hypothesis cap_enough : (Z.of_nat (List.length (m_moves g0)) <= maxMoves)%Z.

Lemma pgnText_shape :
  pgnText g0 date ++ more
  = tagLine (qs "Date", date) ++ tagLine (qs "White", m_whitePlayer g0)
    ++ tagLine (qs "Black", m_blackPlayer g0)
    ++ tagLine (qs "Result", toSimpleString (m_result g0))
    ++ (if negb (Variant_eqb (m_variant g0) Standard)
        then tagLine (qs "Variant", variantToString (m_variant g0)) else [])
    ++ (if isRandom (m_variant g0)
           || negb (QString_eqb (m_fen g0) (startingFen (m_variant g0)))
        then tagLine (qs "FEN", m_fen g0) else [])
    ++ moveSection g0 more.
Proof.
  unfold pgnText, writtenTags, moveSection, startBoard.
  destruct (negb (Variant_eqb (m_variant g0) Standard));
    destruct (isRandom (m_variant g0)
              || negb (QString_eqb (m_fen g0) (startingFen (m_variant g0))));
    cbn [map List.concat app]; rewrite ?app_nil_r, <- ?app_assoc; cbn [app];
    rewrite <- ?app_assoc; reflexivity.
Qed.

(** From the end of the tags on: the moves and the terminator. *)
Lemma moves_and_result_read_back (f : PgnFile) (fenP : QString) :
  status f = Ok -> rest f = [LF] ++ moveSection g0 more ->
  (fenP = m_fen g0 /\ board f = startBoard g0)
  \/ (fenP = [] /\ m_moves g0 <> []
      /\ startingFen (boardVariant (board f)) = m_fen g0
      /\ boardVariant (board f) = m_variant g0) ->
  builds maxMoves (partial g0 [] fenP) f [] (readBack g0) [].
Proof.
  intros Hs Hr Hpos.
  apply (@moves_read_back (Result_toString (m_result g0) ++ LF :: LF :: more) []
           (readBack g0) [] (m_moves g0) 0 (startBoard g0) [] fenP f [LF]);
    try assumption; try reflexivity.
  - exact (moves_legal _ g0_faithful).
  - destruct Hpos as [H | (H1 & H2 & H3 & H4)]; [now left|].
    right. repeat split; try assumption.
    now rewrite (fen_loads _ g0_faithful _ H4).
  - intros f' ws' Hs' Hr' Hws' _. cbn [app].
    change (partial g0 (m_moves g0) (m_fen g0)) with (readBack g0).
    destruct (Z.ltb_spec (Z.of_nat (List.length (m_moves g0))) maxMoves) as [Hlt|Hge].
    + destruct (@readItem_terminator (readBack g0) f' ws' (m_result g0) (LF :: more)
                  eq_refl Hs' (result_known _ g0_faithful) Hr' Hws')
        as (f2 & Hread & _).
      pose proof (@builds_result maxMoves (readBack g0) f' [] _ _ f2 Hs' Hlt Hread) as Hb.
      assert (Hsame : Result_eqb (m_result g0) (m_result (readBack g0)) = true)
        by (cbn; destruct (m_result g0); reflexivity).
      rewrite Hsame in Hb. exact Hb.
    + apply builds_capped. exact Hge.
Qed.


(** From the first tag on, whatever variant the stream was opened with:
    the standard one or the record's own. *)
Lemma text_read_back (V0 : Variant) (f : PgnFile) :
  status f = Ok -> rest f = pgnText g0 date ++ more ->
  boardVariant (board f) = V0 -> V0 = Standard \/ V0 = m_variant g0 ->
  builds maxMoves (set_variant emptyGame V0) f [] (readBack g0) [].
Proof.
  intros Hs Hr Hbv HV0. rewrite pgnText_shape in Hr.
  pose proof (tagSafe_lineSafe _ (white_safe _ g0_faithful)) as Hw.
  pose proof (tagSafe_lineSafe _ (black_safe _ g0_faithful)) as Hb.
  pose proof (tagSafe_lineSafe _ (fen_safe _ g0_faithful)) as Hf.
  assert (Hres : lineSafe (toSimpleString (m_result g0)) = true).
  { pose proof (result_known _ g0_faithful) as Hk.
    destruct (m_result g0); try reflexivity. now elim Hk. }
  (* Date *)
  eapply (@tag_read_back _ f [] (qs "Date") date); try eassumption; try reflexivity; try lia.
  intros f1 Hs1 Hr1 Hb1. eexists _, _. split; [reflexivity|].
  (* White *)
  eapply (@tag_read_back _ f1 [LF] (qs "White") (m_whitePlayer g0));
    try eassumption; try reflexivity; try lia.
  intros f2 Hs2 Hr2 Hb2. eexists _, _. split; [reflexivity|].
  rewrite (remove_char_quoted _ (tagSafe_noQuote _ (white_safe _ g0_faithful))).
  (* Black *)
  eapply (@tag_read_back _ f2 [LF] (qs "Black") (m_blackPlayer g0));
    try eassumption; try reflexivity; try lia.
  intros f3 Hs3 Hr3 Hb3. eexists _, _. split; [reflexivity|].
  rewrite (remove_char_quoted _ (tagSafe_noQuote _ (black_safe _ g0_faithful))).
  (* Result *)
  eapply (@tag_read_back _ f3 [LF] (qs "Result") (toSimpleString (m_result g0)));
    try eassumption; try reflexivity; try lia.
  intros f4 Hs4 Hr4 Hb4. eexists _, _. split.
  { cbn [applyTag QString_eqb Ascii.eqb Bool.eqb andb qs list_ascii_of_string].
    rewrite remove_char_quoted
      by (pose proof (result_known _ g0_faithful) as Hk;
          destruct (m_result g0); try reflexivity; now elim Hk).
    rewrite (Result_fromString_toSimpleString (result_known _ g0_faithful)).
    assert (Hne : Result_eqb (m_result g0) ResultError = false).
    { pose proof (result_known _ g0_faithful) as Hk.
      destruct (m_result g0); try reflexivity. now elim Hk. }
    rewrite Hne. reflexivity. }
  cbn [set_variant set_hasTags set_whitePlayer set_blackPlayer set_result emptyGame
       m_whitePlayer m_blackPlayer m_moves m_fen m_variant m_isRandomVariant m_result
       m_hasTags m_round].
  assert (Hbv4 : boardVariant (board f4) = V0) by congruence.
  clear Hs Hr Hbv Hs1 Hr1 Hb1 Hs2 Hr2 Hb2 Hs3 Hr3 Hb3 Hb4.
  (* Variant, when it is written *)
  assert (Hvar : forall f5,
             status f5 = Ok -> boardVariant (board f5) = m_variant g0 ->
             rest f5 = [LF] ++ (if isRandom (m_variant g0)
                                   || negb (QString_eqb (m_fen g0)
                                              (startingFen (m_variant g0)))
                                then tagLine (qs "FEN", m_fen g0) else [])
                            ++ moveSection g0 more ->
             builds maxMoves (partial g0 [] []) f5 [] (readBack g0) []).
  { intros f5 Hs5 Hbv5 Hr5.
    destruct (isRandom (m_variant g0)
              || negb (QString_eqb (m_fen g0) (startingFen (m_variant g0)))) eqn:Hfen.
    - (* FEN *)
      eapply (@tag_read_back _ f5 [LF] (qs "FEN") (m_fen g0));
        try eassumption; try reflexivity; try lia.
      intros f6 Hs6 Hr6 Hb6. eexists _, _. split.
      { cbn [applyTag QString_eqb Ascii.eqb Bool.eqb andb qs list_ascii_of_string].
        rewrite (remove_char_quoted _ (tagSafe_noQuote _ (fen_safe _ g0_faithful))).
        rewrite (fen_loads _ g0_faithful (board f6)) by congruence. reflexivity. }
      apply moves_and_result_read_back; [exact Hs6 | exact Hr6 |].
      left. split; reflexivity.
    - cbn [app] in Hr5. apply moves_and_result_read_back; [exact Hs5 | exact Hr5 |].
      apply orb_false_iff in Hfen as [Hrand Heq]. apply negb_false_iff in Heq.
      apply QString_eqb_eq in Heq.
      right. repeat split; try assumption.
      + destruct (fen_recovered _ g0_faithful) as [H | [H | H]]; [exact H | congruence |].
        now elim H.
      + now rewrite Hbv5. }
  destruct (Variant_eqb (m_variant g0) Standard) eqn:Hstd; cbn [negb] in Hr4.
  - (* the standard variant: no tag, and the stream was opened with it *)
    apply Variant_eqb_spec in Hstd.
    assert (HV : V0 = m_variant g0) by (destruct HV0; congruence).
    cbn [app] in Hr4. rewrite HV in *.
    change (builds maxMoves (partial g0 [] []) f4 [] (readBack g0) []).
    apply Hvar; assumption.
  - apply Variant_eqb_false in Hstd.
    destruct (variant_named _ g0_faithful Hstd) as (Hsafe & Hback & Hnone).
    eapply (@tag_read_back _ f4 [LF] (qs "Variant") (variantToString (m_variant g0)));
      try eassumption; try reflexivity; try lia.
    { exact (tagSafe_lineSafe _ Hsafe). }
    intros f5 Hs5 Hr5 Hb5. eexists _, _. split.
    { cbn [applyTag QString_eqb Ascii.eqb Bool.eqb andb qs list_ascii_of_string].
      rewrite (remove_char_quoted _ (tagSafe_noQuote _ Hsafe)), Hback, Hnone.
      reflexivity. }
    apply (Hvar (set_board f5 (setVariant (board f5) (m_variant g0)))).
    + exact Hs5.
    + cbn [board set_board]. apply setVariant_sets.
    + exact Hr5.
Qed.

End ReadBack.

(** C2 (as amended).  A record with tags that is [faithful], written with
    a date that keeps to its line and read back from a stream that stands
    at the start of the text and was opened with no variant or with the
    record's own, a cap of at least one move and no fewer than the record
    has, and an engine whose notation reads back and whose [setVariant]
    sets the variant: the parse gives the record again, with the same
    player names, result, variant, starting position and moves, and
    nothing is logged.  The date is not part of a record and is lost. *)
Theorem written_game_reads_back (g : PgnGame) (date more : QString) (f : PgnFile)
  (maxMoves : Z) :
  m_hasTags g = true -> lineSafe date = true -> faithful g ->
  notationReadsBack ->
  (forall (b : Board) (v : Variant), boardVariant (setVariant b v) = v) ->
  status f = Ok -> rest f = write g date true [] ++ more ->
  isNone (variant f) = true
  \/ (variant f = m_variant g /\ boardVariant (board f) = m_variant g) ->
  (1 <= maxMoves)%Z -> (Z.of_nat (List.length (m_moves g)) <= maxMoves)%Z ->
  exists f', PgnGame_read f maxMoves = Some (readBack g, f', []).
Proof.
  intros Htags Hdate Hfaith Hnot Hset Hs Hr Hvar Hcap1 Hcap2.
  rewrite (write_tagged g date [] Htags) in Hr. cbn [app] in Hr.
  apply builds_read. unfold startGame.
  destruct (isNone (variant f)) eqn:Hnone; cbn [negb fst snd].
  - change emptyGame with (set_variant emptyGame Standard).
    apply (@text_read_back g maxMoves Hfaith Hnot date more Hdate Hset Hcap1 Hcap2);
      try assumption.
    + apply Hset.
    + now left.
  - destruct Hvar as [Hv | [Hv Hbv]]; [discriminate Hv|].
    rewrite Hv.
    apply (@text_read_back g maxMoves Hfaith Hnot date more Hdate Hset Hcap1 Hcap2);
      try assumption.
    now right.
Qed.

(** * Further properties of the codec *)

(** ** The stream is only read forward *)

Lemma readOn_refl (f : PgnFile) : readOn f f.
Proof. exists []. now repeat split. Qed.

Lemma readOn_trans (f1 f2 f3 : PgnFile) : readOn f1 f2 -> readOn f2 f3 -> readOn f1 f3.
Proof.
  intros (p1 & R1 & P1 & V1) (p2 & R2 & P2 & V2).
  exists (p1 ++ p2). repeat split; try congruence.
  - rewrite R1, R2. now rewrite app_assoc.
  - rewrite P2, P1, rev_app_distr. now rewrite app_assoc.
Qed.

Lemma advances_readOn (f f' : PgnFile) : advances f f' -> readOn f f'.
Proof. intros (p & R & P & _ & _ & V). exists p. now repeat split. Qed.

Lemma readChar_readOn (f : PgnFile) : readOn f (snd (readChar f)).
Proof.
  unfold readChar. destruct (rest f) as [|c r] eqn:Hr; cbn.
  - exists []. cbn. now repeat split.
  - exists [c]. cbn. now repeat split.
Qed.

(** The character given back by the rewind is the one just read. *)
Lemma readChar_rewind (f f1 : PgnFile) (c : ascii) :
  readChar f = (c, f1) -> isNull c = false -> rewindChar f1 = f.
Proof.
  intros Hrd Hc. destruct (rest f) as [|c0 r] eqn:Hr.
  - unfold readChar in Hrd. rewrite Hr in Hrd. injection Hrd as <- _. discriminate Hc.
  - pose proof (rewind_readChar f Hr) as H. now rewrite Hrd in H.
Qed.

Lemma scanLoop_readOn (fuel : nat) (g : PgnGame) (s : Scan) (f : PgnFile) (r : ScanEnd) :
  scanLoop fuel g s f = Some r -> readOn f (streamOf r).
Proof.
  revert s f; induction fuel as [|k IH]; intros s f H; [discriminate|].
  simpl in H. destruct (status f) eqn:Hst.
  2:{ injection H as <-. apply readOn_refl. }
  pose proof (readChar_readOn f) as Hrc.
  destruct (readChar f) as [c f1] eqn:Hrd; cbn [snd] in Hrc.
  pose proof (body_flow g s c f1) as Hfl.
  destruct (body g s c f1) as [s' f'|s' f'|i f' lg|s' f'].
  - eapply readOn_trans; [exact Hrc|].
    eapply readOn_trans; [apply advances_readOn; exact Hfl | eapply IH; exact H].
  - injection H as <-. eapply readOn_trans; [exact Hrc | apply advances_readOn; exact Hfl].
  - injection H as <-. destruct Hfl as (_ & -> & _ & _ & -> & _). cbn [streamOf].
    rewrite (@readChar_rewind f f1 "["%char Hrd eq_refl). apply readOn_refl.
  - eapply readOn_trans; [exact Hrc|].
    eapply readOn_trans; [apply advances_readOn; exact Hfl | eapply IH; exact H].
Qed.

Lemma readItem_readOn (g : PgnGame) (f : PgnFile) (i : PgnItem) (g' : PgnGame)
  (f' : PgnFile) (lg : list LogMsg) :
  readItem g f = Some (i, g', f', lg) -> readOn f f'.
Proof.
  unfold readItem, scan. intro H.
  pose proof (advances_readOn (skipWhiteSpace_advances f)) as Hws.
  destruct (scanLoop _ g scanStart (skipWhiteSpace f)) as [[s f1|i1 f1 lg1]|] eqn:Hs;
    [| |discriminate]; apply scanLoop_readOn in Hs; cbn [streamOf] in Hs.
  - pose proof (interpret_stream g s f1) as Hi. injection H as H. rewrite H in Hi.
    destruct Hi as (R & P & _ & V). destruct Hs as (p & R1 & P1 & V1).
    eapply readOn_trans; [exact Hws|]. exists p. repeat split; congruence.
  - injection H as _ _ <- _. eapply readOn_trans; eassumption.
Qed.

(** X1.  A call of [readItem] on a stream that is not at its end returns,
    and what it has read is a piece of the text from where the stream
    stood: nothing before that point is read again, the rewind at a [[]
    included.  Unless the item is an Error the piece is not empty, or the
    end of the data has been met. *)
Theorem readItem_reads_forward (g : PgnGame) (f : PgnFile) :
  status f = Ok ->
  exists i g' f' lg pre,
    readItem g f = Some (i, g', f', lg)
    /\ rest f = pre ++ rest f' /\ past f' = rev pre ++ past f
    /\ (i <> PgnError -> pre <> [] \/ status f' = ReadPastEnd).
Proof.
  intro Hst. destruct (readItem_total g f) as [[[[i g'] f'] lg] Hr].
  destruct (@readItem_readOn _ _ _ _ _ _ Hr) as (pre & R & P & _).
  exists i, g', f', lg, pre. repeat split; try assumption.
  intro Hi. pose proof (@readItem_progress _ _ _ _ _ _ Hr Hst Hi) as Hlt.
  unfold remaining in Hlt. rewrite Hst, R, length_app in Hlt.
  destruct (status f'); [|now right].
  left. intros ->. simpl in Hlt. lia.
Qed.

(** ** What an item does to the record *)

Lemma set_result_same (g : PgnGame) : set_result g (m_result g) = g.
Proof. now destruct g. Qed.

Lemma interpret_record (g : PgnGame) (s : Scan) (f : PgnFile) :
  let '(i, g', _, lg) := interpret g s f in
  m_hasTags g' = m_hasTags g /\ m_isRandomVariant g' = m_isRandomVariant g
  /\ m_round g' = m_round g
  /\ (discarded i = true -> g' = g /\ lg = [])
  /\ (i = PgnResult -> g' = set_result g (m_result g'))
  /\ (i = PgnMove ->
      m_hasTags g = true
      /\ exists m, g' = set_moves (set_fen g (m_fen g')) (m_moves g ++ [m]))
  /\ (i <> PgnMove -> m_moves g' = m_moves g).
Proof.
  split_interpret; cbn; repeat split; try discriminate; try congruence;
    try (intro Hx; now elim Hx);
    try (symmetry; apply set_result_same);
    try (match goal with H : negb (m_hasTags g) = false |- _ =>
           now apply negb_false_iff in H end);
    try (eexists; reflexivity).
Qed.

Lemma readItem_record (g : PgnGame) (f : PgnFile) (i : PgnItem) (g' : PgnGame)
  (f' : PgnFile) (lg : list LogMsg) :
  readItem g f = Some (i, g', f', lg) ->
  m_hasTags g' = m_hasTags g /\ m_isRandomVariant g' = m_isRandomVariant g
  /\ m_round g' = m_round g
  /\ (discarded i = true -> g' = g /\ lg = [])
  /\ (i = PgnResult -> g' = set_result g (m_result g'))
  /\ (i = PgnMove ->
      m_hasTags g = true
      /\ exists m, g' = set_moves (set_fen g (m_fen g')) (m_moves g ++ [m]))
  /\ (i <> PgnMove -> m_moves g' = m_moves g).
Proof.
  unfold readItem. intro H.
  destruct (scan g f) as [[s f1|i1 f1 lg1]|] eqn:Hs; [| |discriminate].
  - pose proof (interpret_record g s f1) as Hi. injection H as H. now rewrite H in Hi.
  - unfold scan in Hs. apply scanLoop_end in Hs as (-> & _).
    injection H as <- <- _ _. repeat split; try discriminate.
Qed.

(** X2.  What one item does to the record.  No call of [readItem] changes
    the [hasTags] flag, the random-variant flag or the round.  A Move
    Number, Comment, NAG or Empty item leaves the whole record as it was
    and logs nothing; a Result item changes the result only; a Move item
    is only returned once a tag has been seen, and appends one move to the
    list, all else but the starting position being kept; no other item
    changes the list of moves. *)
Theorem readItem_frame (g : PgnGame) (f : PgnFile) (i : PgnItem) (g' : PgnGame)
  (f' : PgnFile) (lg : list LogMsg) :
  readItem g f = Some (i, g', f', lg) ->
  m_hasTags g' = m_hasTags g /\ m_isRandomVariant g' = m_isRandomVariant g
  /\ m_round g' = m_round g
  /\ (discarded i = true -> g' = g /\ lg = [])
  /\ (i = PgnResult -> g' = set_result g (m_result g'))
  /\ (i = PgnMove ->
      m_hasTags g = true
      /\ exists m, g' = set_moves (set_fen g (m_fen g')) (m_moves g ++ [m]))
  /\ (i <> PgnMove -> m_moves g' = m_moves g).
Proof. exact (@readItem_record g f i g' f' lg). Qed.

(** ** Invariants of the builder *)

(** What every item keeps, and the marking of a record as tagged keeps
    too, holds of the record and the stream the builder leaves. *)
Lemma buildLoop_invariant (I : PgnGame -> PgnFile -> Prop) :
  (forall g f i g' f' lg, I g f -> readItem g f = Some (i, g', f', lg) -> I g' f') ->
  (forall g f, I g f -> I (set_hasTags g true) f) ->
  forall (fuel : nat) (maxMoves : Z) (g : PgnGame) (f : PgnFile) (lg : list LogMsg)
         (g' : PgnGame) (f' : PgnFile) (lg' : list LogMsg),
    buildLoop fuel maxMoves g f lg = Some (g', f', lg') -> I g f -> I g' f'.
Proof.
  intros Hitem Htag. induction fuel as [|k IH]; intros maxMoves g f lg g' f' lg' H HI;
    [discriminate|].
  simpl in H. destruct (status f); [|now injection H as <- <- _].
  destruct (Z.of_nat (List.length (m_moves g)) <? maxMoves)%Z;
    [|now injection H as <- <- _].
  destruct (readItem g f) as [[[[i g1] f1] l]|] eqn:Hr; [|discriminate].
  pose proof (Hitem _ _ _ _ _ _ HI Hr) as H1.
  destruct i; try (eapply IH; [exact H | auto]); try (now injection H as <- <- _).
Qed.

Lemma readItem_moves_length (g : PgnGame) (f : PgnFile) (i : PgnItem) (g' : PgnGame)
  (f' : PgnFile) (lg : list LogMsg) :
  readItem g f = Some (i, g', f', lg) ->
  List.length (m_moves g') <= S (List.length (m_moves g)).
Proof.
  intro H. apply readItem_record in H as (_ & _ & _ & _ & _ & Hm & Hn).
  destruct i; try (rewrite Hn by discriminate; lia).
  destruct (Hm eq_refl) as (_ & m & ->). cbn. rewrite length_app. cbn. lia.
Qed.

Lemma buildLoop_cap (fuel : nat) (maxMoves : Z) (g : PgnGame) (f : PgnFile)
  (lg : list LogMsg) (g' : PgnGame) (f' : PgnFile) (lg' : list LogMsg) :
  buildLoop fuel maxMoves g f lg = Some (g', f', lg') ->
  (Z.of_nat (List.length (m_moves g'))
   <= Z.max (Z.of_nat (List.length (m_moves g))) maxMoves)%Z.
Proof.
  revert g f lg; induction fuel as [|k IH]; intros g f lg H; [discriminate|].
  simpl in H. destruct (status f); [|injection H as <- _ _; lia].
  destruct (Z.ltb_spec (Z.of_nat (List.length (m_moves g))) maxMoves) as [Hlt|Hge];
    [|injection H as <- _ _; lia].
  destruct (readItem g f) as [[[[i g1] f1] l]|] eqn:Hr; [|discriminate].
  pose proof (@readItem_moves_length _ _ _ _ _ _ Hr) as Hlen.
  destruct i; try (apply IH in H; cbn [set_hasTags m_moves] in H; lia);
    try (injection H as <- _ _; lia).
Qed.

Lemma buildLoop_readOn (fuel : nat) (maxMoves : Z) (g : PgnGame) (f : PgnFile)
  (lg : list LogMsg) (g' : PgnGame) (f' : PgnFile) (lg' : list LogMsg) :
  buildLoop fuel maxMoves g f lg = Some (g', f', lg') -> readOn f f'.
Proof.
  intro H.
  refine (@buildLoop_invariant (fun _ f1 => readOn f f1) _ _
            fuel maxMoves g f lg g' f' lg' H _).
  - intros g0 f0 i g1 f1 l H0 Hr. eapply readOn_trans; [exact H0|].
    eapply readItem_readOn; exact Hr.
  - auto.
  - apply readOn_refl.
Qed.

Lemma PgnGame_read_readOn (f : PgnFile) (maxMoves : Z) (g : PgnGame) (f' : PgnFile)
  (lg : list LogMsg) :
  PgnGame_read f maxMoves = Some (g, f', lg) -> readOn f f'.
Proof.
  unfold PgnGame_read. destruct (startGame f) as [g0 f0] eqn:Hstart. intro Hr.
  assert (Hf0 : readOn f f0).
  { unfold startGame in Hstart. destruct (negb (isNone (variant f)));
      injection Hstart as _ <-; [apply readOn_refl | exists []; now repeat split]. }
  eapply readOn_trans; [exact Hf0 | eapply buildLoop_readOn; exact Hr].
Qed.

(** X3.  The builder returns on every stream and with every cap.  The
    record it leaves holds no more moves than the cap allows; with a cap
    of zero or less nothing is read at all and the record is the fresh
    one.  What the builder has read is a piece of the text from where the
    stream stood: nothing before that point is read again. *)
Theorem parse_respects_cap (f : PgnFile) (maxMoves : Z) :
  exists g f' lg,
    PgnGame_read f maxMoves = Some (g, f', lg)
    /\ (Z.of_nat (List.length (moves g)) <= Z.max 0 maxMoves)%Z
    /\ readOn f f'
    /\ ((maxMoves <= 0)%Z ->
        g = fst (startGame f) /\ f' = snd (startGame f) /\ lg = []).
Proof.
  destruct (PgnGame_read_total f maxMoves) as [[[g f'] lg] Hr].
  exists g, f', lg. split; [exact Hr|].
  pose proof (@PgnGame_read_readOn _ _ _ _ _ Hr) as Hon.
  unfold PgnGame_read in Hr. destruct (startGame f) as [g0 f0] eqn:Hstart.
  assert (Hm0 : m_moves g0 = []).
  { unfold startGame in Hstart. destruct (negb (isNone (variant f)));
      now injection Hstart as <- _. }
  repeat split.
  - pose proof (@buildLoop_cap _ _ _ _ _ _ _ _ Hr) as Hc. rewrite Hm0 in Hc.
    unfold moves. exact Hc.
  - exact Hon.
  - cbn [Nat.add buildLoop] in Hr. rewrite Hm0 in Hr. cbn [List.length Z.of_nat] in Hr.
    destruct (Z.ltb_spec 0 maxMoves); [lia|].
    destruct (status f0); now injection Hr as <- _ _.
  - cbn [Nat.add buildLoop] in Hr. rewrite Hm0 in Hr. cbn [List.length Z.of_nat] in Hr.
    destruct (Z.ltb_spec 0 maxMoves); [lia|].
    destruct (status f0); now injection Hr as _ <- _.
  - cbn [Nat.add buildLoop] in Hr. rewrite Hm0 in Hr. cbn [List.length Z.of_nat] in Hr.
    destruct (Z.ltb_spec 0 maxMoves); [lia|].
    destruct (status f0); now injection Hr as _ _ <-.
Qed.

Lemma buildLoop_flags (fuel : nat) (maxMoves : Z) (g : PgnGame) (f : PgnFile)
  (lg : list LogMsg) (g' : PgnGame) (f' : PgnFile) (lg' : list LogMsg) :
  buildLoop fuel maxMoves g f lg = Some (g', f', lg') ->
  (m_moves g <> [] -> m_hasTags g = true) ->
  m_isRandomVariant g' = m_isRandomVariant g /\ m_round g' = m_round g
  /\ (m_moves g' <> [] -> m_hasTags g' = true).
Proof.
  intros H H0.
  refine (@buildLoop_invariant
            (fun g1 _ => m_isRandomVariant g1 = m_isRandomVariant g
                         /\ m_round g1 = m_round g
                         /\ (m_moves g1 <> [] -> m_hasTags g1 = true)) _ _
            fuel maxMoves g f lg g' f' lg' H _).
  - intros g0 f0 i g1 f1 l (H1 & H2 & H3) Hr.
    apply readItem_record in Hr as (Ht & Hv & Hd & _ & _ & Hm & Hn).
    repeat split; try congruence.
    intro Hne. rewrite Ht. destruct i; try (apply H3; rewrite <- Hn by discriminate; exact Hne).
    exact (proj1 (Hm eq_refl)).
  - intros g0 f0 (H1 & H2 & H3). now repeat split.
  - now repeat split.
Qed.

(** X4.  The record a parse leaves.  Its random-variant flag is false and
    its round zero, whatever the text says: no tag sets them.  A record
    that is not empty has seen a tag, so the writer writes it whenever the
    file opens; and, the engine's standard starting position not being the
    empty string, it has a starting position. *)
Theorem parsed_record_flags (f : PgnFile) (maxMoves : Z) (g : PgnGame) (f' : PgnFile)
  (lg : list LogMsg) :
  PgnGame_read f maxMoves = Some (g, f', lg) ->
  m_isRandomVariant g = false /\ m_round g = 0%Z
  /\ (isEmpty g = false ->
      m_hasTags g = true
      /\ forall date dest, write g date true dest = dest ++ pgnText g date)
  /\ ((forall b : Board, startingFen (boardVariant b) <> []) ->
      isEmpty g = false -> PgnGame_startingFen g <> []).
Proof.
  intro Hr.
  assert (Hne : isEmpty g = false -> m_moves g <> []).
  { unfold isEmpty. destruct (m_moves g); [discriminate|]. intros _ Hx. discriminate Hx. }
  unfold PgnGame_read in Hr. destruct (startGame f) as [g0 f0] eqn:Hstart.
  assert (Hg0 : m_moves g0 = [] /\ m_fen g0 = [] /\ m_isRandomVariant g0 = false
                /\ m_round g0 = 0%Z).
  { unfold startGame in Hstart. destruct (negb (isNone (variant f)));
      injection Hstart as <- <-; now repeat split. }
  destruct Hg0 as (Hm0 & Hf0 & Hr0 & Hd0).
  destruct (@buildLoop_flags _ _ _ _ _ _ _ _ Hr) as (H1 & H2 & H3).
  { intro Hx. now elim Hx. }
  split; [congruence|]. split; [congruence|]. split.
  - intro He. pose proof (H3 (Hne He)) as Ht. split; [exact Ht|].
    intros date dest. apply write_tagged. exact Ht.
  - intros Hfen He. unfold PgnGame_startingFen.
    assert (Hrep : replayed g (board f')).
    { eapply (buildLoop_replayed Hfen); [exact Hr|]. left. now split. }
    destruct Hrep as [[Hm _] | [Hx _]]; [|exact Hx].
    now elim (Hne He).
Qed.

(** ** What is logged *)

Lemma body_scanType (g : PgnGame) (s : Scan) (c : ascii) (f : PgnFile) :
  scanType (itemType s) = true ->
  match body g s c f with
  | Continue s' _ | Break s' _ | Next s' _ => scanType (itemType s') = true
  | Return _ _ _ => True
  end.
Proof.
  intro H. unfold body, leading, opening, track.
  repeat match goal with
         | |- context [if ?b then _ else _] => destruct b eqn:?
         | |- context [match m_moves ?g with _ => _ end] => destruct (m_moves g) eqn:?
         | |- context [match str ?s with _ => _ end] => destruct (str s) eqn:?
         | |- context [let '(_, _) := readLine ?f in _] => destruct (readLine f) eqn:?
         end; try exact I; try exact H; reflexivity.
Qed.

Lemma scanLoop_scanType (fuel : nat) (g : PgnGame) (s : Scan) (f : PgnFile)
  (s' : Scan) (f' : PgnFile) :
  scanType (itemType s) = true ->
  scanLoop fuel g s f = Some (Broke s' f') -> scanType (itemType s') = true.
Proof.
  revert s f; induction fuel as [|k IH]; intros s f Hs H; [discriminate|].
  simpl in H. destruct (status f); [|now injection H as <- _].
  destruct (readChar f) as [c f1].
  pose proof (@body_scanType g s c f1 Hs) as Hb.
  destruct (body g s c f1); try discriminate; eauto.
  now injection H as <- _.
Qed.

Lemma interpret_log (g : PgnGame) (s : Scan) (f : PgnFile) :
  scanType (itemType s) = true ->
  let '(i, _, _, lg) := interpret g s f in
  (i = PgnError -> exists m, lg = [m] /\ fatal m = true)
  /\ (i <> PgnError -> Forall (fun m => warning m = true) lg).
Proof.
  intro Hs. split_interpret; cbn; split; intro Hi;
    try discriminate Hi; try (now elim Hi); try (now constructor);
    try (eexists; split; reflexivity);
    try (repeat constructor).
Qed.

Lemma readItem_log (g : PgnGame) (f : PgnFile) (i : PgnItem) (g' : PgnGame)
  (f' : PgnFile) (lg : list LogMsg) :
  readItem g f = Some (i, g', f', lg) ->
  (i = PgnError -> exists m, lg = [m] /\ fatal m = true)
  /\ (i <> PgnError -> Forall (fun m => warning m = true) lg).
Proof.
  unfold readItem. intro H.
  destruct (scan g f) as [[s f1|i1 f1 lg1]|] eqn:Hs; [| |discriminate].
  - unfold scan in Hs. apply scanLoop_scanType in Hs; [|reflexivity].
    pose proof (@interpret_log g s f1 Hs) as Hi. injection H as H. now rewrite H in Hi.
  - unfold scan in Hs. apply scanLoop_end in Hs as (-> & -> & _).
    injection H as <- _ _ <-. split.
    + intros _. eexists. split; reflexivity.
    + intro Hx. now elim Hx.
Qed.

Lemma buildLoop_log (fuel : nat) (maxMoves : Z) (g : PgnGame) (f : PgnFile)
  (lg : list LogMsg) (g' : PgnGame) (f' : PgnFile) (lg' : list LogMsg) :
  buildLoop fuel maxMoves g f lg = Some (g', f', lg') ->
  Forall (fun m => warning m = true) lg ->
  Forall (fun m => warning m = true) lg'
  \/ exists ws m, lg' = ws ++ [m; PgnErrorOnLine]
                  /\ Forall (fun m => warning m = true) ws /\ fatal m = true.
Proof.
  revert g f lg; induction fuel as [|k IH]; intros g f lg H Hlg; [discriminate|].
  simpl in H. destruct (status f); [|injection H as _ _ <-; now left].
  destruct (Z.of_nat (List.length (m_moves g)) <? maxMoves)%Z;
    [|injection H as _ _ <-; now left].
  destruct (readItem g f) as [[[[i g1] f1] l]|] eqn:Hr; [|discriminate].
  apply readItem_log in Hr as [Herr Hok].
  assert (Hgo : i <> PgnError -> Forall (fun m => warning m = true) (lg ++ l)).
  { intro Hi. apply Forall_app. split; [exact Hlg | exact (Hok Hi)]. }
  destruct i; try (eapply IH; [exact H | apply Hgo; discriminate]);
    try (injection H as _ _ <-; left; apply Hgo; discriminate).
  injection H as _ _ <-. destruct (Herr eq_refl) as (m & -> & Hm).
  right. exists lg, m. now repeat split.
Qed.

(** X5.  An Error item comes with one message that says why, and no other
    item comes with such a message: at most a warning about the result.
    So the log of a parse is a run of warnings, followed, when and only
    when an error stopped the parse, by the reason and the message that
    names the line. *)
Theorem errors_are_logged :
  (forall g f i g' f' lg,
     readItem g f = Some (i, g', f', lg) ->
     (i = PgnError -> exists m, lg = [m] /\ fatal m = true)
     /\ (i <> PgnError -> Forall (fun m => warning m = true) lg))
  /\ (forall f maxMoves g f' lg,
        PgnGame_read f maxMoves = Some (g, f', lg) ->
        Forall (fun m => warning m = true) lg
        \/ exists ws m, lg = ws ++ [m; PgnErrorOnLine]
                        /\ Forall (fun m => warning m = true) ws /\ fatal m = true).
Proof.
  split.
  - intros g f i g' f' lg. apply readItem_log.
  - intros f maxMoves g f' lg Hr. unfold PgnGame_read in Hr.
    destruct (startGame f) as [g0 f0].
    eapply buildLoop_log; [exact Hr | constructor].
Qed.

(** ** Text without a tag *)

Lemma readPast_nil (f : PgnFile) (r : QString) : rest f = r -> readPast f [] r = f.
Proof. intros <-. now destruct f. Qed.

Lemma readPast_cons (f : PgnFile) (c : ascii) (pre r : QString) :
  readPast (readPast f [c] (pre ++ r)) pre r = readPast f (c :: pre) r.
Proof. unfold readPast. cbn. now rewrite <- app_assoc. Qed.

Lemma readChar_readPast (f : PgnFile) (c : ascii) (r : QString) :
  rest f = c :: r -> readChar f = (c, readPast f [c] r).
Proof. intro H. now rewrite (readChar_cons f H). Qed.

(** While no tag has been seen, text without a [[] is read to its end and
    nothing is made of it. *)
Lemma scanLoop_skips (g : PgnGame) (l : QString) :
  m_hasTags g = false -> forallb (fun c => negb (Ascii.eqb c "[")) l = true ->
  forall (f : PgnFile) (fuel : nat),
    rest f = l -> status f = Ok -> List.length l + 2 <= fuel ->
    scanLoop fuel g scanStart f
    = Some (Broke scanStart
              (mkPgnFile (rev l ++ past f) [] ReadPastEnd (board f) (variant f))).
Proof.
  intro Hg. induction l as [|c l IH]; intros Hl f fuel Hr Hs Hf.
  - destruct fuel as [|[|fuel]]; simpl in Hf; try lia.
    cbn [scanLoop]. rewrite Hs. unfold readChar. rewrite Hr.
    unfold body. rewrite Hg. cbn. reflexivity.
  - destruct fuel as [|fuel]; simpl in Hf; try lia.
    simpl in Hl. apply andb_true_iff in Hl as [Hc Hl].
    cbn [scanLoop]. rewrite Hs, (readChar_cons f Hr).
    unfold body. rewrite Hg, Hc. cbn [scanStart itemType PgnItem_eqb negb andb].
    rewrite (IH Hl) by (cbn; (assumption || lia || reflexivity)).
    cbn. now rewrite <- app_assoc.
Qed.

(** X6.  Text that holds no [[] gives no game.  Whatever moves, comments
    or results it holds, the builder with a cap of one move or more reads
    it to its end and leaves the fresh record: no tag seen, no move, and
    nothing logged; the writer does not write that record. *)
Theorem untagged_text_is_dropped (f : PgnFile) (maxMoves : Z) :
  status f = Ok -> (0 < maxMoves)%Z ->
  forallb (fun c => negb (Ascii.eqb c "[")) (rest f) = true ->
  exists f',
    PgnGame_read f maxMoves = Some (fst (startGame f), f', [])
    /\ rest f' = [] /\ status f' = ReadPastEnd
    /\ isEmpty (fst (startGame f)) = true
    /\ forall date opens dest, write (fst (startGame f)) date opens dest = dest.
Proof.
  intros Hs Hcap Hl. unfold PgnGame_read.
  destruct (startGame f) as [g0 f0] eqn:Hstart. cbn [fst].
  assert (H0 : m_hasTags g0 = false /\ m_moves g0 = [] /\ rest f0 = rest f
               /\ status f0 = Ok).
  { unfold startGame in Hstart. destruct (negb (isNone (variant f)));
      injection Hstart as <- <-; now repeat split. }
  destruct H0 as (Hg & Hm & Hr0 & Hs0).
  pose proof (skipWhiteSpace_advances f0) as (pre & R & _ & S' & _).
  assert (Hl' : forallb (fun c => negb (Ascii.eqb c "[")) (rest (skipWhiteSpace f0)) = true).
  { rewrite <- Hr0, R, forallb_app in Hl. now apply andb_true_iff in Hl as [_ Hl]. }
  assert (Hread : exists f', readItem g0 f0 = Some (PgnEmpty, g0, f', [])
                             /\ rest f' = [] /\ status f' = ReadPastEnd).
  { unfold readItem, scan.
    rewrite (@scanLoop_skips g0 _ Hg Hl' (skipWhiteSpace f0)) by (congruence || lia).
    eexists. split; [reflexivity|]. now split. }
  destruct Hread as (f' & Hread & Hr' & Hs').
  exists f'. split.
  - cbn [Nat.add buildLoop]. rewrite Hs0, Hm. cbn [List.length Z.of_nat].
    apply Z.ltb_lt in Hcap. now rewrite Hcap, Hread.
  - repeat split; try assumption.
    + unfold isEmpty. now rewrite Hm.
    + intros date opens dest. unfold write. now rewrite Hg.
Qed.

(** ** Tokens that start with a digit *)

(** X7.  Once a tag has been seen, a token that starts with a digit is a
    Move Number and never a move: unless it is a terminator it is dropped,
    the record and the board left as they were, whatever follows the
    digit.  So castling written with zeros is silently left out of the
    game. *)
Theorem digit_token_is_discarded (g : PgnGame) (f : PgnFile) (ws : QString) (c : ascii)
  (t : QString) (e : ascii) (more : QString) :
  m_hasTags g = true -> status f = Ok ->
  rest f = ws ++ c :: t ++ e :: more -> forallb isSpace ws = true ->
  isDigit c = true -> forallb (plainChar PgnMoveNumber) t = true ->
  endsToken PgnMoveNumber e = true -> isTerminator (c :: t) = false ->
  exists f',
    readItem g f = Some (PgnMoveNumber, g, f', [])
    /\ rest f' = more /\ status f' = Ok /\ board f' = board f.
Proof.
  intros Hg Hs Hr Hws Hc Ht He Hterm.
  destruct (digit_starts c Hc) as (Hst & _ & Hsp).
  destruct (@scan_token g PgnMoveNumber f ws c t e more Hg (or_intror eq_refl)
              Hs Hr Hws Hst Ht He) as (f' & H1 & H2).
  exists f'. split; [|exact H2].
  unfold readItem. rewrite H1. unfold interpret. cbn [str itemType].
  rewrite trimmed_nospace by (simpl; rewrite Hsp; exact (plain_nospace _ _ Ht)).
  now rewrite Hterm.
Qed.

(** ** Comments *)

Lemma trimmed_spaces (t : QString) : forallb isSpace t = true -> trimmed t = [].
Proof.
  intro H. unfold trimmed.
  assert (Hd : dropWhile isSpace t = []).
  { induction t as [|c t IH]; [reflexivity|].
    simpl in H. apply andb_true_iff in H as [Hc H]. simpl. now rewrite Hc, IH. }
  now rewrite Hd.
Qed.

Lemma dropWhile_last (c : ascii) (l : QString) :
  isSpace c = false -> dropWhile isSpace (l ++ [c]) <> [].
Proof.
  intro Hc. induction l as [|x l IH]; cbn.
  - rewrite Hc. discriminate.
  - destruct (isSpace x); [exact IH | discriminate].
Qed.

Lemma trimmed_starts (c : ascii) (t : QString) :
  isSpace c = false -> trimmed (c :: t) <> [].
Proof.
  intros Hc Hx. unfold trimmed in Hx. rewrite (@dropWhile_keep _ _ _ Hc) in Hx.
  apply (f_equal (@rev ascii)) in Hx. rewrite rev_involutive in Hx. cbn [rev] in Hx.
  exact (@dropWhile_last c (rev t) Hc Hx).
Qed.

(** A comment read from its opening bracket on. *)
Lemma scanLoop_comment (g : PgnGame) (o cl : ascii) (l : QString) (t0 : QString)
  (f : PgnFile) (fuel : nat) :
  m_hasTags g = true -> commentPair o cl ->
  rest f = l -> status f = Ok -> List.length l + 2 <= fuel ->
  exists s' f',
    scanLoop fuel g (mkScan PgnComment o cl 1 t0) f = Some (Broke s' f')
    /\ itemType s' = PgnComment /\ board f' = board f
    /\ match bracketEnd (fun _ => false) o cl 1 l with
       | Closed text r => str s' = t0 ++ text /\ rest f' = r /\ status f' = Ok
       | CutAt _ _ => False
       | Exhausted => rest f' = [] /\ status f' = ReadPastEnd
       end.
Proof.
  intros Hg Hpair Hr Hs Hf.
  destruct (@scanLoop_bracket g PgnComment o cl l) with (depth := 0) (t0 := t0)
    (f := f) (fuel := fuel) as (s' & f' & H1 & H2 & H3); try assumption.
  - left. now split.
  - destruct Hpair as [[-> ->] | [-> ->]]; reflexivity.
  - destruct Hpair as [[-> ->] | [-> ->]]; reflexivity.
  - destruct Hpair as [[-> ->] | [-> ->]]; reflexivity.
  - exists s', f'. split; [exact H1|]. split; [exact H2|]. split.
    + exact (proj1 (scanLoop_end _ _ _ _ H1)).
    + rewrite bracketEnd_ext with (stop2 := fun _ => false) in H3
        by (intro x; unfold stopsItem; apply andb_false_r).
      destruct (bracketEnd (fun _ => false) o cl 1 l) eqn:Hb; try exact H3.
      exfalso. eapply bracketEnd_never_cut; eassumption.
Qed.

(** X8.  Once a tag has been seen, a comment with nothing in it, or
    nothing but white space, is an Empty item, and the builder takes an
    Empty item for the end of the game: it stops there with the record as
    it is, and what follows the comment is not read. *)
Theorem empty_comment_ends_game (g : PgnGame) (f : PgnFile) (o cl : ascii)
  (l text r : QString) :
  m_hasTags g = true -> status f = Ok -> commentPair o cl ->
  rest (skipWhiteSpace f) = o :: l ->
  bracketEnd (fun _ => false) o cl 1 l = Closed text r ->
  forallb isSpace text = true ->
  exists f',
    readItem g f = Some (PgnEmpty, g, f', [])
    /\ rest f' = r /\ status f' = Ok
    /\ forall k maxMoves lg,
         (Z.of_nat (List.length (m_moves g)) < maxMoves)%Z ->
         buildLoop (S k) maxMoves g f lg = Some (g, f', lg).
Proof.
  intros Hg Hs Hpair Hr Hb Htext.
  pose proof (skipWhiteSpace_advances f) as (_ & _ & _ & Hs0 & Hb0 & _).
  assert (Hscan : scan g f
                  = scanLoop (2 + List.length l) g (mkScan PgnComment o cl 1 [])
                      (snd (readChar (skipWhiteSpace f)))).
  { apply scan_opens_bracket; try assumption. left. now repeat split. }
  destruct (@scanLoop_comment g o cl l [] (snd (readChar (skipWhiteSpace f)))
              (2 + List.length l) Hg Hpair) as (s' & f' & H1 & H2 & H3 & H4).
  - now rewrite (readChar_cons _ Hr).
  - rewrite (readChar_cons _ Hr). cbn. congruence.
  - lia.
  - rewrite Hb in H4. destruct H4 as (H4 & H5 & H6). cbn [app] in H4.
    assert (Hread : readItem g f = Some (PgnEmpty, g, f', [])).
    { unfold readItem. rewrite Hscan, H1. unfold interpret.
      now rewrite H4, (trimmed_spaces _ Htext). }
    exists f'. repeat split; try assumption.
    intros k maxMoves lg Hlt. simpl. rewrite Hs.
    apply Z.ltb_lt in Hlt. now rewrite Hlt, Hread, app_nil_r.
Qed.

(** The loop over plain characters of a token: they are appended. *)
Lemma scanLoop_plain (g : PgnGame) (it : PgnItem) (t : QString) :
  m_hasTags g = true -> it = PgnMove \/ it = PgnMoveNumber ->
  forallb (plainChar it) t = true ->
  forall (more : QString) (c0 : ascii) (t0 : QString) (lvl : Z) (f : PgnFile) (k : nat),
    rest f = t ++ more -> status f = Ok ->
    scanLoop (List.length t + k) g (mkScan it NUL NUL lvl (c0 :: t0)) f
    = scanLoop k g (mkScan it NUL NUL lvl ((c0 :: t0) ++ t)) (readPast f t more).
Proof.
  intros Hg Hit. induction t as [|c t IH]; intros Ht more c0 t0 lvl f k Hr Hs.
  - cbn [List.length Nat.add app] in *. now rewrite app_nil_r, (readPast_nil f Hr).
  - simpl in Ht. apply andb_true_iff in Ht as [Hc Ht].
    change ((c :: t) ++ more) with (c :: (t ++ more)) in Hr.
    cbn [List.length Nat.add scanLoop]. rewrite Hs, (readChar_readPast f Hr).
    rewrite body_plain by assumption.
    pose proof (IH Ht more c0 (t0 ++ [c]) lvl (readPast f [c] (t ++ more)) k eq_refl Hs)
      as Hgo.
    cbn [app] in Hgo |- *. rewrite Hgo, readPast_cons, <- app_assoc. reflexivity.
Qed.

Lemma body_glued (g : PgnGame) (it : PgnItem) (o cl c0 : ascii) (t0 : QString)
  (f : PgnFile) :
  m_hasTags g = true -> it = PgnMove \/ it = PgnMoveNumber -> commentPair o cl ->
  body g (mkScan it NUL NUL 0 (c0 :: t0)) o f
  = Continue (mkScan PgnComment o cl 1 (c0 :: t0)) f.
Proof.
  intros Hg Hit Hpair. unfold body. rewrite Hg.
  destruct Hit as [-> | ->]; destruct Hpair as [[-> ->] | [-> ->]]; reflexivity.
Qed.

(** X9.  Once a tag has been seen, a comment that opens right after a
    token, with no white space between, takes the token with it: the item
    is a Comment whose text starts with the token, and the token is never
    looked at as a move or a move number.  The record and the board are
    left as they were. *)
Theorem comment_swallows_glued_token (g : PgnGame) (f : PgnFile) (ws : QString)
  (it : PgnItem) (c : ascii) (t : QString) (o cl : ascii) (l text r : QString) :
  m_hasTags g = true -> status f = Ok ->
  rest f = ws ++ c :: t ++ o :: l -> forallb isSpace ws = true ->
  it = PgnMove \/ it = PgnMoveNumber ->
  startsToken it c = true -> forallb (plainChar it) t = true ->
  commentPair o cl ->
  bracketEnd (fun _ => false) o cl 1 l = Closed text r ->
  exists s f',
    scan g f = Some (Broke s f')
    /\ itemType s = PgnComment /\ str s = c :: t ++ text
    /\ readItem g f = Some (PgnComment, g, f', [])
    /\ rest f' = r /\ status f' = Ok /\ board f' = board f.
Proof.
  intros Hg Hs Hr Hws Hit Hc Ht Hpair Hb.
  assert (Hsp : isSpace c = false)
    by (eapply plainChar_notSpace, startsToken_plain; eassumption).
  destruct (@skipWhiteSpace_at f _ _ _ Hr Hws Hsp) as (Hr0 & Hs0 & Hb0 & _).
  set (f1 := readPast (skipWhiteSpace f) [c] (t ++ o :: l)).
  set (f2 := readPast f1 t (o :: l)).
  set (f3 := readPast f2 [o] l).
  destruct (@scanLoop_comment g o cl l (c :: t) f3 (List.length l + 2) Hg Hpair
              eq_refl) as (s' & f' & H1 & H2 & H3 & H4).
  { cbn. congruence. }
  { lia. }
  rewrite Hb in H4. destruct H4 as (H4 & H5 & H6).
  assert (Hscan : scan g f = Some (Broke s' f')).
  { apply scan_by_fuel with (k := S (List.length t + S (List.length l + 2))).
    cbn [scanLoop]. rewrite Hs0, Hs, (readChar_readPast _ Hr0).
    rewrite (@body_starts g it c _ Hg Hit Hc).
    rewrite (@scanLoop_plain g it t Hg Hit Ht (o :: l) c [] 0%Z f1 _ eq_refl)
      by (cbn; congruence).
    cbn [scanLoop]. fold f2.
    replace (status f2) with Ok by (cbn; congruence).
    rewrite (@readChar_readPast f2 o l eq_refl). fold f3.
    cbn [app]. rewrite (@body_glued g it o cl c t f3 Hg Hit Hpair). exact H1. }
  exists s', f'. repeat split; try assumption.
  - unfold readItem. rewrite Hscan. unfold interpret. rewrite H4, H2.
    destruct (trimmed ((c :: t) ++ text)) eqn:Htr;
      [exfalso; exact (@trimmed_starts c (t ++ text) Hsp Htr) | reflexivity].
  - rewrite H3. cbn. exact Hb0.
Qed.

(** ** Lines that are passed over *)

Lemma takeLine_at (line more p : QString) :
  forallb (fun c => negb (Ascii.eqb c LF)) line = true ->
  takeLine p (line ++ LF :: more) = (line, (LF :: rev line ++ p, more)).
Proof.
  revert p; induction line as [|c line IH]; intros p H; [reflexivity|].
  simpl in H. apply andb_true_iff in H as [Hc H]. apply negb_true_iff in Hc.
  cbn [app takeLine]. rewrite Hc, (IH (c :: p) H). cbn [rev].
  now rewrite <- app_assoc.
Qed.

Lemma readLine_at (f : PgnFile) (line more : QString) :
  rest f = line ++ LF :: more ->
  forallb (fun c => negb (Ascii.eqb c LF)) line = true ->
  readLine f = (chopCR line, readPast f (line ++ [LF]) more).
Proof.
  intros Hr Hl. unfold readLine, readPast. rewrite Hr, (@takeLine_at line more (past f) Hl).
  now rewrite rev_app_distr.
Qed.

Lemma skipWhiteSpace_here (f : PgnFile) (c : ascii) (r : QString) :
  rest f = c :: r -> isSpace c = false -> skipWhiteSpace f = f.
Proof.
  intros Hr Hc. unfold skipWhiteSpace. rewrite Hr. cbn. rewrite Hc, <- Hr.
  now destruct f.
Qed.

(** X10.  A semicolon where an item starts, once a tag has been seen,
    makes the rest of the line one item: the line is consumed with its
    line feed, brackets in it are text like any other, and the record is
    left as it was.  The item is a Comment, or, when the line holds
    nothing but white space, an Empty item. *)
Theorem line_comment_is_one_item (g : PgnGame) (f : PgnFile) (line more : QString) :
  m_hasTags g = true -> status f = Ok ->
  rest (skipWhiteSpace f) = ";"%char :: line ++ LF :: more ->
  forallb (fun c => negb (Ascii.eqb c LF)) line = true ->
  readItem g f
  = Some (match trimmed (chopCR line) with [] => PgnEmpty | _ :: _ => PgnComment end,
          g, readPast (skipWhiteSpace f) (";"%char :: line ++ [LF]) more, []).
Proof.
  intros Hg Hs Hr Hl.
  pose proof (skipWhiteSpace_advances f) as (_ & _ & _ & Hs0 & _).
  assert (Hscan : scan g f
                  = Some (Broke (mkScan PgnComment NUL NUL 0 (chopCR line))
                            (readPast (skipWhiteSpace f) (";"%char :: line ++ [LF]) more))).
  { apply scan_by_fuel with (k := 1). cbn [scanLoop].
    rewrite Hs0, Hs, (@readChar_readPast _ _ _ Hr).
    unfold body. rewrite Hg. cbn [negb andb Ascii.eqb Bool.eqb LF CR orb scanStart
                                  openingBracket isNull NUL].
    unfold leading. cbn [str scanStart Ascii.eqb Bool.eqb].
    rewrite (@readLine_at (readPast (skipWhiteSpace f) [";"%char] (line ++ LF :: more))
               line more eq_refl Hl).
    unfold readPast. cbn. rewrite <- !app_assoc. reflexivity. }
  unfold readItem. rewrite Hscan. unfold interpret. cbn [str itemType].
  destruct (trimmed (chopCR line)); reflexivity.
Qed.

(** X11.  A percent sign where an item starts, once a tag has been seen,
    has the rest of its line passed over, and the loop goes on with the
    line after it, without skipping white space first.  When that line
    starts with a character that is no white space, the item is the one
    that would be read there; when it starts with white space, or is
    blank, the item is Empty, which the builder takes for the end of the
    game. *)
Theorem escape_line_is_skipped (g : PgnGame) (f : PgnFile) (line : QString) (c : ascii)
  (r : QString) :
  m_hasTags g = true -> status f = Ok ->
  rest (skipWhiteSpace f) = "%"%char :: line ++ LF :: c :: r ->
  forallb (fun c => negb (Ascii.eqb c LF)) line = true ->
  (isSpace c = false ->
   readItem g f
   = readItem g (readPast (skipWhiteSpace f) ("%"%char :: line ++ [LF]) (c :: r)))
  /\ (isSpace c = true ->
      readItem g f
      = Some (PgnEmpty, g,
              readPast (skipWhiteSpace f) ("%"%char :: line ++ [LF; c]) r, [])).
Proof.
  intros Hg Hs Hr Hl.
  pose proof (skipWhiteSpace_advances f) as (_ & _ & _ & Hs0 & _).
  set (f0 := skipWhiteSpace f) in *.
  set (f1 := readPast f0 ["%"%char] (line ++ LF :: c :: r)).
  set (f2 := readPast f0 ("%"%char :: line ++ [LF]) (c :: r)).
  assert (Hline : snd (readLine f1) = f2).
  { rewrite (@readLine_at f1 line (c :: r) eq_refl Hl). cbn [snd].
    unfold f1, f2, readPast. cbn [rev app past status board variant].
    now rewrite <- !app_assoc. }
  assert (Hpass : forall k, scanLoop (S k) g scanStart f0 = scanLoop k g scanStart f2).
  { intro k. cbn [scanLoop]. rewrite Hs0, Hs, (@readChar_readPast _ _ _ Hr). fold f1.
    unfold body. rewrite Hg. cbn [negb andb Ascii.eqb Bool.eqb LF CR orb scanStart
                                  openingBracket isNull NUL].
    unfold leading. cbn [str scanStart Ascii.eqb Bool.eqb]. now rewrite Hline. }
  split; intro Hc.
  - destruct (scan_total g f2) as [e He].
    assert (Hscan : scan g f = Some e).
    { unfold scan in He. rewrite (@skipWhiteSpace_here f2 c r eq_refl Hc) in He.
      apply scan_by_fuel with (k := S (2 + List.length (rest f2))).
      fold f0. rewrite Hpass. exact He. }
    unfold readItem. now rewrite Hscan, He.
  - assert (Hscan : scan g f
                    = Some (Broke scanStart (readPast f0 ("%"%char :: line ++ [LF; c]) r))).
    { apply scan_by_fuel with (k := 2). fold f0. rewrite Hpass.
      cbn [scanLoop]. replace (status f2) with Ok by (cbn; congruence).
      rewrite (@readChar_readPast f2 c r eq_refl).
      assert (Hb : forall f', body g scanStart c f' = Break scanStart f').
      { intro f'. unfold body. rewrite Hg.
        ascii_cases c; cbv in Hc; try discriminate Hc; reflexivity. }
      rewrite Hb. unfold f2, readPast. cbn. rewrite !rev_app_distr. cbn.
      rewrite <- !app_assoc. reflexivity. }
    unfold readItem. now rewrite Hscan.
Qed.

(** X12.  Periods where an item starts, once a tag has been seen, are
    passed over with the white space around them: the item read is the
    one that follows them.  So the periods after a move number, however
    many, and a move number written with three periods for Black read
    alike. *)
Theorem leading_periods_are_skipped (g : PgnGame) (pre r : QString) (f : PgnFile) :
  m_hasTags g = true -> status f = Ok -> rest f = pre ++ r ->
  forallb (fun c => isSpace c || Ascii.eqb c ".") pre = true ->
  readItem g f = readItem g (readPast f pre r).
Proof.
  intro Hg. revert f. induction pre as [|c pre IH]; intros f Hs Hr Hpre.
  - now rewrite (@readPast_nil f r Hr).
  - simpl in Hpre. apply andb_true_iff in Hpre as [Hc Hpre].
    change ((c :: pre) ++ r) with (c :: (pre ++ r)) in Hr.
    set (f1 := readPast f [c] (pre ++ r)).
    assert (Hstep : readItem g f = readItem g f1).
    { destruct (isSpace c) eqn:Hsp.
      - assert (Hsame : skipWhiteSpace f = skipWhiteSpace f1).
        { unfold skipWhiteSpace, f1, readPast. rewrite Hr. cbn. now rewrite Hsp. }
        unfold readItem, scan. now rewrite Hsame.
      - cbn [orb] in Hc. apply Ascii.eqb_eq in Hc. subst c.
        destruct (scan_total g f1) as [e He].
        assert (Hscan : scan g f = Some e).
        { unfold scan in He.
          apply scan_by_fuel with (k := S (2 + List.length (rest (skipWhiteSpace f1)))).
          rewrite (@skipWhiteSpace_here f "." (pre ++ r) Hr eq_refl).
          cbn [scanLoop]. rewrite Hs, (@readChar_readPast _ _ _ Hr). fold f1.
          unfold body. rewrite Hg. cbn. exact He. }
        unfold readItem. now rewrite Hscan, He. }
    rewrite Hstep, (IH f1 Hs eq_refl Hpre). unfold f1. now rewrite readPast_cons.
Qed.

(** ** Tags *)

Lemma applyTag_unknown (g : PgnGame) (f : PgnFile) (name param : QString) :
  knownTag name = false -> applyTag g f name param = (PgnTag, g, f, []).
Proof.
  unfold knownTag, applyTag. intro H.
  apply orb_false_iff in H as [H H5]. apply orb_false_iff in H as [H H4].
  apply orb_false_iff in H as [H H3]. apply orb_false_iff in H as [H1 H2].
  now rewrite H1, H2, H3, H4, H5.
Qed.

(** X13.  A tag, read before any move, whose name is not one of White,
    Black, Result, Variant and FEN is read and nothing is made of it: the record and the board are
    left as they were, and nothing is logged.  That holds of the Round
    and the Date tag too: the round of the record is not set from the
    text.  The builder marks the record as tagged and goes on. *)
Theorem unknown_tag_is_ignored (g : PgnGame) (f : PgnFile)
  (ws name value more : QString) :
  m_moves g = [] -> status f = Ok ->
  rest f = ws ++ tagLine (name, value) ++ more ->
  forallb isSpace ws = true ->
  match name with [] => False | n0 :: _ => isSpace n0 = false end ->
  lineSafe name = true -> forallb (fun c => negb (Ascii.eqb c " ")) name = true ->
  lineSafe value = true ->
  knownTag name = false ->
  exists f1,
    readItem g f = Some (PgnTag, g, f1, [])
    /\ rest f1 = LF :: more /\ status f1 = Ok /\ board f1 = board f
    /\ forall k maxMoves lg,
         (0 < maxMoves)%Z ->
         buildLoop (S k) maxMoves g f lg = buildLoop k maxMoves (set_hasTags g true) f1 lg.
Proof.
  intros Hm Hs Hr Hws Hn0 Hname Hsp Hval Hun.
  destruct name as [|n0 name'] eqn:Hn; [contradiction|]. rewrite <- Hn in *.
  destruct (@readItem_tag g f ws name value more n0 name' Hm Hs Hr Hws Hn Hn0 Hname Hval)
    as (f1 & Hread & Hr1 & Hs1 & Hb1).
  rewrite (@interpretTag_body g f1 name value Hsp) in Hread.
  rewrite (@applyTag_unknown g f1 name _ Hun) in Hread.
  exists f1. repeat split; try assumption.
  intros k maxMoves lg Hcap. simpl. rewrite Hs, Hm. cbn [List.length Z.of_nat].
  apply Z.ltb_lt in Hcap. now rewrite Hcap, Hread, app_nil_r.
Qed.

(** X14.  A Variant or a FEN tag, read before any move, that fails is not
    undone.  When the
    engine knows no variant of the name, the item is an Error, and the
    record is left with the variant that is none, the board not having
    been touched; when the engine does not load the position, the item
    is an Error, and the record is left with the string as its starting
    position, the board being as the engine left it.  Either way the
    builder stops with that record. *)
Theorem failed_tag_is_kept (g : PgnGame) (f : PgnFile) (ws value more : QString) :
  m_moves g = [] -> status f = Ok -> forallb isSpace ws = true ->
  tagSafe value = true ->
  (rest f = ws ++ tagLine (qs "Variant", value) ++ more ->
   isNone (variantFromString value) = true ->
   exists f1,
     readItem g f
     = Some (PgnError, set_variant g (variantFromString value), f1, [InvalidVariant value])
     /\ rest f1 = LF :: more /\ board f1 = board f
     /\ forall k maxMoves lg,
          (0 < maxMoves)%Z ->
          buildLoop (S k) maxMoves g f lg
          = Some (set_variant g (variantFromString value), f1,
                  lg ++ [InvalidVariant value; PgnErrorOnLine]))
  /\ (rest f = ws ++ tagLine (qs "FEN", value) ++ more ->
      fst (setBoard (board f) value) = false ->
      exists f1,
        readItem g f = Some (PgnError, set_fen g value, f1, [InvalidFen value])
        /\ rest f1 = LF :: more /\ board f1 = snd (setBoard (board f) value)
        /\ forall k maxMoves lg,
             (0 < maxMoves)%Z ->
             buildLoop (S k) maxMoves g f lg
             = Some (set_fen g value, f1, lg ++ [InvalidFen value; PgnErrorOnLine])).
Proof.
  intros Hm Hs Hws Hval.
  pose proof (@tagSafe_lineSafe value Hval) as Hline.
  pose proof (@remove_char_quoted value (@tagSafe_noQuote value Hval)) as Hq.
  assert (Hbuild : forall g1 f1 m,
             readItem g f = Some (PgnError, g1, f1, [m]) ->
             forall k maxMoves lg,
               (0 < maxMoves)%Z ->
               buildLoop (S k) maxMoves g f lg = Some (g1, f1, lg ++ [m; PgnErrorOnLine])).
  { intros g1 f1 m Hread k maxMoves lg Hcap. simpl. rewrite Hs, Hm.
    cbn [List.length Z.of_nat]. apply Z.ltb_lt in Hcap. now rewrite Hcap, Hread. }
  split; intros Hr Hbad.
  - destruct (@readItem_tag g f ws (qs "Variant") value more "V"%char (qs "ariant")
                Hm Hs Hr Hws eq_refl eq_refl eq_refl Hline)
      as (f1 & Hread & Hr1 & Hs1 & Hb1).
    rewrite (@interpretTag_body g f1 (qs "Variant") value eq_refl), Hq in Hread.
    assert (Happ : applyTag g f1 (qs "Variant") value
                   = (PgnError, set_variant g (variantFromString value), f1,
                      [InvalidVariant value])).
    { unfold applyTag. cbn [QString_eqb Ascii.eqb Bool.eqb andb qs list_ascii_of_string].
      now rewrite Hbad. }
    rewrite Happ in Hread. exists f1. repeat split; try assumption.
    now apply Hbuild.
  - destruct (@readItem_tag g f ws (qs "FEN") value more "F"%char (qs "EN")
                Hm Hs Hr Hws eq_refl eq_refl eq_refl Hline)
      as (f1 & Hread & Hr1 & Hs1 & Hb1).
    rewrite (@interpretTag_body g f1 (qs "FEN") value eq_refl), Hq in Hread.
    assert (Happ : applyTag g f1 (qs "FEN") value
                   = (PgnError, set_fen g value,
                      set_board f1 (snd (setBoard (board f) value)), [InvalidFen value])).
    { unfold applyTag. cbn [QString_eqb Ascii.eqb Bool.eqb andb qs list_ascii_of_string].
      rewrite Hb1. destruct (setBoard (board f) value) as [ok b]. cbn in Hbad |- *.
      now rewrite Hbad. }
    rewrite Happ in Hread.
    exists (set_board f1 (snd (setBoard (board f) value))).
    repeat split; try assumption. now apply Hbuild.
Qed.

(** ** The written moves *)

(** The text of the moves of a game is the text of its first moves
    followed by the text of the others, written from the index and the
    board the first moves lead to. *)
Lemma moveText_app (i : nat) (b : Board) (ms ms' : list Move) :
  moveText i b (ms ++ ms')
  = moveText i b ms ++ moveText (i + List.length ms) (playMoves b ms) ms'.
Proof.
  revert i b; induction ms as [|m ms IH]; intros i b.
  - cbn. now rewrite Nat.add_0_r.
  - cbn [app moveText List.length playMoves]. rewrite IH.
    replace (S i + List.length ms) with (i + S (List.length ms)) by lia.
    now rewrite <- !app_assoc.
Qed.

(** ** Games written one after the other *)

Lemma buildsTo_read (f : PgnFile) (maxMoves : Z) (g' : PgnGame) (lg' : list LogMsg)
  (P : PgnFile -> Prop) :
  buildsTo maxMoves (fst (startGame f)) (snd (startGame f)) [] g' lg' P ->
  exists f', PgnGame_read f maxMoves = Some (g', f', lg') /\ P f'.
Proof.
  intros (n & f' & Hn & HP). exists f'. split; [|exact HP].
  destruct (PgnGame_read_total f maxMoves) as [r' Hr'].
  unfold PgnGame_read in *. destruct (startGame f) as [g f1]. cbn [fst snd] in Hn.
  destruct (Nat.le_ge_cases n (2 + List.length (rest f1))) as [Hle|Hle].
  - exact (@buildLoop_more _ _ _ _ _ _ _ Hn Hle).
  - pose proof (@buildLoop_more _ _ _ _ _ _ _ Hr' Hle) as H'.
    rewrite Hn in H'. rewrite Hr'. symmetry. exact H'.
Qed.

Lemma buildsTo_next (maxMoves : Z) (g : PgnGame) (f : PgnFile) (lg : list LogMsg)
  (i : PgnItem) (g1 : PgnGame) (f1 : PgnFile) (g' : PgnGame) (lg' : list LogMsg)
  (P : PgnFile -> Prop) :
  status f = Ok -> (Z.of_nat (List.length (m_moves g)) < maxMoves)%Z ->
  readItem g f = Some (i, g1, f1, []) ->
  i = PgnMove \/ i = PgnMoveNumber \/ i = PgnTag ->
  buildsTo maxMoves (if PgnItem_eqb i PgnTag then set_hasTags g1 true else g1) f1 lg g' lg' P ->
  buildsTo maxMoves g f lg g' lg' P.
Proof.
  intros Hs Hlt Hr Hi (n & f' & Hn & HP). exists (S n), f'. split; [|exact HP].
  simpl. rewrite Hs. apply Z.ltb_lt in Hlt. rewrite Hlt, Hr, app_nil_r.
  destruct Hi as [-> | [-> | ->]]; exact Hn.
Qed.

Lemma buildsTo_result (maxMoves : Z) (g : PgnGame) (f : PgnFile) (lg l : list LogMsg)
  (g1 : PgnGame) (f1 : PgnFile) (P : PgnFile -> Prop) :
  status f = Ok -> (Z.of_nat (List.length (m_moves g)) < maxMoves)%Z ->
  readItem g f = Some (PgnResult, g1, f1, l) -> P f1 ->
  buildsTo maxMoves g f lg g1 (lg ++ l) P.
Proof.
  intros Hs Hlt Hr HP. exists 1, f1. split; [|exact HP]. simpl. rewrite Hs.
  apply Z.ltb_lt in Hlt. now rewrite Hlt, Hr.
Qed.

Lemma buildsTo_capped (maxMoves : Z) (g : PgnGame) (f : PgnFile) (lg : list LogMsg)
  (P : PgnFile -> Prop) :
  (maxMoves <= Z.of_nat (List.length (m_moves g)))%Z -> P f ->
  buildsTo maxMoves g f lg g lg P.
Proof.
  intros H HP. exists 1, f. split; [|exact HP]. simpl. destruct (status f); [|reflexivity].
  destruct (Z.ltb_spec (Z.of_nat (List.length (m_moves g))) maxMoves); [lia|reflexivity].
Qed.

(** While no tag has been seen, text without a [[] is passed over. *)
Lemma scanLoop_junk (g : PgnGame) (junk : QString) :
  m_hasTags g = false -> forallb (fun c => negb (Ascii.eqb c "[")) junk = true ->
  forall (r : QString) (f : PgnFile) (k : nat),
    rest f = junk ++ r -> status f = Ok ->
    scanLoop (List.length junk + k) g scanStart f
    = scanLoop k g scanStart (readPast f junk r).
Proof.
  intro Hg. induction junk as [|c junk IH]; intros Hj r f k Hr Hs.
  - cbn [List.length Nat.add app] in *. now rewrite (@readPast_nil f r Hr).
  - simpl in Hj. apply andb_true_iff in Hj as [Hc Hj].
    change ((c :: junk) ++ r) with (c :: (junk ++ r)) in Hr.
    cbn [List.length Nat.add scanLoop]. rewrite Hs, (@readChar_readPast f c _ Hr).
    unfold body. rewrite Hg, Hc. cbn [scanStart itemType PgnItem_eqb negb andb].
    rewrite (IH Hj r (readPast f [c] (junk ++ r)) k eq_refl Hs).
    now rewrite readPast_cons.
Qed.

Lemma skipSpaces_junk (junk r : QString) :
  forallb (fun c => negb (Ascii.eqb c "[")) junk = true ->
  forall p, exists sp junk',
    junk = sp ++ junk'
    /\ skipSpaces p (junk ++ "["%char :: r) = (rev sp ++ p, junk' ++ "["%char :: r)
    /\ forallb (fun c => negb (Ascii.eqb c "[")) junk' = true.
Proof.
  induction junk as [|c junk IH]; intros Hj p.
  - exists [], []. now repeat split.
  - pose proof Hj as Hj0. simpl in Hj. apply andb_true_iff in Hj as [Hc Hj].
    cbn [app skipSpaces]. destruct (isSpace c) eqn:Hsp.
    + destruct (IH Hj (c :: p)) as (sp & junk' & H1 & H2 & H3).
      exists (c :: sp), junk'. repeat split.
      * cbn. now rewrite <- H1.
      * rewrite H2. cbn [rev]. now rewrite <- app_assoc.
      * exact H3.
    + exists [], (c :: junk). now repeat split.
Qed.

Lemma body_opens_tag (g : PgnGame) (f : PgnFile) :
  m_moves g = [] ->
  body g scanStart "[" f = Continue (mkScan PgnTag "[" "]" 1 []) f.
Proof.
  intro Hm. unfold body. cbn. rewrite andb_false_r. cbn.
  unfold opening. cbn. now rewrite Hm.
Qed.

(** The first tag of a game, found behind text that holds no [[]. *)
Lemma readItem_tag_junk (g : PgnGame) (f : PgnFile) (junk name value more : QString)
  (n0 : ascii) (name' : QString) :
  m_hasTags g = false -> m_moves g = [] -> status f = Ok ->
  rest f = junk ++ tagLine (name, value) ++ more ->
  forallb (fun c => negb (Ascii.eqb c "[")) junk = true ->
  name = n0 :: name' -> isSpace n0 = false -> lineSafe name = true ->
  lineSafe value = true ->
  exists f1,
    readItem g f = Some (interpretTag g f1 (tagBody name value))
    /\ rest f1 = LF :: more /\ status f1 = Ok /\ board f1 = board f.
Proof.
  intros Hg Hm Hs Hr Hj Hname Hn0 Hsafe Hval.
  assert (Hbody : lineSafe (tagBody name value) = true).
  { unfold tagBody. rewrite lineSafe_app, Hsafe. cbn [andb].
    change (" "%char :: DQUOTE :: value ++ [DQUOTE])
      with ([" "%char; DQUOTE] ++ value ++ [DQUOTE]).
    rewrite !lineSafe_app, Hval. reflexivity. }
  set (body := tagBody name value) in *.
  set (tl := body ++ "]"%char :: LF :: more).
  assert (Hr' : rest f = junk ++ "["%char :: tl).
  { rewrite Hr. unfold tl, body, tagLine, tagBody.
    cbn [fst snd qs list_ascii_of_string app].
    f_equal. f_equal. rewrite <- !app_assoc. cbn [app]. rewrite <- !app_assoc. reflexivity. }
  destruct (@skipSpaces_junk junk tl Hj (past f)) as (sp & junk' & Hsplit & Hskip & Hj').
  set (f0 := skipWhiteSpace f).
  assert (H0 : rest f0 = junk' ++ "["%char :: tl /\ status f0 = Ok /\ board f0 = board f).
  { unfold f0, skipWhiteSpace. rewrite Hr', Hskip. now repeat split. }
  destruct H0 as (Hr0 & Hs0 & Hb0).
  set (f1 := readPast f0 junk' ("["%char :: tl)).
  set (f2 := readPast f1 ["["%char] tl).
  destruct (@scanLoop_bracket g PgnTag "[" "]" tl) with (depth := 0) (t0 := @nil ascii)
    (f := f2) (fuel := 2 + List.length tl) as (s' & f' & H1 & H2 & H3); try reflexivity.
  - now right.
  - cbn. congruence.
  - lia.
  - rewrite bracketEnd_ext with (stop2 := isNewline) in H3
      by (intro c; unfold stopsItem; apply andb_true_r).
    unfold tl in H3. rewrite (@bracketEnd_lineSafe body (LF :: more) Hbody) in H3.
    destruct H3 as (H3 & H4 & H5). cbn [app] in H3.
    assert (Hscan : scan g f = Some (Broke s' f')).
    { apply scan_by_fuel with (k := List.length junk' + S (2 + List.length tl)).
      fold f0. rewrite (@scanLoop_junk g junk' Hg Hj' _ f0 _ Hr0 Hs0). fold f1.
      cbn [scanLoop]. replace (status f1) with Ok by (cbn; congruence).
      rewrite (@readChar_readPast f1 "[" tl eq_refl). fold f2.
      rewrite (@body_opens_tag g f2 Hm). exact H1. }
    exists f'. split; [|repeat split; try assumption].
    + unfold readItem. rewrite Hscan. unfold interpret. rewrite H2, H3.
      assert (Htrim : trimmed body = body).
      { unfold body, tagBody. rewrite Hname. cbn [app].
        apply trimmed_ends with (d := DQUOTE)
                                (l' := (n0 :: name') ++ " "%char :: DQUOTE :: value);
          [|exact Hn0 | reflexivity].
        cbn [app]. rewrite <- app_assoc. reflexivity. }
      rewrite Htrim. unfold body, tagBody at 1. rewrite Hname.
      cbn [app PgnItem_eqb orb andb]. rewrite <- Hname. reflexivity.
    + pose proof (scanLoop_end _ _ _ _ H1) as (Hb & _). rewrite Hb. cbn. exact Hb0.
Qed.

(** The steps of reading a written game back, as for C2, here with the
    stream followed to where the builder leaves it. *)
Section ReadOn.

(** The record that was written, the cap of the parse, and what is to
    hold of the stream when the builder ends. *)
Variable g0 : PgnGame.
Variable maxMoves : Z.
Variable P : PgnFile -> Prop.

Hypothesis g0_faithful : faithful g0.
Hypothesis notation : notationReadsBack.

Lemma moves_read_on (tail : QString) (lg : list LogMsg) (G : PgnGame)
  (L : list LogMsg) :
  forall (ms : list Move) (i : nat) (bw : Board) (acc : list Move) (fenP : QString)
         (f : PgnFile) (ws : QString),
    status f = Ok -> rest f = ws ++ moveText i bw ms ++ tail ->
    forallb isSpace ws = true ->
    legalFrom bw ms = true ->
    (Z.of_nat (List.length acc + List.length ms) <= maxMoves)%Z ->
    (fenP = m_fen g0 /\ board f = bw)
    \/ (fenP = [] /\ acc = [] /\ ms <> []
        /\ startingFen (boardVariant (board f)) = m_fen g0
        /\ snd (setBoard (board f) (m_fen g0)) = bw) ->
    (forall f' ws', status f' = Ok -> rest f' = ws' ++ tail ->
                    forallb isSpace ws' = true -> board f' = playMoves bw ms ->
                    buildsTo maxMoves (partial g0 (acc ++ ms) (m_fen g0)) f' lg G L P) ->
    buildsTo maxMoves (partial g0 acc fenP) f lg G L P.
Proof.
  induction ms as [|m ms IH]; intros i bw acc fenP f ws Hs Hr Hws Hleg Hcap Hpos Hk.
  - destruct Hpos as [[-> Hb] | (_ & _ & Hne & _)]; [|now elim Hne].
    rewrite <- (app_nil_r acc). apply (Hk f ws); assumption.
  - cbn [legalFrom] in Hleg. apply andb_true_iff in Hleg as [Hm Hleg].
    destruct (notation bw m Hm) as [Htok Hback].
    assert (Hsize : (Z.of_nat (List.length (m_moves (partial g0 acc fenP))) < maxMoves)%Z).
    { cbn [partial m_moves]. cbn [List.length] in Hcap. lia. }
    assert (Hmove : forall f2 ws2,
               status f2 = Ok -> board f2 = board f -> forallb isSpace ws2 = true ->
               rest f2 = ws2 ++ moveString bw m ++ " "%char
                             :: (moveText (S i) (makeMove bw m) ms ++ tail) ->
               buildsTo maxMoves (partial g0 acc fenP) f2 lg G L P).
    { intros f2 ws2 Hs2 Hb2 Hws2 Hr2.
      destruct (@readItem_move (partial g0 acc fenP) f2 ws2 (moveString bw m) _ eq_refl
                  Hs2 Hr2 Hws2 Htok) as (f3 & Hread & Hr3 & Hs3 & Hb3).
      assert (Hstep : exists f4,
                 interpretMove (partial g0 acc fenP) f3 (moveString bw m)
                 = (PgnMove, partial g0 (acc ++ [m]) (m_fen g0), f4, [])
                 /\ rest f4 = rest f3 /\ status f4 = status f3
                 /\ board f4 = makeMove bw m).
      { unfold interpretMove. cbn [partial m_hasTags negb].
        destruct Hpos as [[-> Hb] | (-> & -> & _ & Hsf & Hsb)].
        - rewrite lazyFen_set by (exact (fen_nonempty _ g0_faithful)).
          rewrite Hb3, Hb2, Hb, Hback, Hm. eexists. split; [reflexivity|].
          now repeat split.
        - unfold lazyFen, partial. cbn [m_fen board set_board].
          rewrite Hb3, Hb2, Hsf, Hsb, Hback, Hm.
          eexists. split; [reflexivity|]. now repeat split. }
      destruct Hstep as (f4 & Hint & Hr4 & Hs4 & Hb4).
      rewrite Hint in Hread.
      apply (@buildsTo_next maxMoves (partial g0 acc fenP) f2 lg PgnMove
               (partial g0 (acc ++ [m]) (m_fen g0)) f4 G L P Hs2 Hsize Hread);
        [now left|].
      cbn [PgnItem_eqb].
      apply (IH (S i) (makeMove bw m) (acc ++ [m]) (m_fen g0) f4 []).
      - congruence.
      - rewrite Hr4, Hr3. reflexivity.
      - reflexivity.
      - exact Hleg.
      - rewrite length_app. cbn [List.length] in *. lia.
      - left. split; [reflexivity | exact Hb4].
      - intros f' ws' Hs' Hr' Hws' Hb'. rewrite <- app_assoc. cbn [app].
        apply (Hk f' ws'); assumption. }
    cbn [moveText] in Hr.
    assert (Hws1 : forallb isSpace (ws ++ (if i mod 8 =? 0 then [LF] else [])) = true).
    { rewrite forallb_app, Hws. destruct (i mod 8 =? 0); reflexivity. }
    revert Hr. destruct (i mod 2 =? 0); intro Hr.
    + destruct (@readItem_moveNumber (partial g0 acc fenP) f
                  (ws ++ (if i mod 8 =? 0 then [LF] else [])) (i / 2 + 1)
                  (" "%char :: moveString bw m ++ " "%char
                     :: (moveText (S i) (makeMove bw m) ms ++ tail)) eq_refl Hs)
        as (f1 & Hread & Hr1 & Hs1 & Hb1).
      * rewrite Hr. rewrite <- ?app_assoc. cbn [qs list_ascii_of_string app].
        rewrite <- ?app_assoc. reflexivity.
      * exact Hws1.
      * apply (@buildsTo_next maxMoves (partial g0 acc fenP) f lg PgnMoveNumber
                 (partial g0 acc fenP) f1 G L P Hs Hsize Hread); [right; now left|].
        cbn [PgnItem_eqb]. apply (Hmove f1 [" "%char]); try assumption; reflexivity.
    + apply (Hmove f (ws ++ (if i mod 8 =? 0 then [LF] else []))); try assumption;
        try reflexivity.
      rewrite Hr. rewrite <- ?app_assoc. cbn [qs list_ascii_of_string app].
      rewrite <- ?app_assoc. reflexivity.
Qed.

(** The builder over one written tag. *)
Lemma tag_read_on (g : PgnGame) (f : PgnFile) (ws name value tail : QString)
  (lg : list LogMsg) (G : PgnGame) (L : list LogMsg) :
  m_moves g = [] -> (0 < maxMoves)%Z -> status f = Ok ->
  rest f = ws ++ tagLine (name, value) ++ tail ->
  forallb isSpace ws = true ->
  match name with [] => False | n0 :: _ => isSpace n0 = false end ->
  lineSafe name = true -> forallb (fun c => negb (Ascii.eqb c " ")) name = true ->
  lineSafe value = true ->
  (forall f1, status f1 = Ok -> rest f1 = [LF] ++ tail -> board f1 = board f ->
     exists g1 f2,
       applyTag g f1 name (remove_char DQUOTE (DQUOTE :: value ++ [DQUOTE]))
       = (PgnTag, g1, f2, [])
       /\ buildsTo maxMoves (set_hasTags g1 true) f2 lg G L P) ->
  buildsTo maxMoves g f lg G L P.
Proof.
  intros Hm Hcap Hs Hr Hws Hn0 Hname Hsp Hval Hk.
  destruct name as [|n0 name'] eqn:Hn; [contradiction|]. rewrite <- Hn in *.
  destruct (@readItem_tag g f ws name value tail n0 name' Hm Hs Hr Hws Hn Hn0 Hname Hval)
    as (f1 & Hread & Hr1 & Hs1 & Hb1).
  destruct (Hk f1 Hs1 Hr1 Hb1) as (g1 & f2 & Happ & Hb).
  rewrite (interpretTag_body _ _ _ _ Hsp), Happ in Hread.
  apply (@buildsTo_next maxMoves g f lg PgnTag g1 f2 G L P Hs); try assumption.
  - rewrite Hm. exact Hcap.
  - right. now right.
Qed.

(** The builder over the first tag of a game, found behind text that
    holds no [[]. *)
Lemma first_tag_read_on (g : PgnGame) (f : PgnFile) (junk name value tail : QString)
  (lg : list LogMsg) (G : PgnGame) (L : list LogMsg) :
  m_hasTags g = false -> m_moves g = [] -> (0 < maxMoves)%Z -> status f = Ok ->
  rest f = junk ++ tagLine (name, value) ++ tail ->
  forallb (fun c => negb (Ascii.eqb c "[")) junk = true ->
  match name with [] => False | n0 :: _ => isSpace n0 = false end ->
  lineSafe name = true -> forallb (fun c => negb (Ascii.eqb c " ")) name = true ->
  lineSafe value = true ->
  (forall f1, status f1 = Ok -> rest f1 = [LF] ++ tail -> board f1 = board f ->
     exists g1 f2,
       applyTag g f1 name (remove_char DQUOTE (DQUOTE :: value ++ [DQUOTE]))
       = (PgnTag, g1, f2, [])
       /\ buildsTo maxMoves (set_hasTags g1 true) f2 lg G L P) ->
  buildsTo maxMoves g f lg G L P.
Proof.
  intros Hg Hm Hcap Hs Hr Hj Hn0 Hname Hsp Hval Hk.
  destruct name as [|n0 name'] eqn:Hn; [contradiction|]. rewrite <- Hn in *.
  destruct (@readItem_tag_junk g f junk name value tail n0 name' Hg Hm Hs Hr Hj Hn Hn0
              Hname Hval) as (f1 & Hread & Hr1 & Hs1 & Hb1).
  destruct (Hk f1 Hs1 Hr1 Hb1) as (g1 & f2 & Happ & Hb).
  rewrite (interpretTag_body _ _ _ _ Hsp), Happ in Hread.
  apply (@buildsTo_next maxMoves g f lg PgnTag g1 f2 G L P Hs); try assumption.
  - rewrite Hm. exact Hcap.
  - right. now right.
Qed.

Variable date : QString.
Variable more : QString.

(** The record the parse is to end with. *)
Variable G : PgnGame.

Hypothesis date_safe : lineSafe date = true.
Hypothesis setVariant_sets : forall (b : Board) (v : Variant), boardVariant (setVariant b v) = v.
Hypothesis cap_positive : (0 < maxMoves)%Z.

(** From the end of the tags on, the builder ends with [G]. *)
Hypothesis moves_read :
  forall (f : PgnFile) (fenP : QString),
    status f = Ok -> rest f = [LF] ++ moveSection g0 more ->
    (fenP = m_fen g0 /\ board f = startBoard g0)
    \/ (fenP = [] /\ m_moves g0 <> []
        /\ startingFen (boardVariant (board f)) = m_fen g0
        /\ boardVariant (board f) = m_variant g0) ->
    buildsTo maxMoves (partial g0 [] fenP) f [] G [] P.

(** From the first tag on, the text before it passed over. *)
Lemma tags_read_on (V0 : Variant) (f : PgnFile) (junk : QString) :
  status f = Ok -> rest f = junk ++ pgnText g0 date ++ more ->
  forallb (fun c => negb (Ascii.eqb c "[")) junk = true ->
  boardVariant (board f) = V0 -> V0 = Standard \/ V0 = m_variant g0 ->
  buildsTo maxMoves (set_variant emptyGame V0) f [] G [] P.
Proof.
  intros Hs Hr Hj Hbv HV0. rewrite (@pgnText_shape g0 date more) in Hr.
  pose proof (tagSafe_lineSafe _ (white_safe _ g0_faithful)) as Hw.
  pose proof (tagSafe_lineSafe _ (black_safe _ g0_faithful)) as Hb.
  pose proof (tagSafe_lineSafe _ (fen_safe _ g0_faithful)) as Hf.
  assert (Hres : lineSafe (toSimpleString (m_result g0)) = true).
  { pose proof (result_known _ g0_faithful) as Hk.
    destruct (m_result g0); try reflexivity. now elim Hk. }
  (* Date *)
  eapply (@first_tag_read_on _ f junk (qs "Date") date);
    try eassumption; try reflexivity.
  intros f1 Hs1 Hr1 Hb1. eexists _, _. split; [reflexivity|].
  (* White *)
  eapply (@tag_read_on _ f1 [LF] (qs "White") (m_whitePlayer g0));
    try eassumption; try reflexivity.
  intros f2 Hs2 Hr2 Hb2. eexists _, _. split; [reflexivity|].
  rewrite (remove_char_quoted _ (tagSafe_noQuote _ (white_safe _ g0_faithful))).
  (* Black *)
  eapply (@tag_read_on _ f2 [LF] (qs "Black") (m_blackPlayer g0));
    try eassumption; try reflexivity.
  intros f3 Hs3 Hr3 Hb3. eexists _, _. split; [reflexivity|].
  rewrite (remove_char_quoted _ (tagSafe_noQuote _ (black_safe _ g0_faithful))).
  (* Result *)
  eapply (@tag_read_on _ f3 [LF] (qs "Result") (toSimpleString (m_result g0)));
    try eassumption; try reflexivity.
  intros f4 Hs4 Hr4 Hb4. eexists _, _. split.
  { cbn [applyTag QString_eqb Ascii.eqb Bool.eqb andb qs list_ascii_of_string].
    rewrite remove_char_quoted
      by (pose proof (result_known _ g0_faithful) as Hk;
          destruct (m_result g0); try reflexivity; now elim Hk).
    rewrite (Result_fromString_toSimpleString (result_known _ g0_faithful)).
    assert (Hne : Result_eqb (m_result g0) ResultError = false).
    { pose proof (result_known _ g0_faithful) as Hk.
      destruct (m_result g0); try reflexivity. now elim Hk. }
    rewrite Hne. reflexivity. }
  cbn [set_variant set_hasTags set_whitePlayer set_blackPlayer set_result emptyGame
       m_whitePlayer m_blackPlayer m_moves m_fen m_variant m_isRandomVariant m_result
       m_hasTags m_round].
  assert (Hbv4 : boardVariant (board f4) = V0) by congruence.
  clear Hs Hr Hbv Hs1 Hr1 Hb1 Hs2 Hr2 Hb2 Hs3 Hr3 Hb3 Hb4.
  (* Variant, when it is written *)
  assert (Hvar : forall f5,
             status f5 = Ok -> boardVariant (board f5) = m_variant g0 ->
             rest f5 = [LF] ++ (if isRandom (m_variant g0)
                                   || negb (QString_eqb (m_fen g0)
                                              (startingFen (m_variant g0)))
                                then tagLine (qs "FEN", m_fen g0) else [])
                            ++ moveSection g0 more ->
             buildsTo maxMoves (partial g0 [] []) f5 [] G [] P).
  { intros f5 Hs5 Hbv5 Hr5.
    destruct (isRandom (m_variant g0)
              || negb (QString_eqb (m_fen g0) (startingFen (m_variant g0)))) eqn:Hfen.
    - (* FEN *)
      eapply (@tag_read_on _ f5 [LF] (qs "FEN") (m_fen g0));
        try eassumption; try reflexivity.
      intros f6 Hs6 Hr6 Hb6. eexists _, _. split.
      { cbn [applyTag QString_eqb Ascii.eqb Bool.eqb andb qs list_ascii_of_string].
        rewrite (remove_char_quoted _ (tagSafe_noQuote _ (fen_safe _ g0_faithful))).
        rewrite (fen_loads _ g0_faithful (board f6)) by congruence. reflexivity. }
      apply moves_read; [exact Hs6 | exact Hr6 |].
      left. split; reflexivity.
    - cbn [app] in Hr5. apply moves_read; [exact Hs5 | exact Hr5 |].
      apply orb_false_iff in Hfen as [Hrand Heq]. apply negb_false_iff in Heq.
      apply QString_eqb_eq in Heq.
      right. repeat split; try assumption.
      + destruct (fen_recovered _ g0_faithful) as [H | [H | H]]; [exact H | congruence |].
        now elim H.
      + now rewrite Hbv5. }
  destruct (Variant_eqb (m_variant g0) Standard) eqn:Hstd; cbn [negb] in Hr4.
  - apply Variant_eqb_spec in Hstd.
    assert (HV : V0 = m_variant g0) by (destruct HV0; congruence).
    cbn [app] in Hr4. rewrite HV in *.
    change (buildsTo maxMoves (partial g0 [] []) f4 [] G [] P).
    apply Hvar; assumption.
  - apply Variant_eqb_false in Hstd.
    destruct (variant_named _ g0_faithful Hstd) as (Hsafe & Hback & Hnone).
    eapply (@tag_read_on _ f4 [LF] (qs "Variant") (variantToString (m_variant g0)));
      try eassumption; try reflexivity.
    { exact (tagSafe_lineSafe _ Hsafe). }
    intros f5 Hs5 Hr5 Hb5. eexists _, _. split.
    { cbn [applyTag QString_eqb Ascii.eqb Bool.eqb andb qs list_ascii_of_string].
      rewrite (remove_char_quoted _ (tagSafe_noQuote _ Hsafe)), Hback, Hnone.
      reflexivity. }
    apply (Hvar (set_board f5 (setVariant (board f5) (m_variant g0)))).
    + exact Hs5.
    + cbn [board set_board]. apply setVariant_sets.
    + exact Hr5.
Qed.

End ReadOn.

(** From the end of the tags on, with a cap that the moves stay under: the
    moves and the terminator. *)
Lemma moves_and_result_read_on (g0 : PgnGame) (maxMoves : Z) (P : PgnFile -> Prop)
  (more : QString) (f : PgnFile) (fenP : QString) :
  faithful g0 -> notationReadsBack ->
  (Z.of_nat (List.length (m_moves g0)) < maxMoves)%Z ->
  (forall f', status f' = Ok -> rest f' = LF :: more -> P f') ->
  status f = Ok -> rest f = [LF] ++ moveSection g0 more ->
  (fenP = m_fen g0 /\ board f = startBoard g0)
  \/ (fenP = [] /\ m_moves g0 <> []
      /\ startingFen (boardVariant (board f)) = m_fen g0
      /\ boardVariant (board f) = m_variant g0) ->
  buildsTo maxMoves (partial g0 [] fenP) f [] (readBack g0) [] P.
Proof.
  intros g0_faithful notation cap_more stream_left Hs Hr Hpos.
  apply (@moves_read_on g0 maxMoves P g0_faithful notation
           (Result_toString (m_result g0) ++ LF :: LF :: more) []
           (readBack g0) [] (m_moves g0) 0 (startBoard g0) [] fenP f [LF]);
    try assumption; try reflexivity.
  - exact (moves_legal _ g0_faithful).
  - cbn [List.length Nat.add]. lia.
  - destruct Hpos as [H | (H1 & H2 & H3 & H4)]; [now left|].
    right. repeat split; try assumption.
    now rewrite (fen_loads _ g0_faithful _ H4).
  - intros f' ws' Hs' Hr' Hws' _. cbn [app].
    change (partial g0 (m_moves g0) (m_fen g0)) with (readBack g0).
    destruct (@readItem_terminator (readBack g0) f' ws' (m_result g0) (LF :: more)
                eq_refl Hs' (result_known _ g0_faithful) Hr' Hws')
      as (f2 & Hread & Hr2 & Hs2 & _).
    pose proof (@buildsTo_result maxMoves (readBack g0) f' [] _ _ f2 P Hs' cap_more Hread
                  (stream_left f2 Hs2 Hr2)) as Hb.
    assert (Hsame : Result_eqb (m_result g0) (m_result (readBack g0)) = true)
      by (cbn; destruct (m_result g0); reflexivity).
    rewrite Hsame in Hb. exact Hb.
Qed.

(** A written game read from a stream opened with no variant, the text
    before it, which holds no [[], passed over: the record comes back, and
    the stream is left before the line feed that ends the text. *)
Lemma game_read_on (g : PgnGame) (date junk more : QString) (f : PgnFile) (maxMoves : Z) :
  lineSafe date = true -> faithful g -> notationReadsBack ->
  (forall (b : Board) (v : Variant), boardVariant (setVariant b v) = v) ->
  status f = Ok -> isNone (variant f) = true ->
  rest f = junk ++ pgnText g date ++ more ->
  forallb (fun c => negb (Ascii.eqb c "[")) junk = true ->
  (Z.of_nat (List.length (m_moves g)) < maxMoves)%Z ->
  exists f',
    PgnGame_read f maxMoves = Some (readBack g, f', [])
    /\ status f' = Ok /\ rest f' = LF :: more /\ variant f' = variant f.
Proof.
  intros Hdate Hfaith Hnot Hset Hs Hnone Hr Hj Hcap.
  destruct (@buildsTo_read f maxMoves (readBack g) []
              (fun f' => status f' = Ok /\ rest f' = LF :: more))
    as (f' & Hread & Hs' & Hr').
  - unfold startGame. rewrite Hnone. cbn [negb fst snd].
    change emptyGame with (set_variant emptyGame Standard).
    apply (@tags_read_on g maxMoves _ Hfaith date more (readBack g) Hdate Hset)
      with (junk := junk); try assumption.
    + lia.
    + intros f1 fenP H1 H2 H3.
      apply (@moves_and_result_read_on g maxMoves _ more f1 fenP); try assumption.
      intros f2 H4 H5. now split.
    + apply Hset.
    + now left.
  - exists f'. repeat split; try assumption.
    destruct (@PgnGame_read_readOn _ _ _ _ _ Hread) as (_ & _ & _ & V). exact V.
Qed.

(** *** A cap that cuts the moves short *)

Lemma plain_noTagStart (it : PgnItem) (c : ascii) :
  plainChar it c = true -> negb (Ascii.eqb c "[") = true.
Proof.
  unfold plainChar, opensBracket. intro H.
  apply andb_true_iff in H as [H _]. apply andb_true_iff in H as [H _].
  apply andb_true_iff in H as [_ H]. apply negb_true_iff in H.
  apply orb_false_iff in H as [H _]. apply orb_false_iff in H as [H _].
  now rewrite H.
Qed.

Lemma plain_noTagStarts (it : PgnItem) (t : QString) :
  forallb (plainChar it) t = true ->
  forallb (fun c => negb (Ascii.eqb c "[")) t = true.
Proof.
  induction t as [|c t IH]; intro H; [reflexivity|].
  simpl in H. apply andb_true_iff in H as [Hc H]. simpl.
  now rewrite (plain_noTagStart _ _ Hc), (IH H).
Qed.

Lemma spaces_noTagStarts (ws : QString) :
  forallb isSpace ws = true -> forallb (fun c => negb (Ascii.eqb c "[")) ws = true.
Proof.
  induction ws as [|c ws IH]; intro H; [reflexivity|].
  simpl in H. apply andb_true_iff in H as [Hc H]. simpl. rewrite (IH H), andb_true_r.
  destruct (Ascii.eqb c "[") eqn:Hb; [|reflexivity].
  apply Ascii.eqb_eq in Hb. subst c. discriminate Hc.
Qed.

(** The text of legal moves holds no [[]. *)
Lemma moveText_noTagStarts (ms : list Move) :
  notationReadsBack ->
  forall (i : nat) (b : Board),
    legalFrom b ms = true ->
    forallb (fun c => negb (Ascii.eqb c "[")) (moveText i b ms) = true.
Proof.
  intro Hnot. induction ms as [|m ms IH]; intros i b Hleg; [reflexivity|].
  cbn [legalFrom] in Hleg. apply andb_true_iff in Hleg as [Hm Hleg].
  destruct (Hnot b m Hm) as [Htok _].
  cbn [moveText]. rewrite !forallb_app, (IH _ _ Hleg), andb_true_r.
  repeat (apply andb_true_iff; split).
  - destruct (i mod 8 =? 0); reflexivity.
  - destruct (i mod 2 =? 0); [|reflexivity].
    rewrite forallb_app. apply andb_true_iff. split; [|reflexivity].
    destruct (QString_number_digits (i / 2 + 1)) as (c & t & -> & Hc & Ht).
    apply (@plain_noTagStarts PgnMoveNumber). simpl.
    destruct (digit_starts c Hc) as (_ & -> & _). exact (digits_plain _ Ht).
  - destruct (moveString b m) as [|c t]; [discriminate Htok|].
    unfold moveToken in Htok. apply andb_true_iff in Htok as [Htok _].
    apply andb_true_iff in Htok as [Hc Ht].
    apply (@plain_noTagStarts PgnMove). simpl.
    now rewrite (startsToken_plain _ _ Hc), Ht.
Qed.

(** From the end of the tags on, with a cap that the moves reach: the
    moves up to the cap, and the stream left in the text of the game. *)
Lemma moves_capped_read_on (g0 : PgnGame) (maxMoves : Z) (P : PgnFile -> Prop)
  (more : QString) (f : PgnFile) (fenP : QString) :
  faithful g0 -> notationReadsBack ->
  (0 < maxMoves)%Z -> (maxMoves <= Z.of_nat (List.length (m_moves g0)))%Z ->
  (forall f' left, status f' = Ok -> rest f' = left ++ more ->
                   forallb (fun c => negb (Ascii.eqb c "[")) left = true -> P f') ->
  status f = Ok -> rest f = [LF] ++ moveSection g0 more ->
  (fenP = m_fen g0 /\ board f = startBoard g0)
  \/ (fenP = [] /\ m_moves g0 <> []
      /\ startingFen (boardVariant (board f)) = m_fen g0
      /\ boardVariant (board f) = m_variant g0) ->
  buildsTo maxMoves (partial g0 [] fenP) f []
    (partial g0 (firstn (Z.to_nat maxMoves) (m_moves g0)) (m_fen g0)) [] P.
Proof.
  intros g0_faithful notation Hpos Hcap stream_left Hs Hr Hfen.
  set (n := Z.to_nat maxMoves).
  set (ms1 := firstn n (m_moves g0)). set (ms2 := skipn n (m_moves g0)).
  assert (Hsplit : m_moves g0 = ms1 ++ ms2) by (symmetry; apply firstn_skipn).
  assert (Hlen : List.length ms1 = n) by (apply firstn_length_le; lia).
  pose proof (moves_legal _ g0_faithful) as Hleg.
  rewrite Hsplit, legalFrom_app in Hleg. apply andb_true_iff in Hleg as [Hleg1 Hleg2].
  assert (Hne : ms1 <> []).
  { intro Hx. rewrite Hx in Hlen. cbn in Hlen. lia. }
  set (tail := moveText (0 + List.length ms1) (playMoves (startBoard g0) ms1) ms2
               ++ Result_toString (m_result g0) ++ LF :: LF :: more).
  apply (@moves_read_on g0 maxMoves P g0_faithful notation tail []
           (partial g0 ms1 (m_fen g0)) [] ms1 0 (startBoard g0) [] fenP f [LF]);
    try assumption; try reflexivity.
  - rewrite Hr. unfold moveSection, tail. rewrite Hsplit at 1.
    rewrite moveText_app, <- !app_assoc. reflexivity.
  - cbn [List.length Nat.add]. lia.
  - destruct Hfen as [H | (H1 & H2 & H3 & H4)]; [now left|].
    right. repeat split; try assumption.
    now rewrite (fen_loads _ g0_faithful _ H4).
  - intros f' ws' Hs' Hr' Hws' _. cbn [app].
    apply buildsTo_capped; [cbn [partial m_moves]; lia|].
    apply (stream_left f'
             (ws' ++ moveText (0 + List.length ms1) (playMoves (startBoard g0) ms1) ms2
                  ++ Result_toString (m_result g0) ++ [LF; LF])); [exact Hs' | |].
    + rewrite Hr'. unfold tail. rewrite <- !app_assoc. reflexivity.
    + rewrite !forallb_app, (spaces_noTagStarts _ Hws'),
        (@moveText_noTagStarts ms2 notation _ _ Hleg2).
      pose proof (result_known _ g0_faithful) as Hk.
      destruct (m_result g0); try reflexivity. now elim Hk.
Qed.

(** A written game read with any cap of one move or more: the record with
    the moves up to the cap, and the stream left in the text of the game
    or at its end, before anything with a [[]. *)
Lemma game_prefix_read_on (g : PgnGame) (date junk more : QString) (f : PgnFile)
  (maxMoves : Z) :
  lineSafe date = true -> faithful g -> notationReadsBack ->
  (forall (b : Board) (v : Variant), boardVariant (setVariant b v) = v) ->
  status f = Ok -> isNone (variant f) = true ->
  rest f = junk ++ pgnText g date ++ more ->
  forallb (fun c => negb (Ascii.eqb c "[")) junk = true ->
  (0 < maxMoves)%Z ->
  exists f' left,
    PgnGame_read f maxMoves
    = Some (set_moves (readBack g) (firstn (Z.to_nat maxMoves) (m_moves g)), f', [])
    /\ status f' = Ok /\ rest f' = left ++ more
    /\ forallb (fun c => negb (Ascii.eqb c "[")) left = true
    /\ variant f' = variant f.
Proof.
  intros Hdate Hfaith Hnot Hset Hs Hnone Hr Hj Hpos.
  destruct (Z.ltb_spec (Z.of_nat (List.length (m_moves g))) maxMoves) as [Hlt|Hge].
  - destruct (@game_read_on g date junk more f maxMoves Hdate Hfaith Hnot Hset Hs Hnone
                Hr Hj Hlt) as (f' & Hread & Hs' & Hr' & Hv').
    exists f', [LF]. rewrite firstn_all2 by lia.
    replace (set_moves (readBack g) (m_moves g)) with (readBack g) by reflexivity.
    now repeat split.
  - destruct (@buildsTo_read f maxMoves
                (set_moves (readBack g) (firstn (Z.to_nat maxMoves) (m_moves g))) []
                (fun f' => status f' = Ok
                           /\ exists left, rest f' = left ++ more
                                /\ forallb (fun c => negb (Ascii.eqb c "[")) left = true))
      as (f' & Hread & Hs' & left & Hr' & Hl').
    + unfold startGame. rewrite Hnone. cbn [negb fst snd].
      change emptyGame with (set_variant emptyGame Standard).
      apply (@tags_read_on g maxMoves _ Hfaith date more _ Hdate Hset Hpos)
        with (junk := junk); try assumption.
      * intros f1 fenP H1 H2 H3.
        apply (@moves_capped_read_on g maxMoves _ more f1 fenP); try assumption.
        intros f2 left H4 H5 H6. split; [exact H4|]. now exists left.
      * apply Hset.
      * now left.
    + exists f', left. repeat split; try assumption.
      destruct (@PgnGame_read_readOn _ _ _ _ _ Hread) as (_ & _ & _ & V). exact V.
Qed.

(** X15.  A written game is found behind whatever stands before it in
    the stream, as long as that holds no [[]: the rest of a game that
    was not read to its end, a comment, white space.  The record being
    [faithful], with fewer moves than the cap, and the stream being
    opened with no variant: the parse passes the text before the first
    tag over, gives the record, logs nothing, and leaves the stream
    before the line feed that ends the text of the game. *)
Theorem game_found_behind_text (g : PgnGame) (date junk more : QString) (f : PgnFile)
  (maxMoves : Z) :
  m_hasTags g = true -> lineSafe date = true -> faithful g -> notationReadsBack ->
  (forall (b : Board) (v : Variant), boardVariant (setVariant b v) = v) ->
  status f = Ok -> isNone (variant f) = true ->
  rest f = junk ++ write g date true [] ++ more ->
  forallb (fun c => negb (Ascii.eqb c "[")) junk = true ->
  (Z.of_nat (List.length (m_moves g)) < maxMoves)%Z ->
  exists f',
    PgnGame_read f maxMoves = Some (readBack g, f', [])
    /\ status f' = Ok /\ rest f' = LF :: more.
Proof.
  intros Ht Hdate Hfaith Hnot Hset Hs Hnone Hr Hj Hcap.
  rewrite (write_tagged g date [] Ht) in Hr. cbn [app] in Hr.
  destruct (@game_read_on g date junk more f maxMoves Hdate Hfaith Hnot Hset Hs Hnone
              Hr Hj Hcap) as (f' & Hread & Hs' & Hr' & _).
  exists f'. now repeat split.
Qed.


(** X17.  Two games written one after the other to a file are read back
    one after the other, whatever the cap of the first parse.  Both
    records being [faithful] and tagged, and the stream being opened with
    no variant at the start of the text: the first parse gives the first
    record, with its moves up to the cap, and the second parse, from
    where the first one left the stream, passes over what is left of the
    first game and gives the second record; nothing is logged. *)
Theorem written_games_read_in_turn (g1 g2 : PgnGame) (date1 date2 more : QString)
  (f : PgnFile) (cap1 cap2 : Z) :
  m_hasTags g1 = true -> m_hasTags g2 = true ->
  lineSafe date1 = true -> lineSafe date2 = true ->
  faithful g1 -> faithful g2 -> notationReadsBack ->
  (forall (b : Board) (v : Variant), boardVariant (setVariant b v) = v) ->
  status f = Ok -> isNone (variant f) = true ->
  rest f = write g2 date2 true (write g1 date1 true []) ++ more ->
  (0 < cap1)%Z -> (Z.of_nat (List.length (m_moves g2)) < cap2)%Z ->
  exists f1 f2,
    PgnGame_read f cap1
    = Some (set_moves (readBack g1) (firstn (Z.to_nat cap1) (m_moves g1)), f1, [])
    /\ PgnGame_read f1 cap2 = Some (readBack g2, f2, [])
    /\ status f2 = Ok /\ rest f2 = LF :: more.
Proof.
  intros Ht1 Ht2 Hd1 Hd2 Hf1 Hf2 Hnot Hset Hs Hnone Hr Hc1 Hc2.
  rewrite (write_tagged g1 date1 [] Ht1), (write_tagged g2 date2 _ Ht2) in Hr.
  rewrite <- app_assoc in Hr.
  destruct (@game_prefix_read_on g1 date1 [] (pgnText g2 date2 ++ more) f cap1
              Hd1 Hf1 Hnot Hset Hs Hnone Hr eq_refl Hc1)
    as (f1 & left & Hread1 & Hs1 & Hr1 & Hl1 & Hv1).
  destruct (@game_read_on g2 date2 left more f1 cap2 Hd2 Hf2 Hnot Hset Hs1)
    as (f2 & Hread2 & Hs2 & Hr2 & _); try assumption.
  - congruence.
  - exists f1, f2. now repeat split.
Qed.

(** ** The end of the data *)

Lemma scanLoop_remaining (fuel : nat) (g : PgnGame) (s : Scan) (f : PgnFile) (r : ScanEnd) :
  scanLoop fuel g s f = Some r -> remaining (streamOf r) <= remaining f.
Proof.
  revert s f; induction fuel as [|k IH]; intros s f H; [discriminate|].
  simpl in H. destruct (status f) eqn:Hst.
  2:{ injection H as <-. cbn. lia. }
  pose proof (readChar_remaining f Hst) as Hrc.
  destruct (readChar f) as [c f1] eqn:Hrd; cbn [snd] in Hrc.
  pose proof (body_flow g s c f1) as Hfl.
  destruct (body g s c f1) as [s' f'|s' f'|i f' lg|s' f'].
  - apply IH in H. apply advances_remaining in Hfl. lia.
  - injection H as <-. apply advances_remaining in Hfl. cbn [streamOf]. lia.
  - injection H as <-. destruct Hfl as (_ & -> & _ & _ & -> & _). cbn [streamOf].
    rewrite (@readChar_rewind f f1 "["%char Hrd eq_refl). lia.
  - apply IH in H. apply advances_remaining in Hfl. lia.
Qed.

Lemma readItem_remaining (g : PgnGame) (f : PgnFile) (i : PgnItem) (g' : PgnGame)
  (f' : PgnFile) (lg : list LogMsg) :
  readItem g f = Some (i, g', f', lg) -> remaining f' <= remaining f.
Proof.
  unfold readItem, scan. intro H.
  pose proof (advances_remaining (skipWhiteSpace_advances f)) as Hws.
  destruct (scanLoop _ g scanStart (skipWhiteSpace f)) as [[s f1|i1 f1 lg1]|] eqn:Hs;
    [| |discriminate]; apply scanLoop_remaining in Hs; cbn [streamOf] in Hs.
  - pose proof (interpret_remaining g s f1) as Hi. injection H as H.
    rewrite H in Hi. cbn [fst snd] in Hi. lia.
  - injection H as _ _ <- _. lia.
Qed.

Lemma buildLoop_consumes (fuel : nat) (maxMoves : Z) (g : PgnGame) (f : PgnFile)
  (lg : list LogMsg) (g' : PgnGame) (f' : PgnFile) (lg' : list LogMsg) :
  buildLoop fuel maxMoves g f lg = Some (g', f', lg') ->
  remaining f' <= remaining f
  /\ (m_moves g' <> m_moves g -> remaining f' < remaining f).
Proof.
  revert g f lg; induction fuel as [|k IH]; intros g f lg H; [discriminate|].
  simpl in H. destruct (status f) eqn:Hst.
  2:{ injection H as <- <- _. split; [lia | intro Hx; now elim Hx]. }
  destruct (Z.of_nat (List.length (m_moves g)) <? maxMoves)%Z.
  2:{ injection H as <- <- _. split; [lia | intro Hx; now elim Hx]. }
  destruct (readItem g f) as [[[[i g1] f1] l]|] eqn:Hr; [|discriminate].
  pose proof (@readItem_remaining _ _ _ _ _ _ Hr) as Hle.
  pose proof (@readItem_progress _ _ _ _ _ _ Hr Hst) as Hlt.
  pose proof (@readItem_record _ _ _ _ _ _ Hr) as (_ & _ & _ & _ & _ & _ & Hm).
  destruct i;
    try (apply IH in H; destruct H as [H _];
         assert (remaining f1 < remaining f) by (apply Hlt; discriminate);
         split; [lia | intros _; lia]);
    try (injection H as <- <- _; split; [exact Hle|];
         intro Hx; elim Hx; apply Hm; discriminate).
Qed.

(** X18.  A parse that gives a record with moves has consumed some of the
    stream: strictly less is left to read than before.  So reading games
    one after the other until an empty one comes cannot go on for
    ever. *)
Theorem nonempty_parse_consumes (f : PgnFile) (maxMoves : Z) (g : PgnGame) (f' : PgnFile)
  (lg : list LogMsg) :
  PgnGame_read f maxMoves = Some (g, f', lg) -> isEmpty g = false ->
  remaining f' < remaining f.
Proof.
  unfold PgnGame_read. destruct (startGame f) as [g0 f0] eqn:Hstart. intros Hr He.
  assert (H0 : m_moves g0 = [] /\ remaining f0 = remaining f).
  { unfold startGame in Hstart. destruct (negb (isNone (variant f)));
      injection Hstart as <- <-; now split. }
  destruct H0 as [Hm0 Hrem].
  apply buildLoop_consumes in Hr as [_ Hr]. rewrite <- Hrem. apply Hr.
  rewrite Hm0. unfold isEmpty in He. destruct (m_moves g); [discriminate He | discriminate].
Qed.

(** A comment that is not closed: the loop reads to the end of the data,
    and the text it has gathered ends with the null character that the
    stream gives there. *)
Lemma scanLoop_unclosed (g : PgnGame) (o cl : ascii) (l : QString) :
  m_hasTags g = true -> commentPair o cl ->
  forall (depth : nat) (t0 : QString) (f : PgnFile) (fuel : nat),
    rest f = l -> status f = Ok -> List.length l + 2 <= fuel ->
    bracketEnd (fun _ => false) o cl (S depth) l = Exhausted ->
    exists s' f' text,
      scanLoop fuel g (mkScan PgnComment o cl (Z.of_nat (S depth)) t0) f
      = Some (Broke s' f')
      /\ itemType s' = PgnComment /\ str s' = t0 ++ text ++ [NUL]
      /\ rest f' = [] /\ status f' = ReadPastEnd.
Proof.
  intros Hg Hpair.
  assert (Hne : Ascii.eqb NUL o = false /\ Ascii.eqb NUL cl = false
                /\ isNull o = false)
    by (destruct Hpair as [[-> ->] | [-> ->]]; now repeat split).
  destruct Hne as (Ho & Hcl & Hno).
  induction l as [|c l IH]; intros depth t0 f fuel Hrest Hst Hfuel Hb.
  - destruct fuel as [|[|fuel]]; simpl in Hfuel; try lia.
    cbn [scanLoop]. rewrite Hst. unfold readChar. rewrite Hrest.
    unfold body. rewrite Hg. cbn [negb andb itemType openingBracket closingBracket].
    change (Ascii.eqb NUL LF) with false. change (Ascii.eqb NUL CR) with false.
    cbn [orb andb]. rewrite Hno. unfold track.
    cbn [itemType openingBracket closingBracket bracketLevel str PgnItem_eqb andb].
    rewrite Ho, Hcl. cbn [status].
    eexists _, _, []. split; [reflexivity|]. now repeat split.
  - destruct fuel as [|fuel]; simpl in Hfuel; try lia.
    cbn [bracketEnd] in Hb.
    cbn [scanLoop]. rewrite Hst, (@readChar_readPast f c l Hrest).
    unfold body. rewrite Hg. cbn [negb andb itemType openingBracket closingBracket
                                  PgnItem_eqb].
    rewrite andb_false_r, Hno. unfold track.
    cbn [itemType openingBracket closingBracket bracketLevel str PgnItem_eqb andb].
    destruct (Ascii.eqb c o) eqn:Hco.
    { unfold set_level. cbn [itemType openingBracket closingBracket bracketLevel str].
      replace (Z.of_nat (S depth) + 1)%Z with (Z.of_nat (S (S depth))) by lia.
      apply IH; (reflexivity || assumption || lia). }
    destruct (Ascii.eqb c cl) eqn:Hccl.
    { destruct depth as [|d]; [discriminate Hb|].
      unfold set_level. cbn [itemType openingBracket closingBracket bracketLevel str].
      replace (Z.of_nat (S (S d)) - 1)%Z with (Z.of_nat (S d)) by lia.
      destruct (Z.leb_spec (Z.of_nat (S d)) 0); [lia|].
      apply IH; (reflexivity || assumption || lia). }
    destruct (bracketEnd (fun _ => false) o cl (S depth) l) eqn:Hin; try discriminate Hb.
    unfold set_str. cbn [itemType openingBracket closingBracket bracketLevel str].
    destruct (IH depth (t0 ++ [c]) (readPast f [c] l) fuel eq_refl Hst ltac:(lia) Hin)
      as (s' & f' & text & H1 & H2 & H3 & H4).
    exists s', f', (c :: text). split; [exact H1|]. split; [exact H2|].
    split; [|exact H4]. rewrite H3, <- app_assoc. reflexivity.
Qed.

Lemma dropWhile_app_last (p : ascii -> bool) (l : QString) (c : ascii) :
  p c = false -> dropWhile p (l ++ [c]) = dropWhile p l ++ [c].
Proof.
  intro Hc. induction l as [|x l IH]; cbn.
  - now rewrite Hc.
  - destruct (p x); [exact IH | reflexivity].
Qed.

Lemma trimmed_ends_nospace (l : QString) (c : ascii) :
  isSpace c = false -> trimmed (l ++ [c]) <> [].
Proof.
  intros Hc Hx. unfold trimmed in Hx.
  rewrite (@dropWhile_app_last isSpace l c Hc), rev_app_distr in Hx.
  cbn [rev app] in Hx. rewrite (@dropWhile_keep _ _ _ Hc) in Hx.
  apply (f_equal (@List.length ascii)) in Hx. rewrite length_rev in Hx. discriminate Hx.
Qed.

(** X19.  Once a tag has been seen, a comment that is not closed before
    the end of the data takes all that is left of the text, later moves and games with it: the item
    is a Comment, the record is as it was, the stream is exhausted, and
    the builder ends the game there. *)
Theorem unclosed_comment_reads_to_end (g : PgnGame) (f : PgnFile) (o cl : ascii)
  (l : QString) :
  m_hasTags g = true -> status f = Ok -> commentPair o cl ->
  rest (skipWhiteSpace f) = o :: l ->
  bracketEnd (fun _ => false) o cl 1 l = Exhausted ->
  exists f',
    readItem g f = Some (PgnComment, g, f', [])
    /\ rest f' = [] /\ status f' = ReadPastEnd
    /\ forall k maxMoves lg,
         (Z.of_nat (List.length (m_moves g)) < maxMoves)%Z ->
         buildLoop (S (S k)) maxMoves g f lg = Some (g, f', lg).
Proof.
  intros Hg Hs Hpair Hr Hb.
  pose proof (skipWhiteSpace_advances f) as (_ & _ & _ & Hs0 & _).
  assert (Hscan : scan g f
                  = scanLoop (2 + List.length l) g (mkScan PgnComment o cl 1 [])
                      (snd (readChar (skipWhiteSpace f)))).
  { apply scan_opens_bracket; try assumption. left. now repeat split. }
  destruct (@scanLoop_unclosed g o cl l Hg Hpair 0 [] (snd (readChar (skipWhiteSpace f)))
              (2 + List.length l)) as (s' & f' & text & H1 & H2 & H3 & H4 & H5).
  - now rewrite (readChar_cons _ Hr).
  - rewrite (readChar_cons _ Hr). cbn. congruence.
  - lia.
  - exact Hb.
  - change (Z.of_nat 1) with 1%Z in H1.
    assert (Hread : readItem g f = Some (PgnComment, g, f', [])).
    { unfold readItem. rewrite Hscan, H1. unfold interpret. rewrite H3, H2.
      cbn [app]. destruct (trimmed (text ++ [NUL])) eqn:Htr;
        [exfalso; exact (@trimmed_ends_nospace text NUL eq_refl Htr) | reflexivity]. }
    exists f'. repeat split; try assumption.
    intros k maxMoves lg Hlt. cbn [buildLoop]. rewrite Hs.
    apply Z.ltb_lt in Hlt. now rewrite Hlt, Hread, H5, app_nil_r.
Qed.

(** X20.  Once a tag has been seen, a token that the data ends with is
    read like one that white space ends: the last move or the terminator of a file with no line
    feed at its end is not lost.  The item is what the text of the token
    says: the result for a terminator, and for a Move item what the move
    handler makes of it; the stream is then exhausted. *)
Theorem token_at_end_of_data (g : PgnGame) (f : PgnFile) (ws : QString) (it : PgnItem)
  (c : ascii) (t : QString) :
  m_hasTags g = true -> status f = Ok ->
  rest f = ws ++ c :: t -> forallb isSpace ws = true ->
  it = PgnMove \/ it = PgnMoveNumber ->
  startsToken it c = true -> forallb (plainChar it) t = true ->
  exists s f',
    scan g f = Some (Broke s f')
    /\ itemType s = it /\ str s = c :: t
    /\ rest f' = [] /\ status f' = ReadPastEnd /\ board f' = board f
    /\ (forall r, terminatorValue (c :: t) = Some r ->
          readItem g f
          = Some (PgnResult, set_result g r, f',
                  if Result_eqb r (m_result g) then [] else [MarkerDiffersFromTag]))
    /\ (it = PgnMove -> isTerminator (c :: t) = false ->
        readItem g f = Some (interpretMove g f' (c :: t))).
Proof.
  intros Hg Hs Hr Hws Hit Hc Ht.
  assert (Hsp : isSpace c = false)
    by (eapply plainChar_notSpace, startsToken_plain; eassumption).
  destruct (@skipWhiteSpace_at f _ _ _ Hr Hws Hsp) as (Hr0 & Hs0 & Hb0 & _).
  set (f1 := readPast (skipWhiteSpace f) [c] (t ++ [])).
  set (f2 := readPast f1 t []).
  set (s := mkScan it NUL NUL 1 (c :: t)).
  set (f' := mkPgnFile (past f2) [] ReadPastEnd (board f2) (variant f2)).
  assert (Hscan : scan g f = Some (Broke s f')).
  { apply scan_by_fuel with (k := S (List.length t + 2)).
    cbn [scanLoop]. rewrite Hs0, Hs.
    rewrite (@readChar_readPast (skipWhiteSpace f) c (t ++ [])) by now rewrite app_nil_r.
    fold f1. rewrite (@body_starts g it c _ Hg Hit Hc).
    rewrite (@scanLoop_plain g it t Hg Hit Ht [] c [] 0%Z f1 _ eq_refl)
      by (cbn; congruence).
    fold f2. cbn [scanLoop]. replace (status f2) with Ok by (cbn; congruence).
    unfold readChar. cbn [rest f2 readPast]. fold f'.
    assert (Hb : body g (mkScan it NUL NUL 0 ((c :: []) ++ t)) NUL f'
                 = Continue s f').
    { unfold body. rewrite Hg. destruct Hit as [-> | ->]; reflexivity. }
    rewrite Hb. reflexivity. }
  assert (Htrim : trimmed (c :: t) = c :: t).
  { apply trimmed_nospace. simpl. rewrite Hsp. exact (plain_nospace _ _ Ht). }
  exists s, f'. repeat split; try assumption.
  - intros r Hterm. unfold readItem. rewrite Hscan. f_equal.
    apply interpret_terminator; [exact Hit | cbn [str s]; now rewrite Htrim].
  - intros -> Hterm. unfold readItem. rewrite Hscan. unfold interpret.
    cbn [str s itemType]. rewrite Htrim, Hterm, andb_false_r. reflexivity.
Qed.

(** ** After the first move *)

Lemma interpret_closed (g : PgnGame) (s : Scan) (f : PgnFile) :
  itemType s <> PgnTag ->
  let '(i, g', _, _) := interpret g s f in
  i <> PgnTag
  /\ m_whitePlayer g' = m_whitePlayer g /\ m_blackPlayer g' = m_blackPlayer g
  /\ m_variant g' = m_variant g
  /\ (m_fen g <> [] -> m_fen g' = m_fen g).
Proof.
  intro Hs. unfold interpret.
  destruct (trimmed (str s)) as [|c0 t]; [now repeat split|].
  destruct ((PgnItem_eqb (itemType s) PgnMove || PgnItem_eqb (itemType s) PgnMoveNumber)
            && isTerminator (c0 :: t)); [now repeat split|].
  destruct (itemType s) eqn:Hit; try (now repeat split).
  - unfold interpretMove. destruct (negb (m_hasTags g)); [now repeat split|].
    unfold lazyFen. destruct (m_fen g) as [|c1 fen] eqn:Hfen.
    + cbn [board set_board].
      destruct (isLegalMove _ _); cbn; repeat split; try discriminate;
        intro Hx; now elim Hx.
    + destruct (isLegalMove _ _); cbn; repeat split; try discriminate;
        intros _; exact Hfen.
  - unfold interpretNag. destruct (toInt (c0 :: t)); [|now repeat split].
    destruct ((z <? 0)%Z || (255 <? z)%Z); now repeat split.
Qed.

(** X21.  Once the record holds a move its tags are closed: no call of
    [readItem] returns a Tag item any more, and none changes the names of
    the players, the variant or, when it has been set, the starting
    position.  Only moves are added and the result set. *)
Theorem tags_closed_after_first_move (g : PgnGame) (f : PgnFile) (i : PgnItem)
  (g' : PgnGame) (f' : PgnFile) (lg : list LogMsg) :
  readItem g f = Some (i, g', f', lg) -> m_moves g <> [] ->
  i <> PgnTag
  /\ m_whitePlayer g' = m_whitePlayer g /\ m_blackPlayer g' = m_blackPlayer g
  /\ m_variant g' = m_variant g
  /\ (m_fen g <> [] -> m_fen g' = m_fen g).
Proof.
  unfold readItem. intros H Hm.
  destruct (scan g f) as [[s f1|i1 f1 lg1]|] eqn:Hs; [| |discriminate].
  - unfold scan in Hs.
    assert (Htag : tagBeforeMoves g s).
    { eapply scanLoop_tagBeforeMoves; [|exact Hs]. intro Hx. discriminate Hx. }
    assert (Hne : itemType s <> PgnTag) by (intro Hx; exact (Hm (Htag Hx))).
    pose proof (@interpret_closed g s f1 Hne) as Hi.
    injection H as H. now rewrite H in Hi.
  - unfold scan in Hs. apply scanLoop_end in Hs as (-> & _).
    injection H as <- <- _ _. repeat split. discriminate.
Qed.

(** ** The record of a game that was played *)


(** ** Glyphs in the stream *)

Lemma body_nag_digit (g : PgnGame) (c : ascii) (t0 : QString) (f : PgnFile) :
  m_hasTags g = true -> isDigit c = true ->
  body g (mkScan PgnNag NUL NUL 0 t0) c f
  = Continue (mkScan PgnNag NUL NUL 0 (t0 ++ [c])) f.
Proof.
  intros Hg Hc. unfold body. rewrite Hg. cbn [negb andb].
  destruct t0; ascii_cases c; cbv in Hc; try discriminate Hc; reflexivity.
Qed.

Lemma body_nag_end (g : PgnGame) (e : ascii) (t0 : QString) (f : PgnFile) :
  m_hasTags g = true -> isSpace e = true ->
  body g (mkScan PgnNag NUL NUL 0 t0) e f = Break (mkScan PgnNag NUL NUL 0 t0) f.
Proof.
  intros Hg He. unfold body. rewrite Hg. cbn [negb andb].
  destruct t0; ascii_cases e; cbv in He; try discriminate He; reflexivity.
Qed.

Lemma scanLoop_nag_digits (g : PgnGame) (ds : QString) :
  m_hasTags g = true -> forallb isDigit ds = true ->
  forall (more t0 : QString) (f : PgnFile) (k : nat),
    rest f = ds ++ more -> status f = Ok ->
    scanLoop (List.length ds + k) g (mkScan PgnNag NUL NUL 0 t0) f
    = scanLoop k g (mkScan PgnNag NUL NUL 0 (t0 ++ ds)) (readPast f ds more).
Proof.
  intro Hg. induction ds as [|c ds IH]; intros Hd more t0 f k Hr Hs.
  - cbn [List.length Nat.add app] in *. now rewrite app_nil_r, (@readPast_nil f more Hr).
  - simpl in Hd. apply andb_true_iff in Hd as [Hc Hd].
    change ((c :: ds) ++ more) with (c :: (ds ++ more)) in Hr.
    cbn [List.length Nat.add scanLoop]. rewrite Hs, (@readChar_readPast f c _ Hr).
    rewrite body_nag_digit by assumption.
    rewrite (IH Hd more (t0 ++ [c]) (readPast f [c] (ds ++ more)) k eq_refl Hs).
    rewrite readPast_cons, <- app_assoc. reflexivity.
Qed.

(** X23.  Once a tag has been seen, a dollar sign where an item starts,
    the digits after it and the white space that ends them are read as
    one glyph: the digits are its text, which the glyph handler then reads
    as a number and checks.  A dollar sign with white space right after it
    is an Empty item, which the builder takes for the end of the game.
    Either way the stream is left after the white space. *)
Theorem nag_token_is_read (g : PgnGame) (f : PgnFile) (ws ds : QString) (e : ascii)
  (more : QString) :
  m_hasTags g = true -> status f = Ok ->
  rest f = ws ++ "$"%char :: ds ++ e :: more ->
  forallb isSpace ws = true -> forallb isDigit ds = true -> isSpace e = true ->
  exists f',
    rest f' = more /\ status f' = Ok /\ board f' = board f
    /\ readItem g f
       = Some (match ds with
               | [] => (PgnEmpty, g, f', [])
               | _ :: _ => interpretNag g f' ds
               end).
Proof.
  intros Hg Hs Hr Hws Hd He.
  destruct (@skipWhiteSpace_at f _ _ _ Hr Hws eq_refl) as (Hr0 & Hs0 & Hb0 & _).
  set (f1 := readPast (skipWhiteSpace f) ["$"%char] (ds ++ e :: more)).
  set (f2 := readPast f1 ds (e :: more)).
  set (f3 := readPast f2 [e] more).
  assert (Hscan : scan g f = Some (Broke (mkScan PgnNag NUL NUL 0 ds) f3)).
  { apply scan_by_fuel with (k := S (List.length ds + 1)).
    cbn [scanLoop]. rewrite Hs0, Hs, (@readChar_readPast _ _ _ Hr0). fold f1.
    assert (Hb : body g scanStart "$" f1 = Continue (mkScan PgnNag NUL NUL 0 []) f1).
    { unfold body. rewrite Hg. reflexivity. }
    rewrite Hb.
    rewrite (@scanLoop_nag_digits g ds Hg Hd (e :: more) [] f1 1 eq_refl)
      by (cbn; congruence).
    fold f2. cbn [scanLoop app]. replace (status f2) with Ok by (cbn; congruence).
    rewrite (@readChar_readPast f2 e more eq_refl). fold f3.
    now rewrite body_nag_end. }
  exists f3. split; [reflexivity|]. split; [cbn; congruence|]. split; [cbn; exact Hb0|].
  unfold readItem. rewrite Hscan. unfold interpret. cbn [str itemType].
  destruct ds as [|d ds']; [reflexivity|].
  rewrite trimmed_nospace by (exact (digits_nospace _ Hd)).
  reflexivity.
Qed.

End Properties.

(** * The theorems at concrete inputs

    Runs of the codec on the small engine [Toy.engine]. *)

Module Examples.

Import Toy.

Ltac run_to_position :=
  first [ apply reaches_here
        | eapply reaches_front;
          [split; [reflexivity | left; reflexivity] | run_to_position] ].

Lemma write_untagged_is_noop_witness :
  write (set_hasTags (tagged [1]) false) (qs "2026.11.03") true (qs "old") = qs "old".
Proof. apply write_untagged_is_noop. reflexivity. Defined.

(** The game of the random variant is written with its [Variant] and
    [FEN] lines, a standard game at the standard position with neither. *)
Lemma write_optional_tags_witness :
  write randomGame (qs "2026.11.03") true (qs "old")
  = qs "old"
    ++ qs "[Date " ++ [DQUOTE] ++ qs "2026.11.03" ++ [DQUOTE] ++ qs "]" ++ [LF]
    ++ qs "[White " ++ [DQUOTE] ++ qs "Al" ++ [DQUOTE] ++ qs "]" ++ [LF]
    ++ qs "[Black " ++ [DQUOTE] ++ qs "Bo" ++ [DQUOTE] ++ qs "]" ++ [LF]
    ++ qs "[Result " ++ [DQUOTE] ++ qs "1-0" ++ [DQUOTE] ++ qs "]" ++ [LF]
    ++ qs "[Variant " ++ [DQUOTE] ++ qs "random" ++ [DQUOTE] ++ qs "]" ++ [LF]
    ++ qs "[FEN " ++ [DQUOTE] ++ qs "ppp" ++ [DQUOTE] ++ qs "]" ++ [LF]
    ++ [LF] ++ qs "1. aa a 2. a aa 3. a a 4. aa a "
    ++ [LF] ++ qs "5. a aa 1-0" ++ [LF; LF]
  /\ write (tagged [1; 2]) (qs "2026.11.03") true (qs "old")
     = qs "old"
       ++ qs "[Date " ++ [DQUOTE] ++ qs "2026.11.03" ++ [DQUOTE] ++ qs "]" ++ [LF]
       ++ qs "[White " ++ [DQUOTE] ++ [DQUOTE] ++ qs "]" ++ [LF]
       ++ qs "[Black " ++ [DQUOTE] ++ [DQUOTE] ++ qs "]" ++ [LF]
       ++ qs "[Result " ++ [DQUOTE] ++ qs "*" ++ [DQUOTE] ++ qs "]" ++ [LF]
       ++ [LF] ++ qs "1. a aa *" ++ [LF; LF].
Proof.
  split.
  - pose proof (@write_optional_tags engine randomGame (qs "2026.11.03") (qs "old")) as H.
    cbn zeta in H. destruct H as [H _].
    destruct (H eq_refl) as (variantTag & fenTag & Hw & Hv & _ & Hf & _).
    rewrite Hw, (Hf (or_introl eq_refl)), Hv; [reflexivity | discriminate].
  - pose proof (@write_optional_tags engine (tagged [1; 2]) (qs "2026.11.03") (qs "old"))
      as H.
    cbn zeta in H. destruct H as [H _].
    destruct (H eq_refl) as (variantTag & fenTag & Hw & _ & _ & _ & _ & Hs).
    destruct (Hs eq_refl eq_refl eq_refl) as [Hv Hf].
    rewrite Hw, Hv, Hf. reflexivity.
Defined.

(** The tag said a draw, the terminator says White won. *)
Lemma terminator_sets_result_witness :
  readItem (set_result (tagged [1]) Draw) (stream (qs "1-0" ++ [LF]))
  = Some (PgnResult, set_result (tagged [1]) WhiteWins,
          position (rev (qs "1-0" ++ [LF])) [],
          [MarkerDiffersFromTag]).
Proof.
  apply (@terminator_sets_result engine (set_result (tagged [1]) Draw)
           (stream (qs "1-0" ++ [LF]))
           (position (rev (qs "1-0" ++ [LF])) [])
           (mkScan PgnMoveNumber NUL NUL 0 (qs "1-0")) WhiteWins).
  - reflexivity.
  - right. reflexivity.
  - reflexivity.
Defined.



(** After the move text "aa" the scanner comes to a [[]. *)
Lemma tag_after_moves_rewinds_witness :
  readItem (tagged [1]) (stream (qs "aa[White x]"))
  = Some (PgnError, tagged [1],
          position (rev (qs "aa")) (qs "[White x]"),
          [NoTerminationMarker]).
Proof.
  pose proof (@tag_after_moves_rewinds engine (tagged [1]) (stream (qs "aa[White x]"))
                (position (rev (qs "aa")) (qs "[White x]"))
                (mkScan PgnMove NUL NUL 0 (qs "aa")) (qs "White x]")) as H.
  destruct H as (H1 & H2 & _).
  - discriminate.
  - unfold observes. run_to_position.
  - reflexivity.
  - reflexivity.
  - reflexivity.
  - rewrite H1, H2. reflexivity.
Defined.

(** C3 as stated fails: inside a comment a [[] is text.  The record holds
    a move, the scanner comes to the [[] of "{[}", and the item is a
    Comment with the whole of it consumed. *)
Lemma bracket_inside_comment_is_text :
  m_moves (tagged [1]) <> []
  /\ observes (tagged [1]) (stream (qs "{[}"))
       (mkScan PgnComment "{" "}" 1 [])
       (position (qs "{") (qs "[}"))
  /\ readItem (tagged [1]) (stream (qs "{[}"))
     = Some (PgnComment, tagged [1],
             position (rev (qs "{[}")) [], []).
Proof.
  split; [discriminate|]. split; [|reflexivity].
  unfold observes. run_to_position.
Defined.

(** A tag cut at a line break. *)
Lemma newline_ends_item_witness :
  readItem (tagged []) (stream (qs "[White x" ++ [LF] ++ qs "y]"))
  = Some (PgnTag, set_whitePlayer (tagged []) (qs "x"),
          position (rev (qs "[White x" ++ [LF])) (qs "y]"), []).
Proof.
  pose proof (proj1 (@newline_ends_item engine) (tagged [])
                (stream (qs "[White x" ++ [LF] ++ qs "y]"))
                (position (rev (qs "[White x")) (LF :: qs "y]"))
                (mkScan PgnTag "[" "]" 1 (qs "White x")) LF (qs "y]")) as H.
  destruct H as (_ & H & _).
  - unfold observes. run_to_position.
  - reflexivity.
  - reflexivity.
  - left. reflexivity.
  - discriminate.
  - right. reflexivity.
  - rewrite H. reflexivity.
Defined.

(** C9 as stated fails: before the first tag a line feed is skipped like
    any other character.  The scanner comes to the line feed of
    "a", LF, "[White x]" with a Move item pending, and goes on to return
    the tag that follows. *)
Lemma newline_skipped_before_first_tag :
  m_hasTags (set_hasTags (tagged []) false) = false
  /\ observes (set_hasTags (tagged []) false) (stream (qs "a" ++ [LF] ++ qs "[White x]"))
       scanStart
       (position (qs "a") (LF :: qs "[White x]"))
  /\ itemType scanStart <> PgnComment
  /\ readItem (set_hasTags (tagged []) false) (stream (qs "a" ++ [LF] ++ qs "[White x]"))
     = Some (PgnTag, set_whitePlayer (set_hasTags (tagged []) false) (qs "x"),
             position (rev (qs "a" ++ [LF] ++ qs "[White x]")) [], []).
Proof.
  split; [reflexivity|]. split; [|split; [discriminate | reflexivity]].
  unfold observes. run_to_position.
Defined.

(** C5 as stated fails: a tag can end with its depth still at one, the
    closing bracket unread. *)
Lemma tag_ends_at_depth_one :
  scan (tagged []) (stream (qs "[White x" ++ [LF] ++ qs "y]"))
  = Some (Broke (mkScan PgnTag "[" "]" 1 (qs "White x"))
                (position (rev (qs "[White x" ++ [LF])) (qs "y]")))
  /\ bracketLevel (mkScan PgnTag "[" "]" 1 (qs "White x")) = 1%Z.
Proof. split; reflexivity. Defined.

Lemma startFen_nonempty (b : board_t) : startFen (b_variant b) <> [].
Proof. destruct (b_variant b); discriminate. Defined.

Lemma toy_lawful : @lawful engine.
Proof.
  constructor.
  - intros [ | | ]; discriminate.
  - intros [[ | | ] p]; reflexivity.
  - reflexivity.
  - intros b b' fen H. cbn in H. unfold set_board in H.
    destruct (validFen fen); [|discriminate H]. now injection H as <-.
  - intros b b' fen H. cbn in H |- *. unfold set_board in H |- *.
    destruct (validFen fen); [|discriminate H]. now injection H as <-.
  - intros v v' fen b H. cbn in H |- *. unfold set_board in H |- *.
    destruct (validFen fen); [|discriminate H]. now injection H as <-.
Defined.



Lemma notation_reads_back : @notationReadsBack engine.
Proof.
  intros b m H. unfold isLegalMove, engine, legal in H.
  destruct m as [|[|[|[|m]]]]; simpl in H; try discriminate H; split; reflexivity.
Defined.

Lemma randomGame_faithful : faithful randomGame.
Proof.
  constructor; try reflexivity; try discriminate.
  - intros _. repeat split.
  - intros b Hb. cbn in Hb |- *. unfold set_board. cbn.
    destruct b as [v p]. cbn in Hb. subst v. reflexivity.
  - left. discriminate.
Defined.

(** The random game, written and read back. *)
Lemma written_game_reads_back_witness :
  exists f',
    PgnGame_read (stream (write randomGame (qs "2026.11.03") true [] ++ [])) 100
    = Some (readBack randomGame, f', []).
Proof.
  apply (@written_game_reads_back engine randomGame (qs "2026.11.03") []
           (stream (write randomGame (qs "2026.11.03") true [] ++ [])) 100%Z).
  - reflexivity.
  - reflexivity.
  - exact randomGame_faithful.
  - exact notation_reads_back.
  - intros b v. reflexivity.
  - reflexivity.
  - reflexivity.
  - left. reflexivity.
  - discriminate.
  - discriminate.
Defined.

(** C2 as stated fails: the writer puts a name between double quotes as
    it is, and the parser drops every double quote of a value.  The game
    of the player whose name is a, a double quote, b is read back with the
    player named ab; all else is as it was. *)
Lemma quote_in_name_is_lost :
  m_hasTags quotedGame = true
  /\ (exists f',
        PgnGame_read (stream (write quotedGame (qs "2026.11.03") true [])) 100
        = Some (set_whitePlayer quotedGame (qs "ab"), f', []))
  /\ m_whitePlayer (set_whitePlayer quotedGame (qs "ab")) <> m_whitePlayer quotedGame.
Proof.
  split; [reflexivity|]. split; [|discriminate].
  eexists. vm_compute. reflexivity.
Defined.

(** ** The further properties at concrete inputs *)

Lemma readItem_reads_forward_witness :
  exists i g' f' lg pre,
    readItem (tagged [1]) (stream (qs "aa b")) = Some (i, g', f', lg)
    /\ rest (stream (qs "aa b")) = pre ++ rest f'
    /\ past f' = rev pre ++ past (stream (qs "aa b"))
    /\ (i <> PgnError -> pre <> [] \/ status f' = ReadPastEnd).
Proof. apply (@readItem_reads_forward engine). reflexivity. Defined.

(** A move number is read and the record is as it was. *)
Lemma readItem_frame_witness :
  readItem (tagged [1]) (stream (qs "12. a"))
  = Some (PgnMoveNumber, tagged [1], position (rev (qs "12.")) (qs " a"), [])
  /\ (discarded PgnMoveNumber = true -> tagged [1] = tagged [1] /\ @nil LogMsg = []).
Proof.
  pose proof (@readItem_frame engine (tagged [1]) (stream (qs "12. a")) PgnMoveNumber
                (tagged [1]) (position (rev (qs "12.")) (qs " a")) [] eq_refl) as H.
  split; [reflexivity | apply H].
Defined.

(** A game of two moves in the random variant: the record is not empty,
    it has seen a tag, the writer writes it and it has the variant's
    starting position; the flag of the record stays false. *)
Lemma parsed_record_flags_witness :
  let g := @mkPgnGame engine [] [] [2; 1] (qs "ppp") RandomV false NoResult true 0 in
  (exists f' lg,
     PgnGame_read (stream (qs "[Variant random] 1. aa a *")) 100 = Some (g, f', lg))
  /\ isEmpty g = false /\ isRandom (m_variant g) = true
  /\ m_isRandomVariant g = false /\ m_round g = 0%Z
  /\ m_hasTags g = true
  /\ (forall date dest, write g date true dest = dest ++ pgnText g date)
  /\ PgnGame_startingFen g <> [].
Proof.
  intro g.
  assert (Hr : exists f' lg,
             PgnGame_read (stream (qs "[Variant random] 1. aa a *")) 100
             = Some (g, f', lg)) by (eexists _, _; vm_compute; reflexivity).
  split; [exact Hr|]. destruct Hr as (f' & lg & Hr).
  pose proof (@parsed_record_flags engine _ _ g f' lg Hr) as (Hf & Hd & Hw & Hs).
  split; [reflexivity|]. split; [reflexivity|].
  split; [exact Hf|]. split; [exact Hd|].
  split; [exact (proj1 (Hw eq_refl))|]. split; [exact (proj2 (Hw eq_refl))|].
  exact (Hs startFen_nonempty eq_refl).
Defined.

(** A move of four letters is illegal: the error comes with its reason. *)
Lemma errors_are_logged_witness :
  readItem (tagged [1]) (stream (qs "aaaa "))
  = Some (PgnError, tagged [1], position (rev (qs "aaaa ")) [], [IllegalMove (qs "aaaa")])
  /\ exists m, [IllegalMove (qs "aaaa")] = [m] /\ fatal m = true.
Proof.
  split; [reflexivity|].
  apply (proj1 (@errors_are_logged engine) (tagged [1]) (stream (qs "aaaa ")) PgnError
           (tagged [1]) (position (rev (qs "aaaa ")) []) [IllegalMove (qs "aaaa")] eq_refl).
  reflexivity.
Defined.

(** Moves and a result, but no tag. *)
Lemma untagged_text_is_dropped_witness :
  exists f',
    PgnGame_read (stream (qs "1. a aa 1-0")) 100
    = Some (fst (startGame (stream (qs "1. a aa 1-0"))), f', [])
    /\ rest f' = [] /\ status f' = ReadPastEnd
    /\ isEmpty (fst (startGame (stream (qs "1. a aa 1-0")))) = true
    /\ forall date opens dest,
         write (fst (startGame (stream (qs "1. a aa 1-0")))) date opens dest = dest.
Proof.
  apply (@untagged_text_is_dropped engine (stream (qs "1. a aa 1-0")) 100%Z);
    reflexivity.
Defined.

(** Castling written with zeros. *)
Lemma digit_token_is_discarded_witness :
  exists f',
    readItem (tagged [1]) (stream (qs "0-0 a")) = Some (PgnMoveNumber, tagged [1], f', [])
    /\ rest f' = qs "a" /\ status f' = Ok /\ board f' = board (stream (qs "0-0 a")).
Proof.
  apply (@digit_token_is_discarded engine (tagged [1]) (stream (qs "0-0 a")) []
           "0"%char (qs "-0") " "%char (qs "a")); reflexivity.
Defined.

(** After the empty comment the move is not read. *)
Lemma empty_comment_ends_game_witness :
  exists f',
    readItem (tagged [1]) (stream (qs "{ } a")) = Some (PgnEmpty, tagged [1], f', [])
    /\ rest f' = qs " a" /\ status f' = Ok
    /\ forall k maxMoves lg,
         (Z.of_nat (List.length (m_moves (tagged [1%nat]))) < maxMoves)%Z ->
         buildLoop (S k) maxMoves (tagged [1]) (stream (qs "{ } a")) lg
         = Some (tagged [1], f', lg).
Proof.
  apply (@empty_comment_ends_game engine (tagged [1]) (stream (qs "{ } a"))
           "{"%char "}"%char (qs " } a") (qs " ") (qs " a")); try reflexivity.
  right. split; reflexivity.
Defined.

(** The move a is lost in the comment that follows it. *)
Lemma comment_swallows_glued_token_witness :
  exists s f',
    scan (tagged [1]) (stream (qs "a{x} aa ")) = Some (Broke s f')
    /\ itemType s = PgnComment /\ str s = "a"%char :: [] ++ qs "x"
    /\ readItem (tagged [1]) (stream (qs "a{x} aa "))
       = Some (PgnComment, tagged [1], f', [])
    /\ rest f' = qs " aa " /\ status f' = Ok
    /\ board f' = board (stream (qs "a{x} aa ")).
Proof.
  apply (@comment_swallows_glued_token engine (tagged [1]) (stream (qs "a{x} aa ")) []
           PgnMove "a"%char [] "{"%char "}"%char (qs "x} aa ") (qs "x") (qs " aa "));
    try reflexivity.
  - left. reflexivity.
  - right. split; reflexivity.
Defined.

(** The bracket in the line is text. *)
Lemma line_comment_is_one_item_witness :
  readItem (tagged [1]) (stream (qs ";x[y" ++ [LF] ++ qs "a "))
  = Some (PgnComment, tagged [1],
          position (rev (qs ";x[y" ++ [LF])) (qs "a "), []).
Proof.
  exact (@line_comment_is_one_item engine (tagged [1])
           (stream (qs ";x[y" ++ [LF] ++ qs "a ")) (qs "x[y") (qs "a ")
           eq_refl eq_refl eq_refl eq_refl).
Defined.

(** After the escaped line, a line that starts with a space. *)
Lemma escape_line_is_skipped_witness :
  readItem (tagged [1]) (stream (qs "%x" ++ [LF] ++ qs " a "))
  = Some (PgnEmpty, tagged [1],
          position (rev (qs "%x" ++ [LF] ++ qs " ")) (qs "a "), []).
Proof.
  exact (proj2 (@escape_line_is_skipped engine (tagged [1])
                  (stream (qs "%x" ++ [LF] ++ qs " a ")) (qs "x") " "%char (qs "a ")
                  eq_refl eq_refl eq_refl eq_refl) eq_refl).
Defined.

Lemma leading_periods_are_skipped_witness :
  readItem (tagged [1]) (stream (qs ".. a "))
  = readItem (tagged [1]) (position (rev (qs ".. ")) (qs "a ")).
Proof.
  exact (@leading_periods_are_skipped engine (tagged [1]) (qs ".. ") (qs "a ")
           (stream (qs ".. a ")) eq_refl eq_refl eq_refl eq_refl).
Defined.

(** The Round tag. *)
Lemma unknown_tag_is_ignored_witness :
  exists f1,
    readItem (tagged []) (stream (tagLine (qs "Round", qs "3") ++ []))
    = Some (PgnTag, tagged [], f1, [])
    /\ rest f1 = [LF] /\ status f1 = Ok
    /\ board f1 = board (stream (tagLine (qs "Round", qs "3") ++ []))
    /\ forall k maxMoves lg,
         (0 < maxMoves)%Z ->
         buildLoop (S k) maxMoves (tagged [])
           (stream (tagLine (qs "Round", qs "3") ++ [])) lg
         = buildLoop k maxMoves (set_hasTags (tagged []) true) f1 lg.
Proof.
  apply (@unknown_tag_is_ignored engine (tagged [])
           (stream (tagLine (qs "Round", qs "3") ++ [])) [] (qs "Round") (qs "3") []);
    reflexivity.
Defined.

(** A variant the engine does not know. *)
Lemma failed_tag_is_kept_witness :
  exists f1,
    readItem (tagged []) (stream (tagLine (qs "Variant", qs "bogus") ++ []))
    = Some (PgnError, set_variant (tagged []) NoVariant, f1, [InvalidVariant (qs "bogus")])
    /\ rest f1 = [LF]
    /\ board f1 = board (stream (tagLine (qs "Variant", qs "bogus") ++ []))
    /\ forall k maxMoves lg,
         (0 < maxMoves)%Z ->
         buildLoop (S k) maxMoves (tagged [])
           (stream (tagLine (qs "Variant", qs "bogus") ++ [])) lg
         = Some (set_variant (tagged []) NoVariant, f1,
                 lg ++ [InvalidVariant (qs "bogus"); PgnErrorOnLine]).
Proof.
  exact (proj1 (@failed_tag_is_kept engine (tagged [])
                  (stream (tagLine (qs "Variant", qs "bogus") ++ [])) []
                  (qs "bogus") [] eq_refl eq_refl eq_refl eq_refl) eq_refl eq_refl).
Defined.

(** The random game behind the end of a game before it. *)
Lemma game_found_behind_text_witness :
  exists f',
    PgnGame_read
      (stream (qs "a aa 1-0 " ++ write randomGame (qs "2026.11.03") true [] ++ [])) 100
    = Some (readBack randomGame, f', [])
    /\ status f' = Ok /\ rest f' = [LF].
Proof.
  apply (@game_found_behind_text engine randomGame (qs "2026.11.03") (qs "a aa 1-0 ") []
           (stream (qs "a aa 1-0 " ++ write randomGame (qs "2026.11.03") true [] ++ []))
           100%Z); try reflexivity.
  - exact randomGame_faithful.
  - exact notation_reads_back.
Defined.


(** The random game written twice, on two days, and read with a cap of
    four moves and then without. *)
Lemma written_games_read_in_turn_witness :
  exists f1 f2,
    PgnGame_read
      (stream (write randomGame (qs "2026.11.04") true
                 (write randomGame (qs "2026.11.03") true []) ++ [])) 4
    = Some (set_moves (readBack randomGame)
              (firstn (Z.to_nat 4) (m_moves randomGame)), f1, [])
    /\ PgnGame_read f1 100 = Some (readBack randomGame, f2, [])
    /\ status f2 = Ok /\ rest f2 = [LF].
Proof.
  apply (@written_games_read_in_turn engine randomGame randomGame (qs "2026.11.03")
           (qs "2026.11.04") []
           (stream (write randomGame (qs "2026.11.04") true
                      (write randomGame (qs "2026.11.03") true []) ++ [])) 4%Z 100%Z);
    try reflexivity.
  - exact randomGame_faithful.
  - exact randomGame_faithful.
  - exact notation_reads_back.
Defined.

Lemma nonempty_parse_consumes_witness :
  exists g f' lg,
    PgnGame_read (stream (qs "[White x] 1. a aa *")) 100 = Some (g, f', lg)
    /\ isEmpty g = false
    /\ remaining f' < remaining (stream (qs "[White x] 1. a aa *")).
Proof.
  eexists _, _, _. split; [vm_compute; reflexivity|]. split; [reflexivity|].
  eapply (@nonempty_parse_consumes engine (stream (qs "[White x] 1. a aa *")) 100%Z);
    [vm_compute; reflexivity | reflexivity].
Defined.

(** The curly bracket is never closed: the move and the tag after it are
    comment text. *)
Lemma unclosed_comment_reads_to_end_witness :
  exists f',
    readItem (tagged [1]) (stream (qs "{x a [White y]"))
    = Some (PgnComment, tagged [1], f', [])
    /\ rest f' = [] /\ status f' = ReadPastEnd
    /\ forall k maxMoves lg,
         (Z.of_nat (List.length (m_moves (tagged [1%nat]))) < maxMoves)%Z ->
         buildLoop (S (S k)) maxMoves (tagged [1]) (stream (qs "{x a [White y]")) lg
         = Some (tagged [1], f', lg).
Proof.
  apply (@unclosed_comment_reads_to_end engine (tagged [1])
           (stream (qs "{x a [White y]")) "{"%char "}"%char (qs "x a [White y]"));
    try reflexivity.
  right. split; reflexivity.
Defined.

(** The terminator is the last thing of the text. *)
Lemma token_at_end_of_data_witness :
  exists s f',
    scan (tagged [1]) (stream (qs " 1-0")) = Some (Broke s f')
    /\ itemType s = PgnMoveNumber /\ str s = qs "1-0"
    /\ rest f' = [] /\ status f' = ReadPastEnd
    /\ board f' = board (stream (qs " 1-0"))
    /\ (forall r, terminatorValue (qs "1-0") = Some r ->
          readItem (tagged [1]) (stream (qs " 1-0"))
          = Some (PgnResult, set_result (tagged [1]) r, f',
                  if Result_eqb r (m_result (tagged [1])) then []
                  else [MarkerDiffersFromTag]))
    /\ (PgnMoveNumber = PgnMove -> isTerminator (qs "1-0") = false ->
        readItem (tagged [1]) (stream (qs " 1-0"))
        = Some (interpretMove (tagged [1]) f' (qs "1-0"))).
Proof.
  apply (@token_at_end_of_data engine (tagged [1]) (stream (qs " 1-0")) (qs " ")
           PgnMoveNumber "1"%char (qs "-0")); try reflexivity.
  right. reflexivity.
Defined.

(** A White tag after a move: an error, and the name stays. *)
Lemma tags_closed_after_first_move_witness :
  readItem (tagged [1]) (stream (qs "[White x]"))
  = Some (PgnError, tagged [1], stream (qs "[White x]"), [NoTerminationMarker])
  /\ PgnError <> PgnTag
  /\ m_whitePlayer (tagged [1]) = m_whitePlayer (tagged [1])
  /\ m_blackPlayer (tagged [1]) = m_blackPlayer (tagged [1])
  /\ m_variant (tagged [1]) = m_variant (tagged [1])
  /\ (m_fen (tagged [1]) <> [] -> m_fen (tagged [1]) = m_fen (tagged [1])).
Proof.
  split; [reflexivity|].
  apply (@tags_closed_after_first_move engine (tagged [1]) (stream (qs "[White x]"))
           PgnError (tagged [1]) (stream (qs "[White x]")) [NoTerminationMarker] eq_refl).
  discriminate.
Defined.


(** The glyph 12. *)
Lemma nag_token_is_read_witness :
  exists f',
    rest f' = qs "a " /\ status f' = Ok /\ board f' = board (stream (qs " $12 a "))
    /\ readItem (tagged [1]) (stream (qs " $12 a "))
       = Some (interpretNag (tagged [1]) f' (qs "12")).
Proof.
  apply (@nag_token_is_read engine (tagged [1]) (stream (qs " $12 a ")) (qs " ")
           (qs "12") " "%char (qs "a ")); reflexivity.
Defined.

End Examples.
